(** * API Extractor: the Span rewriter, the review-file generator, the Ast
      graph and the containers of the API model.

    A shallow embedding of the classes [Span] and [SpanModification]
    (apps/api-extractor/src/analyzer/Span.ts), [AstDeclaration],
    [ReviewFileGenerator] and [ApiItemContainerMixin], followed by the
    properties established about them.  Part I follows the sources
    function by function; Part II states and proves the properties. *)

From Stdlib Require Import List Arith NArith Lia Bool Ascii String Permutation Sorted.
From Equations Require Import Equations.
From stdpp Require Import base option list gmap.
Import ListNotations.

Set Default Proof Using "Type".
Set Warnings "-register-all".
Local Open Scope nat_scope.

(* ===================================================================== *)
(** * Part I. The model                                                    *)
(* ===================================================================== *)

(** ** JavaScript values used by the sources *)

Module JS.

(** A JavaScript string is a sequence of UTF-16 code units. *)
Definition jsstring : Type := list N.

(** String literals of the sources, written as Rocq strings. *)
Definition lit (s : string) : jsstring :=
  List.map N_of_ascii (list_ascii_of_string s).

(** [===] on strings. *)
Definition streq (a b : jsstring) : bool := bool_decide (a = b).

(** Truthiness of a [string] and of a [string | undefined]:
    [undefined] and the empty string are falsy. *)
Definition truthy (s : jsstring) : bool :=
  match s with [] => false | _ :: _ => true end.

Definition truthy_opt (o : option jsstring) : bool :=
  match o with Some s => truthy s | None => false end.

(** [String.prototype.substring(start, end)] on non-negative integer
    indices: both indices are clamped to the length and swapped when
    [start > end]. *)
Definition substring (s : jsstring) (startIndex endIndex : nat) : jsstring :=
  let lo := Nat.min startIndex endIndex in
  let hi := Nat.max startIndex endIndex in
  take (hi - lo) (drop lo s).

(** [Array.prototype.join]. *)
Fixpoint join (sep : jsstring) (parts : list jsstring) : jsstring :=
  match parts with
  | [] => []
  | [p] => p
  | p :: ps => p ++ sep ++ join sep ps
  end.

(** The characters matched by [\s] in a regular expression: the
    ECMAScript WhiteSpace and LineTerminator code points. *)
Definition isWhiteSpace (c : N) : bool :=
  ((9 <=? c) && (c <=? 13)            (* TAB LF VT FF CR *)
   || (c =? 32)                       (* SPACE *)
   || (c =? 160)                      (* NO-BREAK SPACE *)
   || (c =? 5760)                     (* OGHAM SPACE MARK *)
   || ((8192 <=? c) && (c <=? 8202))  (* EN QUAD .. HAIR SPACE *)
   || (c =? 8232) || (c =? 8233)      (* LINE / PARAGRAPH SEPARATOR *)
   || (c =? 8239) || (c =? 8287)      (* NARROW NBSP, MEDIUM MATH SPACE *)
   || (c =? 12288)                    (* IDEOGRAPHIC SPACE *)
   || (c =? 65279))%N.                (* ZERO WIDTH NO-BREAK SPACE *)

(** Greedy consumption of a character class: what [[cls]*] eats. *)
Fixpoint skipClass (cls : N -> bool) (s : jsstring) : jsstring :=
  match s with
  | c :: s' => if cls c then skipClass cls s' else s
  | [] => []
  end.

Lemma skipClass_length cls s : length (skipClass cls s) <= length s.
Proof. induction s as [|c s IH]; simpl; [lia|]. destruct (cls c); simpl; lia. Qed.

(** [s.replace(/[cls]+/g, rep)]: scanning from the left, every match of
    the greedy pattern [[cls]+] is replaced by [rep]; a character at
    which the pattern does not match is copied. *)
Equations? replaceClassPlus (cls : N -> bool) (rep : jsstring) (s : jsstring)
  : jsstring by wf (length s) lt :=
  replaceClassPlus cls rep [] := [];
  replaceClassPlus cls rep (c :: s') with cls c := {
    | true := rep ++ replaceClassPlus cls rep (skipClass cls s');
    | false := c :: replaceClassPlus cls rep s' }.
Proof.
  - pose proof (skipClass_length cls s'). simpl. lia.
  - simpl. lia.
Qed.

End JS.

Import JS.

(** ** Exceptions *)

(** A call either returns a value or throws [new Error(message)]. *)
Inductive Result (A : Type) : Type :=
| Ok (value : A)
| Error (message : jsstring).
Arguments Ok {A} value.
Arguments Error {A} message.

Definition isError {A} (r : Result A) : bool :=
  match r with Error _ => true | Ok _ => false end.

(** ** Sort.sortBy (node-core-library) *)

Module Sort.

(** [<] on strings: lexicographic on code units. *)
Fixpoint compareStrings (a b : jsstring) : comparison :=
  match a, b with
  | [], [] => Eq
  | [], _ :: _ => Lt
  | _ :: _, [] => Gt
  | x :: a', y :: b' =>
      match N.compare x y with
      | Eq => compareStrings a' b'
      | c => c
      end
  end.

(** Modelled from the spec: the comparer [Sort.sortBy] applies to the keys,
    whose source is not part of the analysed files.  Keys are
    [string | undefined]; a missing key sorts after every string. *)
Definition compareByValue (x y : option jsstring) : comparison :=
  match x, y with
  | None, None => Eq
  | None, Some _ => Gt
  | Some _, None => Lt
  | Some a, Some b => compareStrings a b
  end.

Definition keyLe (x y : option jsstring) : bool :=
  match compareByValue x y with Gt => false | _ => true end.

Section SortBy.
Context {T : Type} (keySelector : T -> option jsstring).

Fixpoint insertBy (x : T) (l : list T) : list T :=
  match l with
  | [] => [x]
  | y :: l' =>
      if keyLe (keySelector x) (keySelector y) then x :: l
      else y :: insertBy x l'
  end.

(** Modelled from the spec: [Sort.sortBy(array, keySelector)], whose source
    is not part of the analysed files, is a stable sort by key ("stable,
    entries with missing keys preserve order and are emitted last").  The
    array is sorted in place; the model returns the sorted array. *)
Definition sortBy (array : list T) : list T :=
  foldr insertBy [] array.

End SortBy.

End Sort.

(** ** Span.ts *)

Module Span.

(** The syntax kinds the sources distinguish ([ts.SyntaxKind]). *)
Inductive SyntaxKind : Type :=
| JSDocComment
| ExportKeyword
| DefaultKeyword
| SyntaxList
| ModuleBlock
| VariableDeclaration
| VariableDeclarationList
| Identifier
| OtherKind (code : nat).

#[export] Instance SyntaxKind_eq_dec : EqDecision SyntaxKind.
Proof. solve_decision. Defined.

(** A [ts.Node] as the Span constructor sees it: [getStart()], [end] and
    [getChildren()]. *)
Inductive Node : Type :=
  mkNode { kind : SyntaxKind;
           getStart : nat;
           end_ : nat;
           getChildren : list Node }.

(** [SpanModification]: the fields; the [prefix] and [suffix] accessors,
    which fall back on the span, are [modification_prefix] and
    [modification_suffix] below. *)
Record SpanModification : Type :=
  mkSpanModification {
    omitChildren : bool;
    omitSeparatorAfter : bool;
    sortChildren : bool;
    sortKey : option jsstring;
    _prefix : option jsstring;
    _suffix : option jsstring }.

(** [SpanModification.reset]. *)
Definition reset : SpanModification :=
  mkSpanModification false false false None None None.

Definition set_prefix (value : jsstring) (m : SpanModification) : SpanModification :=
  mkSpanModification (omitChildren m) (omitSeparatorAfter m) (sortChildren m)
    (sortKey m) (Some value) (_suffix m).

Definition set_suffix (value : jsstring) (m : SpanModification) : SpanModification :=
  mkSpanModification (omitChildren m) (omitSeparatorAfter m) (sortChildren m)
    (sortKey m) (_prefix m) (Some value).

Definition set_sortChildren (value : bool) (m : SpanModification) : SpanModification :=
  mkSpanModification (omitChildren m) (omitSeparatorAfter m) value
    (sortKey m) (_prefix m) (_suffix m).

Definition set_sortKey (value : option jsstring) (m : SpanModification) : SpanModification :=
  mkSpanModification (omitChildren m) (omitSeparatorAfter m) (sortChildren m)
    value (_prefix m) (_suffix m).

(** [SpanModification.skipAll]. *)
Definition skipAll (m : SpanModification) : SpanModification :=
  mkSpanModification true true (sortChildren m) (sortKey m) (Some []) (Some []).

(** A [Span].  The [_parent] and sibling links are not stored: the tree is
    walked from the root, and a traversal that needs the parent receives
    it. *)
Inductive Span : Type :=
  mkSpan { node : Node;
           startIndex : nat;
           endIndex : nat;
           children : list Span;
           modification : SpanModification;
           _separatorStartIndex : nat;
           _separatorEndIndex : nat }.

Definition set_children (ch : list Span) (sp : Span) : Span :=
  mkSpan (node sp) (startIndex sp) (endIndex sp) ch (modification sp)
    (_separatorStartIndex sp) (_separatorEndIndex sp).

Definition set_startIndex (i : nat) (sp : Span) : Span :=
  mkSpan (node sp) i (endIndex sp) (children sp) (modification sp)
    (_separatorStartIndex sp) (_separatorEndIndex sp).

Definition set_separator (s e : nat) (sp : Span) : Span :=
  mkSpan (node sp) (startIndex sp) (endIndex sp) (children sp) (modification sp) s e.

Definition set_modification (m : SpanModification) (sp : Span) : Span :=
  mkSpan (node sp) (startIndex sp) (endIndex sp) (children sp) m
    (_separatorStartIndex sp) (_separatorEndIndex sp).

(** *** Construction *)

(** The last element of an array replaced by what [f] makes of it, when
    [f] accepts it. *)
Fixpoint replaceLast {A} (f : A -> option A) (l : list A) : option (list A) :=
  match l with
  | [] => None
  | [x] => (fun y => [y]) <$> f x
  | x :: l' => cons x <$> replaceLast f l'
  end.

(** [f] of the last element of an array, [d] when there is none. *)
Fixpoint ofLast {A B} (f : A -> B) (d : B) (l : list A) : B :=
  match l with
  | [] => d
  | [x] => f x
  | _ :: l' => ofLast f d l'
  end.

(** The [while] loop of the constructor together with the assignment that
    follows it: the separator goes to the deepest span on the last-child
    chain of [separatorRecipient] that is reached without crossing a
    suffix. *)
Fixpoint assignSeparator (sepStart sepEnd : nat) (separatorRecipient : Span) : Span :=
  match
    replaceLast
      (fun lastChild =>
         if bool_decide (endIndex lastChild ≠ endIndex separatorRecipient) then None
         else Some (assignSeparator sepStart sepEnd lastChild))
      (children separatorRecipient)
  with
  | Some ch => set_children ch separatorRecipient
  | None => set_separator sepStart sepEnd separatorRecipient
  end.

(** One iteration of the constructor's loop, after [childSpan] has been
    built: [this] is the span under construction, whose last child is
    [previousChildSpan]. *)
Definition attachChild (this childSpan : Span) : Result Span :=
  let previousChildSpan := last (children this) in
  let pushed := set_children (children this ++ [childSpan]) this in
  let normalized :=
    if startIndex childSpan <? startIndex pushed
    then set_startIndex (startIndex childSpan) pushed else pushed in
  if endIndex normalized <? endIndex childSpan then Error (lit "Unexpected AST case")
  else
    match previousChildSpan with
    | Some previous =>
        if endIndex previous <? startIndex childSpan then
          let previous' :=
            assignSeparator (endIndex previous) (startIndex childSpan) previous in
          Ok (set_children
                (removelast (children this) ++ [previous'; childSpan]) normalized)
        else Ok normalized
    | None => Ok normalized
    end.

(** The constructor's loop over [node.getChildren()]; [build] is the
    constructor itself. *)
Fixpoint attachEach (build : Node -> Result Span) (childNodes : list Node) (this : Span)
  : Result Span :=
  match childNodes with
  | [] => Ok this
  | childNode :: rest =>
      match build childNode with
      | Error e => Error e
      | Ok childSpan =>
          match attachChild this childSpan with
          | Error e => Error e
          | Ok this' => attachEach build rest this'
          end
      end
  end.

(** [new Span(node)]. *)
Fixpoint new (n : Node) : Result Span :=
  attachEach new (getChildren n) (mkSpan n (getStart n) (end_ n) [] reset 0 0).

(** *** Text of a span *)

Section WithSourceFile.

(** [node.getSourceFile().text]. *)
Variable text : jsstring.

Definition _getSubstring (startIndex endIndex : nat) : jsstring :=
  if startIndex =? endIndex then [] else substring text startIndex endIndex.

Definition prefix (sp : Span) : jsstring :=
  match children sp with
  | first :: _ => _getSubstring (startIndex sp) (startIndex first)
  | [] => _getSubstring (startIndex sp) (endIndex sp)
  end.

Definition suffix (sp : Span) : jsstring :=
  match last (children sp) with
  | Some lastChild => _getSubstring (endIndex lastChild) (endIndex sp)
  | None => []
  end.

Definition separator (sp : Span) : jsstring :=
  _getSubstring (_separatorStartIndex sp) (_separatorEndIndex sp).

Definition modification_prefix (sp : Span) : jsstring :=
  match _prefix (modification sp) with Some p => p | None => prefix sp end.

Definition modification_suffix (sp : Span) : jsstring :=
  match _suffix (modification sp) with Some s => s | None => suffix sp end.

Fixpoint getLastInnerSeparator (sp : Span) : jsstring :=
  if truthy (separator sp) then separator sp
  else ofLast getLastInnerSeparator [] (children sp).

(** [getIndent]: the run of spaces and tabs that ends at [startIndex]. *)
Fixpoint indentStart (lineStartIndex : nat) : nat :=
  match lineStartIndex with
  | 0 => 0
  | S i =>
      match text !! i with
      | Some c => if negb (c =? 32)%N && negb (c =? 9)%N then lineStartIndex
                  else indentStart i
      | None => lineStartIndex
      end
  end.

Definition getIndent (sp : Span) : jsstring :=
  substring text (indentStart (startIndex sp)) (startIndex sp).

Fixpoint getText (sp : Span) : jsstring :=
  prefix sp
  ++ concat (List.map getText (children sp))
  ++ suffix sp
  ++ separator sp.

(** [_writeModifiedText]: the text appended to [options.output].  Each
    child is paired with its own writer so that the sorted copy of the
    children array can be written in its new order. *)
Fixpoint _writeModifiedText (sp : Span) (separatorOverride : option jsstring) : jsstring :=
  let childCount := length (children sp) in
  let lastChildIndex := childCount - 1 in
  let writers := List.map (fun c => (c, _writeModifiedText c)) (children sp) in
  modification_prefix sp
  ++ (if omitChildren (modification sp) then []
      else if sortChildren (modification sp) && (1 <? childCount) then
        let sortedChildren :=
          Sort.sortBy (fun x => sortKey (modification (fst x))) writers in
        let firstSeparator :=
          match children sp with c :: _ => getLastInnerSeparator c | [] => [] end in
        let lastSeparator :=
          match last (children sp) with Some c => getLastInnerSeparator c | None => [] end in
        concat (imap (fun i sortedChild =>
                        snd sortedChild
                          (Some (if i <? lastChildIndex then firstSeparator
                                 else lastSeparator)))
                     sortedChildren)
      else if truthy_opt separatorOverride then
        concat (imap (fun i child =>
                        if (i <? lastChildIndex) || truthy (separator sp)
                        then snd child None
                        else snd child separatorOverride)
                     writers)
      else concat (List.map (fun child => snd child separatorOverride) writers))
  ++ modification_suffix sp
  ++ (if truthy_opt separatorOverride then
        if truthy (separator sp) || (childCount =? 0)
        then default [] separatorOverride else []
      else if omitSeparatorAfter (modification sp) then [] else separator sp).

Definition getModifiedText (sp : Span) : jsstring :=
  _writeModifiedText sp None.

End WithSourceFile.

End Span.

(** ** AstDeclaration.ts *)

Module AstDeclaration.

(** An [AstSymbol], by object identity.  Its class is not part of the
    analysed files; the declaration code reads its [analyzed] flag only. *)
Definition AstSymbol : Type := positive.

(** The read-only fields of an [AstDeclaration]: the [ts.Declaration] it
    wraps (by identity), its symbol and its parent.  Two declaration
    objects are the same object when these agree. *)
Inductive AstDeclaration : Type :=
  mkAstDeclaration { declaration : positive;
                     astSymbol : AstSymbol;
                     parent : option AstDeclaration }.

Fixpoint encode (d : AstDeclaration) : list (positive * positive) :=
  (declaration d, astSymbol d)
  :: match parent d with Some p => encode p | None => [] end.

Fixpoint decode (l : list (positive * positive)) : option AstDeclaration :=
  match l with
  | [] => None
  | (n, s) :: l' =>
      match l' with
      | [] => Some (mkAstDeclaration n s None)
      | _ :: _ => mkAstDeclaration n s ∘ Some <$> decode l'
      end
  end.

Lemma AstDeclaration_chain_ind (P : AstDeclaration -> Prop) :
  (forall n s, P (mkAstDeclaration n s None)) ->
  (forall n s p, P p -> P (mkAstDeclaration n s (Some p))) ->
  forall d, P d.
Proof.
  intros Hroot Hnested. fix IH 1. intros [n s [p|]].
  - apply Hnested, IH.
  - apply Hroot.
Qed.

Lemma decode_encode d : decode (encode d) = Some d.
Proof.
  induction d as [n s|n s p IH] using AstDeclaration_chain_ind; [reflexivity|].
  simpl in *. destruct (encode p) eqn:E; [destruct p; discriminate|].
  rewrite IH. reflexivity.
Qed.

#[export] Instance AstDeclaration_eq_dec : EqDecision AstDeclaration.
Proof.
  intros x y. destruct (decide (encode x = encode y)) as [E|E].
  - left. apply (f_equal decode) in E. rewrite !decode_encode in E. congruence.
  - right. congruence.
Defined.

#[export] Instance AstDeclaration_countable : Countable AstDeclaration :=
  inj_countable encode decode decode_encode.

(** The mutable state: which symbols are [analyzed], and the two private
    collections of every declaration (empty when the object is new). *)
Record Heap : Type :=
  mkHeap { analyzedSymbols : gset AstSymbol;
           _analyzedChildren : gmap AstDeclaration (list AstDeclaration);
           _analyzedReferencedAstSymbolsSet : gmap AstDeclaration (list AstSymbol) }.

(** [astSymbol.analyzed]. *)
Definition analyzed (h : Heap) (s : AstSymbol) : bool :=
  bool_decide (s ∈ analyzedSymbols h).

Definition analyzedChildrenOf (h : Heap) (d : AstDeclaration) : list AstDeclaration :=
  default [] (_analyzedChildren h !! d).

Definition referencedSetOf (h : Heap) (d : AstDeclaration) : list AstSymbol :=
  default [] (_analyzedReferencedAstSymbolsSet h !! d).

(** A [Set], in insertion order. *)
Definition setHas (s : AstSymbol) (set : list AstSymbol) : bool :=
  bool_decide (s ∈ set).

Definition setAdd (s : AstSymbol) (set : list AstSymbol) : list AstSymbol :=
  if setHas s set then set else set ++ [s].

(** The [children] accessor. *)
Definition children (h : Heap) (this : AstDeclaration) : list AstDeclaration :=
  if analyzed h (astSymbol this) then analyzedChildrenOf h this else [].

(** The [referencedAstSymbols] accessor. *)
Definition referencedAstSymbols (h : Heap) (this : AstDeclaration) : list AstSymbol :=
  if analyzed h (astSymbol this) then referencedSetOf h this else [].

Definition _notifyChildAttach (this child : AstDeclaration) (h : Heap)
  : Heap * Result unit :=
  if bool_decide (parent child ≠ Some this) then
    (h, Error (lit "Program Bug: Invalid call to notifyChildAttach()"))
  else if analyzed h (astSymbol this) then
    (h, Error (lit "Program Bug: _notifyChildAttach() called after analysis is already complete"))
  else
    (mkHeap (analyzedSymbols h)
       (<[this := analyzedChildrenOf h this ++ [child]]> (_analyzedChildren h))
       (_analyzedReferencedAstSymbolsSet h),
     Ok tt).

(** The [for] loop of [_notifyReferencedAstSymbol]: [true] when it returns
    early. *)
Fixpoint alreadyCovered (h : Heap) (referencedAstSymbol : AstSymbol)
    (current : AstDeclaration) : bool :=
  if setHas referencedAstSymbol (referencedSetOf h current) then true
  else if bool_decide (referencedAstSymbol = astSymbol current) then true
  else match parent current with
       | Some p => alreadyCovered h referencedAstSymbol p
       | None => false
       end.

Definition _notifyReferencedAstSymbol (this : AstDeclaration)
    (referencedAstSymbol : AstSymbol) (h : Heap) : Heap * Result unit :=
  if analyzed h (astSymbol this) then
    (h, Error (lit "Program Bug: notifyReferencedAstSymbol() called after analysis is already complete"))
  else if alreadyCovered h referencedAstSymbol this then (h, Ok tt)
  else
    (mkHeap (analyzedSymbols h) (_analyzedChildren h)
       (<[this := setAdd referencedAstSymbol (referencedSetOf h this)]>
          (_analyzedReferencedAstSymbolsSet h)),
     Ok tt).

(** Modelled from the spec: the end of the analysis, which belongs to the
    symbol table and is not part of the analysed files; the [analyzed]
    flag of a symbol goes from false to true and never back. *)
Definition markAnalyzed (s : AstSymbol) (h : Heap) : Heap :=
  mkHeap ({[s]} ∪ analyzedSymbols h) (_analyzedChildren h)
    (_analyzedReferencedAstSymbolsSet h).

(** [this] followed by its parents, innermost first. *)
Fixpoint selfAndAncestors (d : AstDeclaration) : list AstDeclaration :=
  d :: match parent d with Some p => selfAndAncestors p | None => [] end.

Definition ancestors (d : AstDeclaration) : list AstDeclaration :=
  match parent d with Some p => selfAndAncestors p | None => [] end.

End AstDeclaration.

(** ** ApiItemContainerMixin.ts *)

Module ApiItemContainerMixin.

(** An [ApiItem]: its identity and the two read-only accessors the
    container uses. *)
Record ApiItem : Type :=
  mkApiItem { itemKey : positive;
              name : jsstring;
              canonicalReference : jsstring }.

(** The symbol-keyed private fields the mixin adds to a container. *)
Record Container : Type :=
  mkContainer { _members : list ApiItem;
                _membersSorted : option bool;
                _membersByCanonicalReference : gmap jsstring ApiItem;
                _membersByName : option (gmap jsstring (list ApiItem)) }.

(** The fields as the mixin's constructor leaves them, before it adds
    [options.members]. *)
Definition constructed : Container :=
  mkContainer [] None ∅ None.

(** The mutable state: the fields of every container, and the
    [ApiItem_parent] field of every item ([None] for [undefined]). *)
Record Heap : Type :=
  mkHeap { containers : gmap positive Container;
           ApiItem_parent : gmap positive ApiItem }.

Definition containerOf (h : Heap) (this : ApiItem) : Container :=
  default constructed (containers h !! itemKey this).

Definition addMember (this member : ApiItem) (h : Heap) : Heap * Result unit :=
  let c := containerOf h this in
  if bool_decide (is_Some (_membersByCanonicalReference c !! canonicalReference member)) then
    (h, Error (lit "Another member has already been added with the same name and canonicalReference"))
  else
    match ApiItem_parent h !! itemKey member with
    | Some existingParent =>
        (h, Error (lit "This item has already been added to another container: "
                   ++ [34%N] ++ name existingParent ++ [34%N]))
    | None =>
        let c' :=
          mkContainer (_members c ++ [member]) (Some false)
            (<[canonicalReference member := member]> (_membersByCanonicalReference c))
            None in
        (mkHeap (<[itemKey this := c']> (containers h))
                (<[itemKey member := this]> (ApiItem_parent h)),
         Ok tt)
    end.

Definition tryGetMember (this : ApiItem) (canonicalReference : jsstring) (h : Heap)
  : option ApiItem :=
  _membersByCanonicalReference (containerOf h this) !! canonicalReference.

(** A sequence of [addMember] calls, each given as (container, member);
    a call that throws leaves the state as it was and the sequence goes
    on (the caller caught the error). *)
Fixpoint addMembers (calls : list (ApiItem * ApiItem)) (h : Heap) : Heap :=
  match calls with
  | [] => h
  | (this, member) :: rest => addMembers rest (fst (addMember this member h))
  end.

End ApiItemContainerMixin.

(** ** ReviewFileGenerator *)

Module ReviewFileGenerator.
Import AstDeclaration Span.

(** [areEquivalentApiFileContents]. *)
Definition areEquivalentApiFileContents
    (actualFileContent expectedFileContent : jsstring) : bool :=
  let normalizedActual := replaceClassPlus isWhiteSpace (lit " ") actualFileContent in
  let normalizedExpected := replaceClassPlus isWhiteSpace (lit " ") expectedFileContent in
  streq normalizedActual normalizedExpected.

(** [ReleaseTag]. *)
Inductive ReleaseTag : Type := None_ | Internal | Alpha | Beta | Public.

(** The part of a parsed doc comment the generator reads. *)
Record DocComment : Type :=
  mkDocComment { deprecatedBlock : option jsstring }.

Record DeclarationMetadata : Type :=
  mkDeclarationMetadata { tsdocComment : option DocComment;
                          isSealed : bool;
                          isVirtual : bool;
                          isOverride : bool;
                          isEventProperty : bool;
                          needsDocumentation : bool }.

Record SymbolMetadata : Type :=
  mkSymbolMetadata { releaseTag : ReleaseTag;
                     releaseTagSameAsParent : bool }.

Record CollectorEntity : Type :=
  mkCollectorEntity { nameForEmit : option jsstring;
                      exported : bool }.

(** The [Collector] as the generator uses it: the metadata of declarations
    and symbols, the type checker's symbol at an identifier (a symbol is
    known by identity), the entity of a symbol, and the symbol table. *)
Record Collector : Type :=
  mkCollector { fetchMetadataOfDeclaration : AstDeclaration -> DeclarationMetadata;
                fetchMetadataOfSymbol : AstSymbol -> SymbolMetadata;
                getSymbolAtLocation : Node -> option positive;
                tryGetEntityBySymbol : positive -> option CollectorEntity;
                getChildAstDeclarationByNode :
                  Node -> AstDeclaration -> Result AstDeclaration;
                localName : AstSymbol -> jsstring }.

(** [_writeLineAsComment]: the text appended to [output]. *)
Definition _writeLineAsComment (line : jsstring) : jsstring :=
  lit "// " ++ line ++ [10%N].

(** [array.push(x)] guarded by a condition. *)
Definition pushIf (cond : bool) (x : jsstring) (parts : list jsstring) : list jsstring :=
  if cond then parts ++ [x] else parts.

(** The [footerParts] array of [_getAedocSynopsis] before it is joined. *)
Definition footerParts (collector : Collector) (astDeclaration : AstDeclaration)
  : list jsstring :=
  let declarationMetadata := fetchMetadataOfDeclaration collector astDeclaration in
  let symbolMetadata := fetchMetadataOfSymbol collector (astSymbol astDeclaration) in
  let footerParts : list jsstring := [] in
  let footerParts :=
    if negb (releaseTagSameAsParent symbolMetadata) then
      match releaseTag symbolMetadata with
      | Internal => footerParts ++ [lit "@internal"]
      | Alpha => footerParts ++ [lit "@alpha"]
      | Beta => footerParts ++ [lit "@beta"]
      | Public => footerParts ++ [lit "@public"]
      | None_ => footerParts
      end
    else footerParts in
  let footerParts := pushIf (isSealed declarationMetadata) (lit "@sealed") footerParts in
  let footerParts := pushIf (isVirtual declarationMetadata) (lit "@virtual") footerParts in
  let footerParts := pushIf (isOverride declarationMetadata) (lit "@override") footerParts in
  let footerParts :=
    pushIf (isEventProperty declarationMetadata) (lit "@eventproperty") footerParts in
  let footerParts :=
    match tsdocComment declarationMetadata with
    | Some comment =>
        match deprecatedBlock comment with
        | Some _ => footerParts ++ [lit "@deprecated"]
        | None => footerParts
        end
    | None => footerParts
    end in
  pushIf (needsDocumentation declarationMetadata) (lit "(undocumented)") footerParts.

Definition _getAedocSynopsis (collector : Collector) (astDeclaration : AstDeclaration)
  : jsstring :=
  let parts := footerParts collector astDeclaration in
  if 0 <? length parts then _writeLineAsComment (join (lit " ") parts) else [].

Section Helpers.

(** Functions of other modules that are not part of the analysed files:
    [SymbolAnalyzer.isAstDeclaration], [TypeScriptHelpers.matchAncestor]
    and [followAliases], [Collector.getSortKeyIgnoringUnderscore],
    [Text.replaceAll], and the [declarations] of a declaration list. *)
Variable isAstDeclaration : SyntaxKind -> bool.
Variable matchAncestor : Node -> list SyntaxKind -> option Node.
Variable declarations : Node -> list Node.
Variable followAliases : positive -> positive.
Variable getSortKeyIgnoringUnderscore : jsstring -> jsstring.
Variable replaceAll : jsstring -> jsstring -> jsstring -> jsstring.

(** The text of the source file. *)
Variable text : jsstring.

Variable collector : Collector.

Definition _addIndentAfterNewlines (text indent : jsstring) : jsstring :=
  if (length text =? 0) || (length indent =? 0) then text
  else replaceAll text [10%N] ([10%N] ++ indent).

(** The [switch] of [_modifySpan]: the modification of [span] after it
    and the two flags [recurseChildren] and [sortChildren].  [m] is the
    current state of [span.modification]; of [span.parent] the code reads
    whether it exists and its kind. *)
Definition modifyByKind (parentKind : option SyntaxKind) (span : Span)
    (m : SpanModification) : Result (SpanModification * bool * bool) :=
  match kind (node span) with
  | JSDocComment => Ok (skipAll m, false, false)
  | ExportKeyword | DefaultKeyword => Ok (skipAll m, true, false)
  | SyntaxList =>
      match parentKind with
      | Some pk =>
          if isAstDeclaration pk then Ok (m, true, true)
          else if bool_decide (pk = ModuleBlock) then Ok (m, true, true)
          else Ok (m, true, false)
      | None => Ok (m, true, false)
      end
  | VariableDeclaration =>
      match parentKind with
      | None =>
          match matchAncestor (node span) [VariableDeclarationList; VariableDeclaration] with
          | None => Error (lit "Unsupported variable declaration")
          | Some list =>
              match declarations list with
              | [] => Error (lit "Cannot read property 'getStart' of undefined")
              | first :: _ =>
                  let listPrefix := substring text (getStart list) (getStart first) in
                  let m := set_prefix
                             (lit "declare " ++ listPrefix
                              ++ modification_prefix text (set_modification m span)) m in
                  Ok (set_suffix (lit ";") m, true, false)
              end
          end
      | Some _ => Ok (m, true, false)
      end
  | Identifier =>
      match getSymbolAtLocation collector (node span) with
      | Some identifierSymbol =>
          let followedSymbol := followAliases identifierSymbol in
          match tryGetEntityBySymbol collector followedSymbol with
          | Some referencedEntity =>
              if negb (truthy_opt (nameForEmit referencedEntity)) then
                Error (lit "referencedEntry.uniqueName is undefined")
              else Ok (set_prefix (default [] (nameForEmit referencedEntity)) m, true, false)
          | None => Ok (m, true, false)
          end
      | None => Ok (m, true, false)
      end
  | _ => Ok (m, true, false)
  end.

(** What the loop over the children does to one child before it recurses:
    the child's declaration, the modification of the parent and that of
    the child. *)
Definition prepareChild (sortChildren : bool) (m : SpanModification) (child : Span)
    (astDeclaration : AstDeclaration)
  : Result (AstDeclaration * SpanModification * SpanModification) :=
  if isAstDeclaration (kind (node child)) then
    match getChildAstDeclarationByNode collector (node child) astDeclaration with
    | Error e => Error e
    | Ok childAstDeclaration =>
        let '(m, cm) :=
          if sortChildren then
            (set_sortChildren true m,
             set_sortKey
               (Some (getSortKeyIgnoringUnderscore
                        (localName collector (astSymbol childAstDeclaration))))
               (modification child))
          else (m, modification child) in
        let aedocSynopsis := _getAedocSynopsis collector childAstDeclaration in
        let indentedAedocSynopsis :=
          _addIndentAfterNewlines aedocSynopsis (getIndent text child) in
        let cm := set_prefix
                    (indentedAedocSynopsis
                     ++ modification_prefix text (set_modification cm child)) cm in
        Ok (childAstDeclaration, m, cm)
    end
  else Ok (astDeclaration, m, modification child).

(** The loop of [_modifySpan] over [span.children]: [modify] is
    [_modifySpan] itself for a child of [span], [m] the modification of
    [span], and [done] the children already modified. *)
Fixpoint modifyEach
    (modify : Span -> SpanModification -> AstDeclaration -> Result Span)
    (sortChildren : bool) (astDeclaration : AstDeclaration)
    (span : Span) (rest done : list Span) (m : SpanModification) : Result Span :=
  match rest with
  | [] => Ok (set_children done (set_modification m span))
  | child :: rest' =>
      match prepareChild sortChildren m child astDeclaration with
      | Error e => Error e
      | Ok (childAstDeclaration, m, cm) =>
          match modify child cm childAstDeclaration with
          | Error e => Error e
          | Ok child' =>
              modifyEach modify sortChildren astDeclaration span rest' (done ++ [child']) m
          end
      end
  end.

(** [_modifySpan].  The modification is the mutable part of a span: [m] is
    its current state for [span], and the result is the span with the
    modifications of the whole subtree in place. *)
Fixpoint _modifySpan (parentKind : option SyntaxKind) (span : Span)
    (m : SpanModification) (astDeclaration : AstDeclaration) : Result Span :=
  match modifyByKind parentKind span m with
  | Error e => Error e
  | Ok (m, recurseChildren, sortChildren) =>
      if recurseChildren then
        modifyEach (_modifySpan (Some (kind (node span)))) sortChildren astDeclaration
          span (Span.children span) [] m
      else Ok (set_modification m span)
  end.

(** The call of [generateReviewFileContent] on the span of a declaration,
    which has no parent and whose modification is as constructed. *)
Definition modifyDeclarationSpan (span : Span) (astDeclaration : AstDeclaration)
  : Result Span :=
  _modifySpan None span (modification span) astDeclaration.

End Helpers.

End ReviewFileGenerator.

(* ===================================================================== *)
(** * Part II. Properties                                                  *)
(* ===================================================================== *)

(** ** Whitespace runs and the equivalence of review files *)

Section WhitespaceRuns.
Import ReviewFileGenerator.

Variable cls : N -> bool.

(** The decomposition of a string into its maximal runs of characters
    inside and outside a class; the flag tells which. *)
Fixpoint runs (s : jsstring) : list (bool * jsstring) :=
  match s with
  | [] => []
  | c :: s' =>
      match runs s' with
      | (b, r) :: rs =>
          if Bool.eqb (cls c) b then (b, c :: r) :: rs
          else (cls c, [c]) :: (b, r) :: rs
      | [] => [(cls c, [c])]
      end
  end.

(** Every run of the class replaced by [rep], the other runs kept. *)
Definition replaceRuns (rep : jsstring) (s : jsstring) : jsstring :=
  concat (List.map (fun x : bool * jsstring => if fst x then rep else snd x) (runs s)).

Lemma runs_head c s : exists r rs, runs (c :: s) = (cls c, c :: r) :: rs.
Proof.
  simpl. destruct (runs s) as [|[b r] rs]; [by exists [], []|].
  destruct (Bool.eqb (cls c) b) eqn:E.
  - apply Bool.eqb_prop in E. subst b. by exists r, rs.
  - by exists [], ((b, r) :: rs).
Qed.

Lemma runs_concat s : concat (List.map snd (runs s)) = s.
Proof.
  induction s as [|c s IH]; [reflexivity|]. simpl.
  destruct (runs s) as [|[b r] rs]; simpl in *; [by subst|].
  destruct (Bool.eqb (cls c) b); simpl; by rewrite IH.
Qed.

Lemma runs_uniform s :
  Forall (fun x : bool * jsstring =>
            snd x <> [] /\ Forall (fun c => cls c = fst x) (snd x)) (runs s).
Proof.
  induction s as [|c s IH]; simpl; [constructor|].
  destruct (runs s) as [|[b r] rs]; [repeat constructor; done|].
  inversion IH as [|? ? [Hne Hall] Hrest]; subst; simpl in *.
  destruct (Bool.eqb (cls c) b) eqn:E.
  - apply Bool.eqb_prop in E. constructor; [|done]. simpl. split; [done|].
    by constructor.
  - constructor; [|by constructor]. simpl. split; [done|]. by constructor.
Qed.

(** Maximality: two neighbouring runs never have the same flag. *)
Fixpoint alternating (l : list (bool * jsstring)) : Prop :=
  match l with
  | x :: ((y :: _) as l') => fst x <> fst y /\ alternating l'
  | _ => True
  end.

Lemma runs_alternating s : alternating (runs s).
Proof.
  induction s as [|c s IH]; simpl; [done|].
  destruct (runs s) as [|[b r] rs] eqn:E; [done|].
  destruct (Bool.eqb (cls c) b) eqn:Eb.
  - destruct rs; [done|]. simpl in *. done.
  - apply Bool.eqb_false_iff in Eb. simpl in *. done.
Qed.

Lemma runs_cons c s :
  runs (c :: s) =
  match runs s with
  | (b, r) :: rs =>
      if Bool.eqb (cls c) b then (b, c :: r) :: rs else (cls c, [c]) :: (b, r) :: rs
  | [] => [(cls c, [c])]
  end.
Proof. reflexivity. Qed.

Lemma replaceRuns_in rep c s :
  cls c = true -> replaceRuns rep (c :: s) = rep ++ replaceRuns rep (skipClass cls s).
Proof.
  revert c. induction s as [|d s IH]; intros c Hc.
  - unfold replaceRuns. simpl. rewrite Hc. simpl. by rewrite app_nil_r.
  - destruct (runs_head d s) as (r & rs & Hd).
    unfold replaceRuns at 1. rewrite runs_cons, Hd, Hc.
    cbn [skipClass]. destruct (cls d) eqn:Ed; cbn [Bool.eqb].
    + rewrite <- (IH d Ed). unfold replaceRuns. rewrite Hd. reflexivity.
    + unfold replaceRuns. rewrite Hd. reflexivity.
Qed.

Lemma replaceRuns_out rep c s :
  cls c = false -> replaceRuns rep (c :: s) = c :: replaceRuns rep s.
Proof.
  intros Hc. unfold replaceRuns. simpl.
  destruct (runs s) as [|[b r] rs]; simpl; [by rewrite Hc|].
  rewrite Hc. destruct b; simpl; by rewrite ?Hc.
Qed.

(** The global replacement of [[cls]+] replaces exactly the maximal runs. *)
Lemma replaceClassPlus_runs rep s :
  replaceClassPlus cls rep s = replaceRuns rep s.
Proof.
  funelim (replaceClassPlus cls rep s); simp replaceClassPlus.
  - reflexivity.
  - rewrite H. symmetry. by apply replaceRuns_in.
  - rewrite H. symmetry. by apply replaceRuns_out.
Qed.

End WhitespaceRuns.

(** Every maximal run of whitespace replaced by a single space. *)
Definition collapseWhitespace (s : jsstring) : jsstring :=
  replaceRuns isWhiteSpace (lit " ") s.

(** Two strings differ only by runs of whitespace: they have the same
    runs in the same order, except that a whitespace run of the one may
    be any whitespace run in the other. *)
Definition differOnlyByWhitespaceRuns (s s' : jsstring) : Prop :=
  Forall2 (fun x y : bool * jsstring =>
             fst x = fst y /\ (fst x = false -> snd x = snd y))
          (runs isWhiteSpace s) (runs isWhiteSpace s').

(** C3.  [areEquivalentApiFileContents s s'] is true exactly when the two
    strings become identical once every maximal run of whitespace
    characters (space, tab, CR and LF among them) is replaced by a single
    space; so two strings that differ only by their runs of whitespace
    are equivalent. *)
Theorem areEquivalentApiFileContents_iff_collapsed (s s' : jsstring) :
  (ReviewFileGenerator.areEquivalentApiFileContents s s' = true
   <-> collapseWhitespace s = collapseWhitespace s')
  /\ Forall (fun c => isWhiteSpace c = true) [32%N; 9%N; 13%N; 10%N]
  /\ (differOnlyByWhitespaceRuns s s' ->
      ReviewFileGenerator.areEquivalentApiFileContents s s' = true).
Proof.
  assert (Hiff : ReviewFileGenerator.areEquivalentApiFileContents s s' = true
                 <-> collapseWhitespace s = collapseWhitespace s').
  { unfold ReviewFileGenerator.areEquivalentApiFileContents, streq, collapseWhitespace.
    rewrite !replaceClassPlus_runs. apply bool_decide_eq_true. }
  split; [exact Hiff|]. split; [repeat constructor|].
  intros Hdiff. apply Hiff. unfold collapseWhitespace, replaceRuns.
  f_equal. unfold differOnlyByWhitespaceRuns in Hdiff.
  induction Hdiff as [|[b r] [b' r'] l l' [Hb Hr] _ IH]; [reflexivity|].
  simpl in *. subst b'. rewrite IH. destruct b; [reflexivity|]. by rewrite Hr.
Qed.

Lemma areEquivalentApiFileContents_iff_collapsed_witness :
  differOnlyByWhitespaceRuns (lit "a  b") [97%N; 13%N; 10%N; 9%N; 98%N]
  /\ ReviewFileGenerator.areEquivalentApiFileContents
       (lit "a  b") [97%N; 13%N; 10%N; 9%N; 98%N] = true.
Proof.
  assert (H : differOnlyByWhitespaceRuns (lit "a  b") [97%N; 13%N; 10%N; 9%N; 98%N]).
  { repeat constructor; simpl; intros; discriminate. }
  split; [exact H|].
  exact (proj2 (proj2 (areEquivalentApiFileContents_iff_collapsed _ _)) H).
Defined.

(** ** The AEDoc synopsis *)

Section Synopsis.
Import AstDeclaration ReviewFileGenerator.

Definition releaseTagToken (t : ReleaseTag) : option jsstring :=
  match t with
  | None_ => None
  | Internal => Some (lit "@internal")
  | Alpha => Some (lit "@alpha")
  | Beta => Some (lit "@beta")
  | Public => Some (lit "@public")
  end.

Definition tokenIf (cond : bool) (token : string) : option jsstring :=
  if cond then Some (lit token) else None.

Definition hasDeprecatedBlock (dm : DeclarationMetadata) : bool :=
  match tsdocComment dm with
  | Some comment => bool_decide (is_Some (deprecatedBlock comment))
  | None => false
  end.

(** The tokens of the synopsis in their fixed order, each present or
    not. *)
Definition synopsisSlots (sm : SymbolMetadata) (dm : DeclarationMetadata)
  : list (option jsstring) :=
  [ if releaseTagSameAsParent sm then None else releaseTagToken (releaseTag sm);
    tokenIf (isSealed dm) "@sealed";
    tokenIf (isVirtual dm) "@virtual";
    tokenIf (isOverride dm) "@override";
    tokenIf (isEventProperty dm) "@eventproperty";
    tokenIf (hasDeprecatedBlock dm) "@deprecated";
    tokenIf (needsDocumentation dm) "(undocumented)" ].

Definition synopsisTokens (sm : SymbolMetadata) (dm : DeclarationMetadata)
  : list jsstring :=
  omap id (synopsisSlots sm dm).

Lemma pushIf_tokenIf cond token parts :
  pushIf cond (lit token) parts = parts ++ option_list (tokenIf cond token).
Proof. destruct cond; simpl; by rewrite ?app_nil_r. Qed.

Lemma omap_id_slots (o1 o2 o3 o4 o5 o6 o7 : option jsstring) :
  omap id [o1; o2; o3; o4; o5; o6; o7]
  = ((((((option_list o1 ++ option_list o2) ++ option_list o3) ++ option_list o4)
        ++ option_list o5) ++ option_list o6) ++ option_list o7).
Proof. destruct o1, o2, o3, o4, o5, o6, o7; reflexivity. Qed.

Lemma push_deprecated (comment : option DocComment) (parts : list jsstring) :
  match comment with
  | Some c => match deprecatedBlock c with
              | Some _ => parts ++ [lit "@deprecated"]
              | None => parts
              end
  | None => parts
  end
  = parts ++ option_list
               (tokenIf match comment with
                        | Some c => bool_decide (is_Some (deprecatedBlock c))
                        | None => false
                        end "@deprecated").
Proof. destruct comment as [[[blk|]]|]; simpl; by rewrite ?app_nil_r. Qed.

Lemma push_releaseTag (same : bool) (tag : ReleaseTag) :
  (if negb same
   then match tag with
        | None_ => []
        | Internal => [] ++ [lit "@internal"]
        | Alpha => [] ++ [lit "@alpha"]
        | Beta => [] ++ [lit "@beta"]
        | Public => [] ++ [lit "@public"]
        end
   else [])
  = option_list (if same then None else releaseTagToken tag).
Proof. destruct same, tag; reflexivity. Qed.

Lemma footerParts_tokens collector d :
  footerParts collector d
  = synopsisTokens (fetchMetadataOfSymbol collector (astSymbol d))
                   (fetchMetadataOfDeclaration collector d).
Proof.
  unfold footerParts, synopsisTokens, synopsisSlots, hasDeprecatedBlock.
  rewrite omap_id_slots, push_deprecated, !pushIf_tokenIf, push_releaseTag.
  reflexivity.
Qed.

Lemma no_newline_check (p : jsstring) :
  forallb (fun c => negb (c =? 10)%N) p = true -> 10%N ∉ p.
Proof.
  rewrite forallb_forall, list_elem_of_In. intros H Hin.
  specialize (H _ Hin). simpl in H. discriminate.
Qed.

Lemma join_no_newline (parts : list jsstring) :
  Forall (fun p => 10%N ∉ p) parts -> 10%N ∉ join (lit " ") parts.
Proof.
  induction 1 as [|p ps Hp Hps IH]; [apply not_elem_of_nil|].
  destruct ps as [|q ps']; [done|].
  change (join (lit " ") (p :: q :: ps'))
    with (p ++ lit " " ++ join (lit " ") (q :: ps')).
  rewrite !elem_of_app. intros [?|[Hsp|?]]; [done| |done].
  revert Hsp. by apply no_newline_check.
Qed.

Lemma tokenIf_no_newline cond token :
  forallb (fun c => negb (c =? 10)%N) (lit token) = true ->
  match tokenIf cond token with Some p => 10%N ∉ p | None => True end.
Proof. intros H. destruct cond; simpl; [by apply no_newline_check|exact I]. Qed.

Lemma synopsisTokens_no_newline sm dm :
  Forall (fun p => 10%N ∉ p) (synopsisTokens sm dm).
Proof.
  assert (Hslots : Forall (fun o : option jsstring =>
                             match o with Some p => 10%N ∉ p | None => True end)
                          (synopsisSlots sm dm)).
  { unfold synopsisSlots.
    repeat (apply Forall_cons; split); try (by apply Forall_nil);
      try (apply tokenIf_no_newline; reflexivity).
    destruct (releaseTagSameAsParent sm), (releaseTag sm);
      cbn [releaseTagToken]; try exact I; by apply no_newline_check. }
  unfold synopsisTokens.
  induction Hslots as [|[p|] l Hp _ IH]; simpl; [constructor|by constructor|done].
Qed.

(** C5.  [_getAedocSynopsis] emits nothing when no token applies, and
    otherwise exactly one single-line comment: [// ], the selected tokens
    separated by one space, and a newline.  The tokens are taken, in this
    order, from: the release tag ([@internal], [@alpha], [@beta] or
    [@public]; left out when [releaseTagSameAsParent] is true), [@sealed],
    [@virtual], [@override], [@eventproperty], [@deprecated] (when the doc
    comment has a deprecated block) and [(undocumented)] (when
    [needsDocumentation] is true). *)
Theorem _getAedocSynopsis_content_and_order collector d :
  let tokens := synopsisTokens (fetchMetadataOfSymbol collector (astSymbol d))
                               (fetchMetadataOfDeclaration collector d) in
  _getAedocSynopsis collector d
  = match tokens with
    | [] => []
    | _ :: _ => lit "// " ++ join (lit " ") tokens ++ [10%N]
    end
  /\ 10%N ∉ lit "// " ++ join (lit " ") tokens.
Proof.
  intros tokens. split.
  - unfold _getAedocSynopsis. rewrite footerParts_tokens. fold tokens.
    destruct tokens; reflexivity.
  - rewrite elem_of_app. intros [H|H].
    + revert H. by apply no_newline_check.
    + revert H. apply join_no_newline, synopsisTokens_no_newline.
Qed.

End Synopsis.

(** ** The Ast graph: freezing and visibility *)

Section AstGraph.
Import AstDeclaration.

(** C7.  Once the symbol of a declaration is [analyzed], attaching a child
    to it throws and recording a reference on it throws, and the state is
    left as it was; [_notifyChildAttach] also throws, whatever the flag,
    when the parent of the child is not the receiver. *)
Theorem frozen_after_analysis (this child : AstDeclaration) (s : AstSymbol) (h : Heap) :
  (analyzed h (astSymbol this) = true ->
   (exists message, _notifyChildAttach this child h = (h, Error message))
   /\ _notifyReferencedAstSymbol this s h
      = (h, Error (lit "Program Bug: notifyReferencedAstSymbol() called after analysis is already complete")))
  /\ (parent child <> Some this ->
      _notifyChildAttach this child h
      = (h, Error (lit "Program Bug: Invalid call to notifyChildAttach()"))).
Proof.
  split.
  - intros Ha. split.
    + unfold _notifyChildAttach. rewrite Ha. case_bool_decide; eauto.
    + unfold _notifyReferencedAstSymbol. by rewrite Ha.
  - intros Hp. unfold _notifyChildAttach. by rewrite bool_decide_eq_true_2.
Qed.

Definition root1 : AstDeclaration := mkAstDeclaration 1%positive 1%positive None.
Definition nested2 : AstDeclaration := mkAstDeclaration 2%positive 2%positive (Some root1).
Definition nested3 : AstDeclaration := mkAstDeclaration 3%positive 3%positive (Some root1).
Definition emptyHeap : Heap := mkHeap ∅ ∅ ∅.

Lemma frozen_after_analysis_witness :
  analyzed (markAnalyzed 1%positive emptyHeap) (astSymbol root1) = true
  /\ (exists message,
         _notifyChildAttach root1 nested2 (markAnalyzed 1%positive emptyHeap)
         = (markAnalyzed 1%positive emptyHeap, Error message))
  /\ isError (snd (_notifyReferencedAstSymbol root1 7%positive (markAnalyzed 1%positive emptyHeap))) = true
  /\ isError (snd (_notifyChildAttach nested2 nested3 emptyHeap)) = true.
Proof.
  assert (Ha : analyzed (markAnalyzed 1%positive emptyHeap) (astSymbol root1) = true)
    by (vm_compute; reflexivity).
  assert (Hp : parent nested3 <> Some nested2) by (intros H; discriminate H).
  split; [exact Ha|]. split; [|split].
  - exact (proj1 (proj1 (frozen_after_analysis root1 nested2 7%positive _) Ha)).
  - rewrite (proj2 (proj1 (frozen_after_analysis root1 nested2 7%positive _) Ha)). reflexivity.
  - rewrite (proj2 (frozen_after_analysis nested2 nested3 7%positive emptyHeap) Hp). reflexivity.
Defined.

(** A run of [_notifyChildAttach] calls on one receiver. *)
Fixpoint attachChildren (this : AstDeclaration) (cs : list AstDeclaration) (h : Heap) : Heap :=
  match cs with
  | [] => h
  | c :: cs' => attachChildren this cs' (fst (_notifyChildAttach this c h))
  end.

Lemma analyzed_markAnalyzed s h : analyzed (markAnalyzed s h) s = true.
Proof. unfold analyzed, markAnalyzed. simpl. apply bool_decide_eq_true_2. set_solver. Qed.

Lemma _notifyChildAttach_ok this c h :
  analyzed h (astSymbol this) = false ->
  parent c = Some this ->
  _notifyChildAttach this c h
  = (mkHeap (analyzedSymbols h)
       (<[this := analyzedChildrenOf h this ++ [c]]> (_analyzedChildren h))
       (_analyzedReferencedAstSymbolsSet h), Ok tt).
Proof.
  intros Ha Hc. unfold _notifyChildAttach.
  rewrite bool_decide_eq_false_2 by (by intros H). by rewrite Ha.
Qed.

Lemma attachChildren_spec this cs h :
  analyzed h (astSymbol this) = false ->
  Forall (fun c => parent c = Some this) cs ->
  analyzedSymbols (attachChildren this cs h) = analyzedSymbols h
  /\ _analyzedReferencedAstSymbolsSet (attachChildren this cs h)
     = _analyzedReferencedAstSymbolsSet h
  /\ analyzedChildrenOf (attachChildren this cs h) this = analyzedChildrenOf h this ++ cs.
Proof.
  intros Ha Hcs. revert h Ha. induction Hcs as [|c cs Hc _ IH]; intros h Ha.
  - simpl. by rewrite app_nil_r.
  - cbn [attachChildren]. rewrite (_notifyChildAttach_ok this c h Ha Hc). cbn [fst].
    match goal with |- context [attachChildren this cs ?h1] =>
      destruct (IH h1) as (IH1 & IH2 & IH3); [exact Ha|] end.
    rewrite IH1, IH2, IH3. repeat split.
    unfold analyzedChildrenOf at 1. simpl. rewrite lookup_insert_eq. simpl.
    by rewrite <- app_assoc.
Qed.

(** C10.  While the symbol of a declaration is not [analyzed], [children]
    and [referencedAstSymbols] are empty, also after children have been
    attached and references recorded; once it is [analyzed] they are the
    attached children, in the order of attachment, and the recorded
    symbols. *)
Theorem visibility_gated_by_analyzed (this : AstDeclaration) (h : Heap) :
  (analyzed h (astSymbol this) = false ->
   children h this = [] /\ referencedAstSymbols h this = [])
  /\ (analyzed h (astSymbol this) = true ->
      children h this = analyzedChildrenOf h this
      /\ referencedAstSymbols h this = referencedSetOf h this)
  /\ (forall cs s,
         analyzed h (astSymbol this) = false ->
         Forall (fun c => parent c = Some this) cs ->
         let h1 := attachChildren this cs h in
         let h2 := fst (_notifyReferencedAstSymbol this s h1) in
         children h2 this = []
         /\ referencedAstSymbols h2 this = []
         /\ children (markAnalyzed (astSymbol this) h2) this
            = analyzedChildrenOf h this ++ cs
         /\ referencedAstSymbols (markAnalyzed (astSymbol this) h2) this
            = referencedSetOf h2 this
         /\ (alreadyCovered h1 s this = false ->
             referencedSetOf h2 this = referencedSetOf h this ++ [s])).
Proof.
  split; [|split].
  - intros Ha. unfold children, referencedAstSymbols. by rewrite Ha.
  - intros Ha. unfold children, referencedAstSymbols. by rewrite Ha.
  - intros cs s Ha Hcs h1 h2.
    destruct (attachChildren_spec this cs h Ha Hcs) as (Hsym & Hrefs & Hch).
    fold h1 in Hsym, Hrefs, Hch.
    assert (Ha1 : analyzed h1 (astSymbol this) = false)
      by (unfold analyzed in *; by rewrite Hsym).
    assert (Hrefs1 : referencedSetOf h1 this = referencedSetOf h this).
    { unfold referencedSetOf. by rewrite Hrefs. }
    assert (Hsym2 : analyzedSymbols h2 = analyzedSymbols h1).
    { subst h2. unfold _notifyReferencedAstSymbol. repeat case_match; reflexivity. }
    assert (Hch2 : analyzedChildrenOf h2 this = analyzedChildrenOf h1 this).
    { subst h2. unfold _notifyReferencedAstSymbol. repeat case_match; reflexivity. }
    assert (Ha2 : analyzed h2 (astSymbol this) = false)
      by (unfold analyzed in *; by rewrite Hsym2).
    unfold children, referencedAstSymbols. rewrite Ha2, analyzed_markAnalyzed.
    repeat split.
    + unfold analyzedChildrenOf in *. simpl. by rewrite Hch2, Hch.
    + intros Hcov. subst h2. unfold _notifyReferencedAstSymbol. rewrite Ha1, Hcov.
      unfold referencedSetOf at 1. simpl. rewrite lookup_insert_eq. simpl.
      rewrite Hrefs1. unfold setAdd.
      assert (Hhas : setHas s (referencedSetOf h1 this) = false).
      { destruct this as [n sy p]. simpl in Hcov.
        destruct (setHas s (referencedSetOf h1 _)); [discriminate|reflexivity]. }
      rewrite Hrefs1 in Hhas. by rewrite Hhas.
Qed.

Lemma visibility_gated_by_analyzed_witness :
  children (fst (_notifyReferencedAstSymbol root1 7%positive
                   (attachChildren root1 [nested2; nested3] emptyHeap))) root1 = []
  /\ children (markAnalyzed 1%positive
                 (fst (_notifyReferencedAstSymbol root1 7%positive
                         (attachChildren root1 [nested2; nested3] emptyHeap)))) root1
     = [nested2; nested3].
Proof.
  assert (Ha : analyzed emptyHeap (astSymbol root1) = false) by (vm_compute; reflexivity).
  assert (Hcs : Forall (fun c => parent c = Some root1) [nested2; nested3])
    by (repeat constructor).
  pose proof (proj2 (proj2 (visibility_gated_by_analyzed root1 emptyHeap))
                [nested2; nested3] 7%positive Ha Hcs) as H.
  cbv zeta in H. destruct H as (H1 & _ & H3 & _).
  split; [exact H1|exact H3].
Defined.

End AstGraph.

(** ** Containers of the API model *)

Section Containers.
Import ApiItemContainerMixin.

Lemma addMember_error this member h h' message :
  addMember this member h = (h', Error message) -> h' = h.
Proof.
  unfold addMember. case_bool_decide; [by intros [= <- _]|].
  destruct (ApiItem_parent h !! itemKey member); by intros [= <- _].
Qed.

Lemma addMember_ok this member h h' :
  addMember this member h = (h', Ok tt) ->
  tryGetMember this (canonicalReference member) h = None
  /\ ApiItem_parent h !! itemKey member = None
  /\ h' = mkHeap
            (<[itemKey this :=
                 mkContainer (_members (containerOf h this) ++ [member]) (Some false)
                   (<[canonicalReference member := member]>
                      (_membersByCanonicalReference (containerOf h this)))
                   None]> (containers h))
            (<[itemKey member := this]> (ApiItem_parent h)).
Proof.
  unfold addMember, tryGetMember. case_bool_decide as Hhas; [discriminate|].
  destruct (ApiItem_parent h !! itemKey member); [discriminate|].
  intros [= <-]. split; [|done].
  by destruct (_membersByCanonicalReference (containerOf h this) !! canonicalReference member);
    [destruct Hhas; eauto|].
Qed.

(** A canonical reference, once added to a container, stays in its
    lookup map whatever is added afterwards, to any container. *)
Lemma addMember_keeps_reference this member h container reference :
  is_Some (tryGetMember container reference h) ->
  is_Some (tryGetMember container reference (fst (addMember this member h))).
Proof.
  intros Hin. destruct (addMember this member h) as [h' [[]|message]] eqn:E; simpl.
  - apply addMember_ok in E as (_ & _ & ->).
    unfold tryGetMember, containerOf in *. simpl.
    destruct (decide (itemKey this = itemKey container)) as [Heq|Hne].
    + rewrite Heq, lookup_insert_eq. simpl. rewrite lookup_insert.
      destruct (decide (canonicalReference member = reference)); [eauto|done].
    + by rewrite lookup_insert_ne.
  - by apply addMember_error in E as ->.
Qed.

Lemma addMembers_keep_reference calls h container reference :
  is_Some (tryGetMember container reference h) ->
  is_Some (tryGetMember container reference (addMembers calls h)).
Proof.
  revert h. induction calls as [|[this member] calls IH]; intros h Hin; [done|].
  simpl. by apply IH, addMember_keeps_reference.
Qed.

(** C8.  [addMember] throws when the member already has a parent, and
    when a member with the same canonical reference was added to this
    container before; when it throws, the member list, the lookup maps and
    every other part of the state are as they were; when it succeeds, the
    container is the parent of the member. *)
Theorem addMember_single_container (this member : ApiItem) (h : Heap) :
  (is_Some (ApiItem_parent h !! itemKey member) ->
   exists message, addMember this member h = (h, Error message))
  /\ (forall earlier h0 calls,
         snd (addMember this earlier h0) = Ok tt ->
         h = addMembers calls (fst (addMember this earlier h0)) ->
         canonicalReference earlier = canonicalReference member ->
         addMember this member h
         = (h, Error (lit "Another member has already been added with the same name and canonicalReference")))
  /\ (forall h' message, addMember this member h = (h', Error message) -> h' = h)
  /\ (forall h', addMember this member h = (h', Ok tt) ->
         ApiItem_parent h' !! itemKey member = Some this
         /\ _members (containerOf h' this) = _members (containerOf h this) ++ [member]
         /\ tryGetMember this (canonicalReference member) h' = Some member).
Proof.
  split; [|split; [|split]].
  - intros [existing Hp]. unfold addMember. case_bool_decide; [eauto|].
    rewrite Hp. eauto.
  - intros earlier h0 calls Hok -> Hcr.
    destruct (addMember this earlier h0) as [h1 r] eqn:E. simpl in *. subst r.
    assert (Hin : is_Some (tryGetMember this (canonicalReference member) h1)).
    { apply addMember_ok in E as (_ & _ & ->). unfold tryGetMember, containerOf. simpl.
      rewrite lookup_insert_eq. simpl. rewrite Hcr, lookup_insert_eq. eauto. }
    apply (addMembers_keep_reference calls) in Hin.
    unfold addMember. unfold tryGetMember in Hin. by rewrite bool_decide_eq_true_2.
  - intros h' message. apply addMember_error.
  - intros h' E. apply addMember_ok in E as (_ & _ & ->).
    unfold tryGetMember, containerOf. simpl.
    rewrite !lookup_insert_eq. simpl. by rewrite lookup_insert_eq.
Qed.

Definition namespace1 : ApiItem := mkApiItem 1%positive (lit "n") (lit "(n:namespace)").
Definition namespace2 : ApiItem := mkApiItem 2%positive (lit "m") (lit "(m:namespace)").
Definition class3 : ApiItem := mkApiItem 3%positive (lit "c") (lit "(c:class)").
Definition class4 : ApiItem := mkApiItem 4%positive (lit "c") (lit "(c:class)").
Definition noItems : Heap := mkHeap ∅ ∅.

Lemma addMember_single_container_witness :
  snd (addMember namespace1 class3 noItems) = Ok tt
  /\ isError (snd (addMember namespace2 class3 (fst (addMember namespace1 class3 noItems))))
     = true
  /\ isError (snd (addMember namespace1 class4 (fst (addMember namespace1 class3 noItems))))
     = true.
Proof.
  assert (Hok : snd (addMember namespace1 class3 noItems) = Ok tt) by reflexivity.
  split; [exact Hok|]. split.
  - destruct (proj1 (addMember_single_container namespace2 class3
                       (fst (addMember namespace1 class3 noItems))))
      as [message E]; [by eexists|].
    rewrite E. reflexivity.
  - rewrite (proj1 (proj2 (addMember_single_container namespace1 class4
                             (fst (addMember namespace1 class3 noItems))))
               class3 noItems [] Hok eq_refl eq_refl).
    reflexivity.
Defined.

End Containers.

(** ** The Ast graph: referenced symbols *)

Section ReferenceEdges.
Import AstDeclaration.

(** A run of [_notifyReferencedAstSymbol] calls, each given as
    (receiver, referenced symbol). *)
Fixpoint notifyAll (calls : list (AstDeclaration * AstSymbol)) (h : Heap) : Heap :=
  match calls with
  | [] => h
  | (d, s) :: rest => notifyAll rest (fst (_notifyReferencedAstSymbol d s h))
  end.

(** No referenced set holds a symbol that a set of an ancestor holds. *)
Definition minimal (h : Heap) : Prop :=
  forall d s a, s ∈ referencedSetOf h d -> a ∈ ancestors d -> s ∉ referencedSetOf h a.

(** No referenced set holds the symbol of its declaration or of one of
    its ancestors. *)
Definition noAncestorSymbol (h : Heap) : Prop :=
  forall d s a, s ∈ referencedSetOf h d -> a ∈ selfAndAncestors d -> s <> astSymbol a.

Lemma selfAndAncestors_unfold d : selfAndAncestors d = d :: ancestors d.
Proof. by destruct d. Qed.

Lemma setHas_spec s set : setHas s set = true <-> s ∈ set.
Proof. unfold setHas. apply bool_decide_eq_true. Qed.

Lemma alreadyCovered_false h s d :
  alreadyCovered h s d = false <->
  forall a, a ∈ selfAndAncestors d -> (s ∉ referencedSetOf h a) /\ s <> astSymbol a.
Proof.
  induction d as [n sy|n sy p IH] using AstDeclaration_chain_ind.
  - simpl. split.
    + intros H a Ha. apply list_elem_of_singleton in Ha as ->. simpl.
      destruct (setHas s _) eqn:E; [discriminate|].
      case_bool_decide; [discriminate|]. split; [|done].
      rewrite <- setHas_spec. by rewrite E.
    + intros H. destruct (H _ (list_elem_of_here _ _)) as [H1 H2].
      rewrite <- setHas_spec in H1. destruct (setHas s _); [done|].
      simpl in H2. by rewrite bool_decide_eq_false_2.
  - cbn [alreadyCovered selfAndAncestors parent astSymbol]. split.
    + intros H a Ha.
      destruct (setHas s _) eqn:E; [discriminate|].
      case_bool_decide; [discriminate|].
      apply elem_of_cons in Ha as [->|Ha].
      * split; [|done]. rewrite <- setHas_spec. by rewrite E.
      * by apply IH.
    + intros H. destruct (H _ (list_elem_of_here _ _)) as [H1 H2].
      rewrite <- setHas_spec in H1. destruct (setHas s _); [done|].
      simpl in H2. rewrite bool_decide_eq_false_2 by done.
      apply IH. intros a Ha. apply H. by apply list_elem_of_further.
Qed.

(** What one call does to the referenced sets. *)
Lemma notify_sets d s h :
  let h' := fst (_notifyReferencedAstSymbol d s h) in
  (h' = h /\ (analyzed h (astSymbol d) = true \/ alreadyCovered h s d = true))
  \/ (analyzed h (astSymbol d) = false
      /\ alreadyCovered h s d = false
      /\ referencedSetOf h' d = referencedSetOf h d ++ [s]
      /\ forall d', d' <> d -> referencedSetOf h' d' = referencedSetOf h d').
Proof.
  unfold _notifyReferencedAstSymbol.
  destruct (analyzed h (astSymbol d)) eqn:Ea; [left; auto|].
  destruct (alreadyCovered h s d) eqn:Ec; [left; auto|].
  right. repeat split.
  - unfold referencedSetOf at 1. simpl. rewrite lookup_insert_eq. simpl.
    unfold setAdd.
    rewrite alreadyCovered_false in Ec.
    destruct (Ec d) as [Hnot _]; [rewrite selfAndAncestors_unfold; left|].
    rewrite <- setHas_spec in Hnot. by destruct (setHas s _).
  - intros d' Hne. unfold referencedSetOf. simpl. by rewrite lookup_insert_ne.
Qed.

Lemma ancestors_shorter d a :
  a ∈ ancestors d -> length (selfAndAncestors a) < length (selfAndAncestors d).
Proof.
  revert a. induction d as [n sy|n sy p IH] using AstDeclaration_chain_ind; intros a Ha.
  - by apply elem_of_nil in Ha.
  - unfold ancestors in Ha. simpl in Ha. rewrite selfAndAncestors_unfold in Ha.
    apply elem_of_cons in Ha as [->|Ha]; [simpl; lia|].
    apply IH in Ha. simpl. lia.
Qed.

Lemma not_own_ancestor d : d ∉ ancestors d.
Proof. intros H. apply ancestors_shorter in H. lia. Qed.

Lemma notify_noAncestorSymbol d s h :
  noAncestorSymbol h -> noAncestorSymbol (fst (_notifyReferencedAstSymbol d s h)).
Proof.
  intros Hinv. destruct (notify_sets d s h) as [[-> _]|(_ & Hc & Hd & Hother)]; [done|].
  intros d1 s1 a Hin Ha. destruct (decide (d1 = d)) as [->|Hne].
  - rewrite Hd in Hin. apply elem_of_app in Hin as [Hin|Hin]; [by eapply Hinv|].
    apply list_elem_of_singleton in Hin as ->.
    rewrite alreadyCovered_false in Hc. by apply Hc.
  - rewrite Hother in Hin by done. by eapply Hinv.
Qed.

Lemma notify_NoDup d s h :
  (forall d', NoDup (referencedSetOf h d')) ->
  forall d', NoDup (referencedSetOf (fst (_notifyReferencedAstSymbol d s h)) d').
Proof.
  intros Hinv d'. destruct (notify_sets d s h) as [[-> _]|(_ & Hc & Hd & Hother)]; [done|].
  destruct (decide (d' = d)) as [->|Hne]; [|by rewrite Hother].
  rewrite Hd. apply NoDup_app. split; [done|]. split; [|apply NoDup_singleton].
  intros x Hx Hx'. apply list_elem_of_singleton in Hx' as ->.
  rewrite alreadyCovered_false in Hc.
  destruct (Hc d) as [Hnot _]; [rewrite selfAndAncestors_unfold; left|]. done.
Qed.

Lemma notify_minimal d s h :
  minimal h ->
  (forall d', d ∈ ancestors d' -> s ∉ referencedSetOf h d') ->
  minimal (fst (_notifyReferencedAstSymbol d s h)).
Proof.
  intros Hinv Hbelow.
  destruct (notify_sets d s h) as [[-> _]|(_ & Hc & Hd & Hother)]; [done|].
  rewrite alreadyCovered_false in Hc.
  intros d1 s1 a Hin Ha. destruct (decide (d1 = d)) as [->|Hne].
  - assert (a <> d) by (intros ->; by apply not_own_ancestor in Ha).
    rewrite Hother by done.
    rewrite Hd in Hin. apply elem_of_app in Hin as [Hin|Hin]; [by eapply Hinv|].
    apply list_elem_of_singleton in Hin as ->.
    apply Hc. rewrite selfAndAncestors_unfold. by right.
  - rewrite Hother in Hin by done. destruct (decide (a = d)) as [->|Hne'].
    + rewrite Hd. intros Hin'. apply elem_of_app in Hin' as [Hin'|Hin'].
      * exact (Hinv d1 s1 d Hin Ha Hin').
      * apply list_elem_of_singleton in Hin' as ->. exact (Hbelow d1 Ha Hin).
    + rewrite Hother by done. by eapply Hinv.
Qed.

(** C4, as the claim states it, fails: a nested declaration records a
    symbol, then its parent records the same symbol; after the analysis
    both referenced sets hold it. *)
Lemma reference_edge_minimality_counterexample :
  let h := markAnalyzed 2%positive (markAnalyzed 1%positive
             (notifyAll [(nested2, 7%positive); (root1, 7%positive)] emptyHeap)) in
  root1 ∈ ancestors nested2
  /\ 7%positive ∈ referencedAstSymbols h nested2
  /\ 7%positive ∈ referencedAstSymbols h root1.
Proof.
  cbv zeta. split; [|split].
  - apply list_elem_of_here.
  - apply list_elem_of_In. vm_compute. auto.
  - apply list_elem_of_In. vm_compute. auto.
Qed.

(** C4, amended.  In every state reached by recording references, starting
    with empty referenced sets: no referenced set holds the symbol of its
    declaration or of one of its ancestors; no set holds a symbol twice,
    and recording a symbol that the set of the declaration already holds
    changes nothing; a symbol enters the set of a declaration only when
    the set of none of its ancestors holds it at that moment; and the
    sets stay disjoint from those of the ancestors for as long as no
    declaration records a symbol that one of its descendants holds. *)
Theorem reference_edges_at_insertion (calls : list (AstDeclaration * AstSymbol)) (h0 : Heap) :
  (forall d, referencedSetOf h0 d = []) ->
  let h := notifyAll calls h0 in
  noAncestorSymbol h
  /\ (forall d, NoDup (referencedSetOf h d))
  /\ (forall d s, s ∈ referencedSetOf h d -> fst (_notifyReferencedAstSymbol d s h) = h)
  /\ (forall d s a,
         s ∉ referencedSetOf h d ->
         s ∈ referencedSetOf (fst (_notifyReferencedAstSymbol d s h)) d ->
         a ∈ ancestors d -> s ∉ referencedSetOf h a)
  /\ (forall d s,
         minimal h ->
         (forall d', d ∈ ancestors d' -> s ∉ referencedSetOf h d') ->
         minimal (fst (_notifyReferencedAstSymbol d s h))).
Proof.
  intros Hempty h.
  assert (Hinv : noAncestorSymbol h /\ forall d, NoDup (referencedSetOf h d)).
  { subst h. assert (H0 : noAncestorSymbol h0 /\ forall d, NoDup (referencedSetOf h0 d)).
    { split.
      - intros d s a Hin. rewrite Hempty in Hin. by apply elem_of_nil in Hin.
      - intros d. rewrite Hempty. apply NoDup_nil_2. }
    clear Hempty. revert h0 H0.
    induction calls as [|[d s] calls IH]; intros h0 [H1 H2]; [done|].
    simpl. apply IH. split; [by apply notify_noAncestorSymbol|by apply notify_NoDup]. }
  destruct Hinv as [Hsym Hdup]. split; [done|]. split; [done|]. split; [|split].
  - intros d s Hin.
    destruct (notify_sets d s h) as [[-> _]|(_ & Hc & _)]; [done|].
    rewrite alreadyCovered_false in Hc.
    destruct (Hc d) as [Hnot _]; [rewrite selfAndAncestors_unfold; left|]. done.
  - intros d s a Hnot Hin Ha.
    destruct (notify_sets d s h) as [[E _]|(_ & Hc & _)]; [by rewrite E in Hin|].
    rewrite alreadyCovered_false in Hc.
    apply Hc. rewrite selfAndAncestors_unfold. by right.
  - intros d s. apply notify_minimal.
Qed.

Lemma reference_edges_at_insertion_witness :
  noAncestorSymbol (notifyAll [(nested2, 7%positive); (root1, 7%positive)] emptyHeap)
  /\ fst (_notifyReferencedAstSymbol nested2 7%positive
            (notifyAll [(nested2, 7%positive)] emptyHeap))
     = notifyAll [(nested2, 7%positive)] emptyHeap.
Proof.
  assert (Hempty : forall d, referencedSetOf emptyHeap d = []) by reflexivity.
  split.
  - exact (proj1 (reference_edges_at_insertion
                    [(nested2, 7%positive); (root1, 7%positive)] emptyHeap Hempty)).
  - apply (proj1 (proj2 (proj2 (reference_edges_at_insertion
                                  [(nested2, 7%positive)] emptyHeap Hempty)))).
    apply list_elem_of_In. vm_compute. auto.
Defined.

End ReferenceEdges.

(** ** Construction of spans *)

Section SpanConstruction.
Import Span.

Lemma Node_nested_ind (P : Node -> Prop) :
  (forall k s e ch, Forall P ch -> P (mkNode k s e ch)) -> forall n, P n.
Proof.
  intros H. fix IH 1. intros [k s e ch]. apply H.
  induction ch as [|c ch IHch]; constructor; [apply IH|exact IHch].
Qed.

Lemma Span_nested_ind (P : Span -> Prop) :
  (forall n s e ch m ss se, Forall P ch -> P (mkSpan n s e ch m ss se)) -> forall sp, P sp.
Proof.
  intros H. fix IH 1. intros [n s e ch m ss se]. apply H.
  induction ch as [|c ch IHch]; constructor; [apply IH|exact IHch].
Qed.

Lemma replaceLast_snoc {A} (f : A -> option A) (l : list A) (x : A) :
  replaceLast f (l ++ [x]) = (fun y => l ++ [y]) <$> f x.
Proof.
  induction l as [|a l IH]; [reflexivity|].
  change ((a :: l) ++ [x]) with (a :: (l ++ [x])).
  cbn [replaceLast]. rewrite IH. destruct l; simpl; by destruct (f x).
Qed.

Lemma ofLast_snoc {A B} (f : A -> B) (d : B) (l : list A) (x : A) :
  ofLast f d (l ++ [x]) = f x.
Proof.
  induction l as [|a l IH]; [reflexivity|].
  change ((a :: l) ++ [x]) with (a :: (l ++ [x])).
  cbn [ofLast]. rewrite IH. by destruct l.
Qed.

Lemma snoc_view {A} (l : list A) : l = [] \/ exists l' x, l = l' ++ [x].
Proof.
  destruct l as [|a l]; [by left|right].
  destruct (exists_last (l := a :: l)) as (l' & x & E); [done|]. eauto.
Qed.

(** The start of a span: the start of its node, moved back to the start
    of any child span that begins earlier. *)
Fixpoint normalizedStart (n : Node) : nat :=
  fold_left Nat.min (List.map normalizedStart (getChildren n)) (getStart n).

(** No node ends after its parent. *)
Fixpoint bounded (n : Node) : bool :=
  forallb (fun c => bounded c && (end_ c <=? end_ n)) (getChildren n).

(** The bounds of a span match those of a node. *)
Definition extentOf (sp : Span) (n : Node) : Prop :=
  startIndex sp = normalizedStart n /\ endIndex sp = end_ n.

(** What the constructor leaves unset. *)
Definition unseparated (sp : Span) : Prop :=
  _separatorStartIndex sp = 0 /\ _separatorEndIndex sp = 0.

Lemma assignSeparator_fields s e sp :
  node (assignSeparator s e sp) = node sp
  /\ startIndex (assignSeparator s e sp) = startIndex sp
  /\ endIndex (assignSeparator s e sp) = endIndex sp
  /\ modification (assignSeparator s e sp) = modification sp
  /\ length (children (assignSeparator s e sp)) = length (children sp).
Proof.
  destruct sp as [n st en ch m ss se]. cbn [assignSeparator children endIndex].
  destruct (snoc_view ch) as [->|(ch' & lc & ->)]; [done|].
  rewrite replaceLast_snoc. case_bool_decide; [done|]. simpl.
  by rewrite !length_app.
Qed.

Lemma attachChild_cases this c :
  (endIndex this < endIndex c /\ attachChild this c = Error (lit "Unexpected AST case"))
  \/ (endIndex c <= endIndex this
      /\ exists this', attachChild this c = Ok this'
         /\ node this' = node this
         /\ endIndex this' = endIndex this
         /\ startIndex this' = Nat.min (startIndex this) (startIndex c)
         /\ modification this' = modification this
         /\ _separatorStartIndex this' = _separatorStartIndex this
         /\ _separatorEndIndex this' = _separatorEndIndex this
         /\ children this'
            = match last (children this) with
              | Some previous =>
                  if endIndex previous <? startIndex c
                  then removelast (children this)
                       ++ [assignSeparator (endIndex previous) (startIndex c) previous; c]
                  else children this ++ [c]
              | None => children this ++ [c]
              end).
Proof.
  unfold attachChild. destruct this as [n st en ch m ss se]. cbn [children startIndex endIndex set_children].
  assert (Hend : forall b : bool,
             endIndex (if b then set_startIndex (startIndex c) (mkSpan n st en (ch ++ [c]) m ss se)
                       else mkSpan n st en (ch ++ [c]) m ss se) = en)
    by (by intros []).
  rewrite Hend. destruct (Nat.ltb_spec en (endIndex c)) as [Hlt|Hge]; [by left|right].
  split; [done|].
  assert (Hmin : (if startIndex c <? st then startIndex c else st)
                 = Nat.min st (startIndex c))
    by (destruct (Nat.ltb_spec (startIndex c) st); lia).
  destruct (last ch) as [previous|];
    [destruct (endIndex previous <? startIndex c)|];
    eexists; (split; [reflexivity|]);
    destruct (startIndex c <? st) eqn:E; simpl; rewrite <- ?Hmin, ?E; done.
Qed.

Lemma new_unfold n :
  new n = attachEach new (getChildren n) (mkSpan n (getStart n) (end_ n) [] reset 0 0).
Proof. by destruct n. Qed.

(** The loop of the constructor: which spans it builds, and when. *)
Lemma attachEach_fields (cs : list Node) :
  Forall (fun c => forall sp, new c = Ok sp -> extentOf sp c) cs ->
  forall this doneNodes sp,
    Forall2 extentOf (children this) doneNodes ->
    attachEach new cs this = Ok sp ->
    node sp = node this
    /\ endIndex sp = endIndex this
    /\ startIndex sp = fold_left Nat.min (List.map normalizedStart cs) (startIndex this)
    /\ modification sp = modification this
    /\ _separatorStartIndex sp = _separatorStartIndex this
    /\ _separatorEndIndex sp = _separatorEndIndex this
    /\ Forall2 extentOf (children sp) (doneNodes ++ cs).
Proof.
  induction 1 as [|c cs Hc _ IH]; intros this doneNodes sp Hdone Hrun.
  - simpl in Hrun. injection Hrun as <-. by rewrite app_nil_r.
  - cbn [attachEach] in Hrun. destruct (new c) as [csp|] eqn:Ec; [|discriminate].
    specialize (Hc _ eq_refl).
    destruct (attachChild_cases this csp)
      as [[_ E]|(_ & this' & E & Hn & He & Hs & Hm & Hss & Hse & Hch)];
      rewrite E in Hrun; [discriminate|].
    assert (Hdone' : Forall2 extentOf (children this') (doneNodes ++ [c])).
    { rewrite Hch. destruct (snoc_view (children this)) as [E0|(ch0 & previous & E0)];
        rewrite E0 in *.
      - apply Forall2_nil_inv_l in Hdone as ->. simpl. by constructor.
      - rewrite last_snoc, removelast_last.
        destruct (endIndex previous <? startIndex csp).
        + apply Forall2_app_inv_l in Hdone as (d0 & d1 & Hd0 & Hd1 & ->).
          apply Forall2_cons_inv_l in Hd1 as (pn & dnil & Hp & Hnil & ->).
          apply Forall2_nil_inv_l in Hnil as ->.
          rewrite <- app_assoc. apply Forall2_app; [done|].
          destruct (assignSeparator_fields (endIndex previous) (startIndex csp) previous)
            as (_ & Hs' & He' & _).
          constructor; [|constructor; [exact Hc|constructor]].
          unfold extentOf. rewrite Hs', He'. exact Hp.
        + apply Forall2_app; [exact Hdone|]. constructor; [exact Hc|constructor]. }
    destruct (IH this' (doneNodes ++ [c]) sp Hdone' Hrun)
      as (E1 & E2 & E3 & E4 & E5 & E6 & Hall).
    rewrite <- app_assoc in Hall. destruct Hc as [Hcs _].
    rewrite E1, E2, E3, E4, E5, E6, Hn, He, Hs, Hm, Hss, Hse, Hcs. done.
Qed.

Lemma new_fields n :
  forall sp, new n = Ok sp ->
    node sp = n
    /\ extentOf sp n
    /\ modification sp = reset
    /\ unseparated sp
    /\ Forall2 extentOf (children sp) (getChildren n).
Proof.
  induction n as [k s e ch IH] using Node_nested_ind. intros sp Hnew.
  rewrite new_unfold in Hnew. cbn [getChildren getStart end_] in Hnew.
  eapply (attachEach_fields ch) with (doneNodes := []) in Hnew.
  - cbn [node endIndex startIndex modification _separatorStartIndex
         _separatorEndIndex children app] in Hnew.
    destruct Hnew as (E1 & E2 & E3 & E4 & E5 & E6 & Hall).
    unfold extentOf, unseparated. cbn [normalizedStart getChildren getStart end_].
    repeat split; done.
  - eapply Forall_impl; [exact IH|]. intros c Hc csp Hcsp. by apply Hc.
  - constructor.
Qed.

(** The constructor throws exactly when some node of the tree ends after
    its parent. *)
Lemma attachEach_bounded (cs : list Node) :
  Forall (fun c => isError (new c) = negb (bounded c)) cs ->
  forall this,
    isError (attachEach new cs this)
    = negb (forallb (fun c => bounded c && (end_ c <=? endIndex this)) cs).
Proof.
  induction 1 as [|c cs Hc _ IH]; intros this; [reflexivity|].
  cbn [attachEach forallb]. destruct (new c) as [csp|] eqn:Ec; simpl in Hc.
  - apply (f_equal negb) in Hc. rewrite negb_involutive in Hc. simpl in Hc. rewrite <- Hc.
    destruct (new_fields c csp Ec) as (_ & [_ Hend] & _).
    destruct (attachChild_cases this csp)
      as [[Hlt E]|(Hle & this' & E & _ & He & _)]; rewrite E.
    + rewrite Hend in Hlt. simpl.
      destruct (Nat.leb_spec (end_ c) (endIndex this)); [lia|reflexivity].
    + rewrite Hend in Hle. rewrite IH, He. simpl.
      destruct (Nat.leb_spec (end_ c) (endIndex this)); [reflexivity|lia].
  - apply (f_equal negb) in Hc. rewrite negb_involutive in Hc. simpl in Hc.
    by rewrite <- Hc.
Qed.

Lemma new_bounded n : isError (new n) = negb (bounded n).
Proof.
  induction n as [k s e ch IH] using Node_nested_ind.
  rewrite new_unfold. cbn [getChildren getStart end_ bounded].
  by rewrite attachEach_bounded.
Qed.

Lemma new_message n message : new n = Error message -> message = lit "Unexpected AST case".
Proof.
  revert message. induction n as [k s e ch IH] using Node_nested_ind. intros message.
  rewrite new_unfold. cbn [getChildren getStart end_].
  generalize (mkSpan (mkNode k s e ch) s e [] reset 0 0).
  induction IH as [|c cs Hc _ IHcs]; intros this; [discriminate|].
  cbn [attachEach]. destruct (new c) as [csp|m] eqn:Ec.
  - destruct (attachChild_cases this csp) as [[_ E]|(_ & this' & E & _)]; rewrite E.
    + by intros [= <-].
    + apply IHcs.
  - intros [= <-]. by apply Hc.
Qed.

Lemma fold_left_min_le (l : list nat) (a : nat) :
  fold_left Nat.min l a <= a /\ Forall (fun x => fold_left Nat.min l a <= x) l.
Proof.
  revert a. induction l as [|x l IH]; intros a; simpl; [split; [lia|constructor]|].
  destruct (IH (Nat.min a x)) as [H1 H2]. split; [lia|].
  constructor; [lia|exact H2].
Qed.

(** The children of a constructed span lie within it. *)
Lemma new_children_within n sp :
  new n = Ok sp ->
  startIndex sp <= getStart n
  /\ Forall (fun c => startIndex sp <= startIndex c /\ endIndex c <= endIndex sp)
            (children sp).
Proof.
  intros E. pose proof (new_bounded n) as Hb. rewrite E in Hb. simpl in Hb.
  symmetry in Hb. apply negb_false_iff in Hb.
  destruct (new_fields n sp E) as (_ & [Hs Hend] & _ & _ & Hall).
  destruct n as [k s e ch]. cbn [normalizedStart getChildren getStart end_] in *.
  destruct (fold_left_min_le (List.map normalizedStart ch) s) as [Hle Hmin].
  split; [lia|].
  cbn [bounded getChildren end_] in Hb. rewrite forallb_forall in Hb.
  rewrite Forall_forall. intros csp Hcsp.
  apply list_elem_of_lookup in Hcsp as [i Hi].
  destruct (Forall2_lookup_l _ _ _ _ _ Hall Hi) as (cn & Hcn & [Hcs Hce]).
  rewrite Hcs, Hce, Hs, Hend. split.
  - rewrite Forall_forall in Hmin. apply Hmin.
    apply list_elem_of_In, in_map, list_elem_of_In. by eapply list_elem_of_lookup_2.
  - assert (Hin : In cn ch) by (apply list_elem_of_In; by eapply list_elem_of_lookup_2).
    specialize (Hb _ Hin). apply andb_true_iff in Hb as [_ Hle']. by apply Nat.leb_le.
Qed.

(** C9.  The constructor throws [Unexpected AST case] when a child span
    ends after the end of its parent; a child span that starts before the
    start of its parent is accepted, whatever its start, and the start of
    the parent is moved back to cover it. *)
Theorem Span_new_bound_check (n : Node) :
  (forall c childSpan,
      c ∈ getChildren n -> new c = Ok childSpan -> end_ n < endIndex childSpan ->
      new n = Error (lit "Unexpected AST case"))
  /\ (bounded n = true ->
      exists sp, new n = Ok sp
        /\ endIndex sp = end_ n
        /\ startIndex sp = normalizedStart n
        /\ startIndex sp <= getStart n
        /\ Forall (fun c => startIndex sp <= startIndex c /\ endIndex c <= endIndex sp)
                  (children sp)).
Proof.
  split.
  - intros c csp Hin Hc Hlt.
    destruct (new_fields c csp Hc) as (_ & [_ Hend] & _). rewrite Hend in Hlt.
    assert (Hb : bounded n = false).
    { destruct n as [k s e ch]. cbn [bounded getChildren end_] in *.
      apply not_true_is_false. rewrite forallb_forall. intros Hall.
      apply list_elem_of_In in Hin. specialize (Hall _ Hin).
      apply andb_true_iff in Hall as [_ Hle]. apply Nat.leb_le in Hle. lia. }
    pose proof (new_bounded n) as He. rewrite Hb in He.
    destruct (new n) as [|message] eqn:E; [discriminate|].
    by rewrite (new_message n message E).
  - intros Hb. pose proof (new_bounded n) as He. rewrite Hb in He.
    destruct (new n) as [sp|] eqn:E; [|discriminate]. exists sp. split; [done|].
    destruct (new_fields n sp E) as (_ & [Hs Hend] & _).
    destruct (new_children_within n sp E) as [Hle Hall]. done.
Qed.

Definition comment_before_function : Node :=
  mkNode (OtherKind 0) 4 9 [mkNode JSDocComment 0 3 []; mkNode Identifier 4 9 []].

Definition child_past_parent : Node :=
  mkNode (OtherKind 0) 0 4 [mkNode Identifier 0 5 []].

Lemma Span_new_bound_check_witness :
  (exists sp, new comment_before_function = Ok sp /\ startIndex sp = 0)
  /\ new child_past_parent = Error (lit "Unexpected AST case").
Proof.
  split.
  - destruct (proj2 (Span_new_bound_check comment_before_function) eq_refl)
      as (sp & E & _ & Hs & _).
    exists sp. split; [exact E|exact Hs].
  - apply (proj1 (Span_new_bound_check child_past_parent)
             (mkNode Identifier 0 5 []) (mkSpan (mkNode Identifier 0 5 []) 0 5 [] reset 0 0)).
    + apply list_elem_of_here.
    + reflexivity.
    + simpl. lia.
Defined.

End SpanConstruction.

(** ** The text of a constructed span *)

Section SpanText.
Import Span.

Variable text : jsstring.

Lemma _getSubstring_substring a b : _getSubstring text a b = substring text a b.
Proof.
  unfold _getSubstring, substring. destruct (Nat.eqb_spec a b) as [->|]; [|done].
  by rewrite Nat.min_id, Nat.max_id, Nat.sub_diag.
Qed.

Lemma substring_same a : substring text a a = [].
Proof. unfold substring. by rewrite Nat.min_id, Nat.max_id, Nat.sub_diag. Qed.

Lemma take_take_drop {A} (l : list A) n m :
  take n l ++ take m (drop n l) = take (n + m) l.
Proof.
  revert l. induction n as [|n IH]; intros l; [done|].
  destruct l as [|x l]; [by destruct m|]. simpl. by rewrite IH.
Qed.

Lemma substring_app a b c :
  a <= b -> b <= c -> substring text a b ++ substring text b c = substring text a c.
Proof.
  intros Hab Hbc. unfold substring.
  rewrite !Nat.min_l, !Nat.max_r by lia.
  replace (drop b text) with (drop (b - a) (drop a text))
    by (rewrite drop_drop; f_equal; lia).
  rewrite take_take_drop. f_equal. lia.
Qed.

Lemma getText_unfold sp :
  getText text sp
  = prefix text sp ++ concat (List.map (getText text) (children sp))
    ++ suffix text sp ++ separator text sp.
Proof. by destruct sp. Qed.

(** A span that has no separator yet, and neither has any span on its
    last-child chain as far as the chain crosses no suffix: where the
    constructor may still put a separator. *)
Inductive chainOk : Span -> Prop :=
| chainOk_intro sp :
    _separatorStartIndex sp = _separatorEndIndex sp ->
    (forall lastChild, last (children sp) = Some lastChild ->
                       endIndex lastChild = endIndex sp -> chainOk lastChild) ->
    chainOk sp.

Lemma chainOk_separator sp : chainOk sp -> separator text sp = [].
Proof.
  intros [sp' Hs _]. unfold separator. rewrite Hs, _getSubstring_substring.
  apply substring_same.
Qed.

Definition firstStart (ch : list Span) : option nat := startIndex <$> head ch.

Lemma firstStart_snoc ch x y :
  startIndex x = startIndex y -> firstStart (ch ++ [x]) = firstStart (ch ++ [y]).
Proof. intros H. destruct ch; unfold firstStart; simpl; [by rewrite H|done]. Qed.

Lemma firstStart_app ch x l : firstStart ((ch ++ [x]) ++ l) = firstStart (ch ++ [x]).
Proof. by destruct ch. Qed.

Lemma prefix_set_children sp ch :
  firstStart ch = firstStart (children sp) -> length ch = length (children sp) ->
  prefix text (set_children ch sp) = prefix text sp.
Proof.
  destruct sp as [n st en ch' m ss se]. unfold prefix. simpl.
  destruct ch, ch'; simpl; try done. by intros [= ->].
Qed.

(** The separator the constructor assigns is appended to the text of the
    recipient. *)
Lemma getText_assignSeparator s e sp :
  chainOk sp ->
  getText text (assignSeparator s e sp) = getText text sp ++ substring text s e.
Proof.
  induction sp as [n st en ch m ss se IH] using Span_nested_ind. intros Hok.
  pose proof (chainOk_separator _ Hok) as Hsep. inversion Hok as [sp' Hs Hlast]; subst sp'.
  assert (Hset : getText text (set_separator s e (mkSpan n st en ch m ss se))
                 = getText text (mkSpan n st en ch m ss se) ++ substring text s e).
  { rewrite !getText_unfold, Hsep. unfold set_separator, separator, prefix, suffix.
    cbn [children startIndex endIndex _separatorStartIndex _separatorEndIndex node modification].
    rewrite (_getSubstring_substring s e), app_nil_r. by rewrite <- !app_assoc. }
  cbn [assignSeparator children endIndex].
  destruct (snoc_view ch) as [->|(ch0 & lc & ->)]; [exact Hset|].
  rewrite replaceLast_snoc. case_bool_decide as Hend; [exact Hset|].
  cbn [fmap option_fmap option_map].
  apply Forall_app in IH as [_ IHlc]. apply Forall_inv in IHlc.
  cbn [children endIndex] in Hlast.
  specialize (Hlast lc (last_snoc _ _) Hend). specialize (IHlc Hlast).
  destruct (assignSeparator_fields s e lc) as (_ & Hst & Hen & _).
  rewrite (getText_unfold (set_children _ _)), (getText_unfold (mkSpan _ _ _ _ _ _ _)).
  rewrite prefix_set_children;
    [|cbn [children]; by apply firstStart_snoc|cbn [children]; by rewrite !length_app].
  unfold suffix, separator, set_children.
  cbn [children startIndex endIndex _separatorStartIndex _separatorEndIndex].
  rewrite !last_snoc, Hen, Hend, !map_app, !concat_app. cbn [List.map concat].
  cbn [_separatorStartIndex _separatorEndIndex] in Hs.
  rewrite IHlc, Hs, !_getSubstring_substring, !substring_same, !app_nil_r.
  by rewrite <- !app_assoc.
Qed.

(** The children of a span under construction cover the source text from
    the start of the first to the end of the last, and the last can
    still receive a separator. *)
Definition covered (ch : list Span) : Prop :=
  match last ch with
  | None => True
  | Some lastChild =>
      chainOk lastChild
      /\ exists a, firstStart ch = Some a
                   /\ a <= endIndex lastChild
                   /\ concat (List.map (getText text) ch) = substring text a (endIndex lastChild)
  end.

(** The text of a span is the source text of its extent, and an enclosing
    constructor can give it a separator. *)
Definition textOk (sp : Span) : Prop :=
  getText text sp = substring text (startIndex sp) (endIndex sp)
  /\ startIndex sp <= endIndex sp
  /\ chainOk sp.

Definition extent (c : Node) : nat * nat := (normalizedStart c, end_ c).

(** Neighbouring extents do not overlap and follow the source order. *)
Fixpoint inOrder (extents : list (nat * nat)) : bool :=
  match extents with
  | [] => true
  | x :: rest =>
      match rest with
      | [] => true
      | y :: _ => (snd x <=? fst y) && inOrder rest
      end
  end.

(** The shape of the syntax trees the parser produces: a node does not
    end before it starts, its children lie in source order without
    overlapping, and none ends after the node. *)
Fixpoint wellFormed (n : Node) : bool :=
  (getStart n <=? end_ n)
  && forallb (fun c => wellFormed c && (end_ c <=? end_ n)) (getChildren n)
  && inOrder (List.map extent (getChildren n)).

Definition lastExtent (ch : list Span) : list (nat * nat) :=
  match last ch with
  | Some lastChild => [(startIndex lastChild, endIndex lastChild)]
  | None => []
  end.

Lemma concat_map_snoc (l : list Span) (x : Span) :
  concat (List.map (getText text) (l ++ [x]))
  = concat (List.map (getText text) l) ++ getText text x.
Proof. rewrite map_app, concat_app. simpl. by rewrite app_nil_r. Qed.

Lemma last_snoc2 {A} (l : list A) (x y : A) : last (l ++ [x; y]) = Some y.
Proof. change [x; y] with ([x] ++ [y]). rewrite app_assoc. apply last_snoc. Qed.

Lemma inOrder_tail x l : inOrder (x :: l) = true -> inOrder l = true.
Proof. destruct l as [|y l]; [done|]. simpl. by intros [_ H]%andb_true_iff. Qed.

Lemma prefix_firstStart sp a :
  firstStart (children sp) = Some a ->
  prefix text sp = substring text (startIndex sp) a.
Proof.
  unfold prefix, firstStart. destruct (children sp); [done|]. simpl.
  intros [= <-]. apply _getSubstring_substring.
Qed.

(** The loop of the constructor keeps the children covering the text. *)
Lemma attachEach_text (cs : list Node) :
  Forall (fun c => wellFormed c = true -> exists csp, new c = Ok csp /\ textOk csp) cs ->
  forall this,
    forallb (fun c => wellFormed c && (end_ c <=? endIndex this)) cs = true ->
    covered (children this) ->
    inOrder (lastExtent (children this) ++ List.map extent cs) = true ->
    exists sp, attachEach new cs this = Ok sp /\ covered (children sp).
Proof.
  induction 1 as [|c cs Hc _ IH]; intros this Hwf Hcov Hord; [by exists this|].
  cbn [forallb] in Hwf. apply andb_true_iff in Hwf as [Hwfc Hwf].
  apply andb_true_iff in Hwfc as [Hwfc Hend]. apply Nat.leb_le in Hend.
  destruct (Hc Hwfc) as (csp & Ec & Htext & Hle & Hchain).
  destruct (new_fields c csp Ec) as (_ & [Hcs Hce] & _).
  cbn [attachEach]. rewrite Ec.
  destruct (attachChild_cases this csp)
    as [[Hlt _]|(_ & this' & E & _ & He & _ & _ & _ & _ & Hch)]; [lia|].
  rewrite E.
  assert (Hlast : last (children this') = Some csp).
  { rewrite Hch. destruct (last (children this)) as [previous|];
      [destruct (endIndex previous <? startIndex csp)|];
      [apply last_snoc2|apply last_snoc..]. }
  apply IH.
  - by rewrite He.
  - unfold covered. rewrite Hlast. split; [exact Hchain|].
    rewrite Hch. unfold covered in Hcov.
    destruct (snoc_view (children this)) as [E0|(ch0 & previous & E0)]; rewrite E0 in *.
    + exists (startIndex csp). simpl. rewrite app_nil_r. done.
    + rewrite last_snoc in Hcov. destruct Hcov as (Hpchain & a & Ha & Hale & Hcat).
      unfold lastExtent in Hord. rewrite last_snoc in Hord.
      cbn [app List.map inOrder] in Hord. apply andb_true_iff in Hord as [Hord _].
      apply Nat.leb_le in Hord. unfold extent in Hord. cbn [fst snd] in Hord.
      rewrite last_snoc, removelast_last. exists a.
      destruct (Nat.ltb_spec (endIndex previous) (startIndex csp)) as [Hgap|Hnogap].
      * destruct (assignSeparator_fields (endIndex previous) (startIndex csp) previous)
          as (_ & Hps & _).
        change [assignSeparator (endIndex previous) (startIndex csp) previous; csp]
          with ([assignSeparator (endIndex previous) (startIndex csp) previous] ++ [csp]).
        rewrite app_assoc, firstStart_app, (firstStart_snoc _ _ previous Hps).
        split; [exact Ha|]. split; [lia|].
        rewrite !concat_map_snoc, getText_assignSeparator by exact Hpchain.
        rewrite concat_map_snoc in Hcat. rewrite app_assoc, Hcat, Htext.
        rewrite substring_app by lia. apply substring_app; lia.
      * rewrite firstStart_app. split; [exact Ha|]. split; [lia|].
        rewrite concat_map_snoc, Hcat, Htext.
        replace (startIndex csp) with (endIndex previous) by lia.
        apply substring_app; lia.
  - unfold lastExtent. rewrite Hlast, Hcs, Hce.
    unfold lastExtent in Hord. destruct (last (children this)); [|exact Hord].
    by apply inOrder_tail in Hord.
Qed.

(** Over a well-formed tree the constructor succeeds, and the text of the
    span it builds is the source text of its extent. *)
Lemma new_text n : wellFormed n = true -> exists sp, new n = Ok sp /\ textOk sp.
Proof.
  induction n as [k s e ch IH] using Node_nested_ind. intros Hwf.
  cbn [wellFormed getStart end_ getChildren] in Hwf.
  apply andb_true_iff in Hwf as [Hwf Hord]. apply andb_true_iff in Hwf as [Hse Hwf].
  apply Nat.leb_le in Hse.
  destruct (attachEach_text ch IH (mkSpan (mkNode k s e ch) s e [] reset 0 0))
    as (sp & Hrun & Hcov); [exact Hwf|exact I|exact Hord|].
  change (new (mkNode k s e ch) = Ok sp) in Hrun. exists sp. split; [exact Hrun|].
  destruct (new_fields _ sp Hrun) as (_ & [Hs He] & _ & [Hss Hsep] & Hall).
  destruct (new_children_within _ sp Hrun) as [Hstart Hwithin].
  cbn [getStart end_ getChildren] in *.
  assert (Hseparator : separator text sp = []).
  { unfold separator. by rewrite Hss, Hsep, _getSubstring_substring, substring_same. }
  assert (Hchain : chainOk sp).
  { constructor; [by rewrite Hss, Hsep|]. intros lastChild Hlast _.
    unfold covered in Hcov. rewrite Hlast in Hcov. apply Hcov. }
  unfold textOk. rewrite getText_unfold, Hseparator, app_nil_r.
  unfold covered in Hcov. unfold suffix.
  destruct (snoc_view (children sp)) as [E0|(ch0 & lc & E0)].
  - rewrite E0 in Hall. apply Forall2_nil_inv_l in Hall as ->.
    cbn [normalizedStart getChildren List.map fold_left getStart] in Hs.
    unfold prefix. rewrite E0. simpl. rewrite app_nil_r, _getSubstring_substring.
    split; [|split]; [reflexivity|lia|exact Hchain].
  - rewrite E0, last_snoc in Hcov. destruct Hcov as (_ & a & Ha & Hale & Hcat).
    rewrite <- E0 in Ha, Hcat. rewrite (prefix_firstStart sp a Ha), Hcat.
    assert (Hlc : lc ∈ children sp) by (rewrite E0; set_solver).
    assert (Hfirst : startIndex sp <= a).
    { unfold firstStart in Ha. destruct (children sp) as [|first rest] eqn:Ech; [done|].
      injection Ha as <-. apply Forall_inv in Hwithin. lia. }
    rewrite Forall_forall in Hwithin. destruct (Hwithin lc Hlc) as [_ Hlce].
    rewrite E0, last_snoc, _getSubstring_substring.
    rewrite (substring_app a) by lia. rewrite substring_app by lia.
    split; [|split]; [reflexivity|lia|exact Hchain].
Qed.

(** C1.  The text of a span is its prefix, the texts of its children in
    order, its suffix and its separator; and the text of the root span
    constructed over a syntax tree as the parser produces it (children in
    source order, within their parent) is the source text over the extent
    of the span, character for character: the text of the node when no
    child starts before it. *)
Theorem Span_getText_roundtrip (n : Node) :
  (forall sp,
      getText text sp
      = prefix text sp ++ concat (List.map (getText text) (children sp))
        ++ suffix text sp ++ separator text sp)
  /\ (wellFormed n = true ->
      exists root,
        new n = Ok root
        /\ startIndex root = normalizedStart n
        /\ endIndex root = end_ n
        /\ getText text root = substring text (startIndex root) (endIndex root)
        /\ (normalizedStart n = getStart n ->
            getText text root = substring text (getStart n) (end_ n))).
Proof.
  split; [apply getText_unfold|]. intros Hwf.
  destruct (new_text n Hwf) as (root & Hnew & Htext & _).
  destruct (new_fields n root Hnew) as (_ & [Hs He] & _).
  exists root. repeat split; try done.
  intros Hn. by rewrite Htext, Hs, He, Hn.
Qed.

End SpanText.

Definition two_statements : Span.Node :=
  Span.mkNode (Span.OtherKind 0) 0 7
    [Span.mkNode Span.Identifier 0 1 [];
     Span.mkNode (Span.OtherKind 1) 3 7
       [Span.mkNode Span.Identifier 3 4 []; Span.mkNode Span.Identifier 6 7 []]].

Lemma Span_getText_roundtrip_witness :
  exists root,
    Span.new two_statements = Ok root
    /\ Span.getText (lit "a  b  c") root = lit "a  b  c".
Proof.
  destruct (proj2 (Span_getText_roundtrip (lit "a  b  c") two_statements) eq_refl)
    as (root & Hnew & _ & _ & _ & Htext).
  exists root. split; [exact Hnew|]. exact (Htext eq_refl).
Defined.

(** Without the source order of the children the text is not reproduced:
    two children in reverse order are both written again by the prefix
    and the suffix. *)
Definition reversed_children : Span.Node :=
  Span.mkNode (Span.OtherKind 0) 0 4
    [Span.mkNode Span.Identifier 2 4 []; Span.mkNode Span.Identifier 0 2 []].

Example reversed_children_repeat_text :
  exists root,
    Span.new reversed_children = Ok root
    /\ Span.getText (lit "abcd") root = lit "abcdabcd".
Proof. eexists. split; reflexivity. Qed.

(** ** The order of [Sort.sortBy] *)

Section SortOrder.
Import Sort.


Lemma compareStrings_eq a b : compareStrings a b = Eq -> a = b.
Proof.
  revert b. induction a as [|x a IH]; intros [|y b]; simpl; try done.
  destruct (N.compare_spec x y) as [->| |]; try done. intros H. f_equal. by apply IH.
Qed.






Context {T : Type} (key : T -> option jsstring).












End SortOrder.

(** ** Emission of the modified text *)

Section SpanEmission.
Import Span.

Variable text : jsstring.

Definition spanKey (c : Span) : option jsstring := sortKey (modification c).

(** What [_writeModifiedText] appends after the suffix. *)
Definition trailingSeparator (sp : Span) (separatorOverride : option jsstring) : jsstring :=
  if truthy_opt separatorOverride then
    if truthy (separator text sp) || (length (children sp) =? 0)
    then default [] separatorOverride else []
  else if omitSeparatorAfter (modification sp) then [] else separator text sp.

Lemma ofLast_last {A B} (f : A -> B) (d : B) (l : list A) :
  ofLast f d l = from_option f d (last l).
Proof.
  destruct (snoc_view l) as [->|(l' & x & ->)]; [done|].
  by rewrite ofLast_snoc, last_snoc.
Qed.

Lemma getLastInnerSeparator_unfold sp :
  getLastInnerSeparator text sp
  = if truthy (separator text sp) then separator text sp
    else from_option (getLastInnerSeparator text) [] (last (children sp)).
Proof. destruct sp. cbn [getLastInnerSeparator]. by rewrite ofLast_last. Qed.

Lemma sortBy_paired {B} (f : Span -> B) (l : list Span) :
  Sort.sortBy (fun x : Span * B => spanKey (fst x)) (List.map (fun c => (c, f c)) l)
  = List.map (fun c => (c, f c)) (Sort.sortBy spanKey l).
Proof.
  induction l as [|x l IH]; [done|]. cbn [List.map Sort.sortBy foldr].
  fold (Sort.sortBy (fun x : Span * B => spanKey (fst x)) (List.map (fun c => (c, f c)) l)).
  fold (Sort.sortBy spanKey l). rewrite IH. generalize (Sort.sortBy spanKey l).
  intros s. induction s as [|y s IHs]; [done|]. cbn [List.map Sort.insertBy fst].
  destruct (Sort.keyLe (spanKey x) (spanKey y)); [done|].
  cbn [List.map]. by rewrite IHs.
Qed.

Lemma imap_map {A B C} (g : nat -> B -> C) (h : A -> B) (l : list A) :
  imap g (List.map h l) = imap (fun i x => g i (h x)) l.
Proof.
  revert g. induction l as [|x l IH]; intros g; [done|]. simpl. by rewrite IH.
Qed.

(** [_writeModifiedText] in terms of the texts of the children. *)
Lemma _writeModifiedText_unfold sp separatorOverride :
  _writeModifiedText text sp separatorOverride
  = modification_prefix text sp
    ++ (if omitChildren (modification sp) then []
        else if sortChildren (modification sp) && (1 <? length (children sp)) then
          concat (imap (fun i sortedChild =>
                          _writeModifiedText text sortedChild
                            (Some (if i <? length (children sp) - 1
                                   then from_option (getLastInnerSeparator text) []
                                          (head (children sp))
                                   else from_option (getLastInnerSeparator text) []
                                          (last (children sp)))))
                       (Sort.sortBy spanKey (children sp)))
        else if truthy_opt separatorOverride then
          concat (imap (fun i child =>
                          if (i <? length (children sp) - 1) || truthy (separator text sp)
                          then _writeModifiedText text child None
                          else _writeModifiedText text child separatorOverride)
                       (children sp))
        else concat (List.map (fun child => _writeModifiedText text child separatorOverride)
                       (children sp)))
    ++ modification_suffix text sp
    ++ trailingSeparator sp separatorOverride.
Proof.
  destruct sp as [n st en ch m ss se]. cbn [_writeModifiedText children modification].
  f_equal. f_equal.
  destruct (omitChildren m); [done|].
  destruct (sortChildren m && (1 <? length ch)).
  - change (fun x : Span * (option jsstring -> jsstring) => sortKey (modification (fst x)))
      with (fun x : Span * (option jsstring -> jsstring) => spanKey (fst x)).
    rewrite sortBy_paired, imap_map. cbn [snd]. f_equal.
    apply imap_ext. intros i c _. do 2 f_equal.
    destruct (i <? length ch - 1); [by destruct ch|]. by destruct (last ch).
  - destruct (truthy_opt separatorOverride).
    + by rewrite imap_map.
    + by rewrite map_map.
Qed.


End SpanEmission.

(** ** Top-level variable declarations in the review file *)

Section TopLevelVariable.
Import AstDeclaration Span ReviewFileGenerator.

Variable isAstDeclaration : SyntaxKind -> bool.
Variable matchAncestor : Node -> list SyntaxKind -> option Node.
Variable declarations : Node -> list Node.
Variable followAliases : positive -> positive.
Variable getSortKeyIgnoringUnderscore : jsstring -> jsstring.
Variable replaceAll : jsstring -> jsstring -> jsstring -> jsstring.
Variable text : jsstring.
Variable collector : Collector.

Local Abbreviation modifyByKind' :=
  (modifyByKind isAstDeclaration matchAncestor declarations followAliases text collector).
Local Abbreviation prepareChild' :=
  (prepareChild isAstDeclaration getSortKeyIgnoringUnderscore replaceAll text collector).
Local Abbreviation modifyEach' :=
  (modifyEach isAstDeclaration getSortKeyIgnoringUnderscore replaceAll text collector).
Local Abbreviation _modifySpan' :=
  (_modifySpan isAstDeclaration matchAncestor declarations followAliases
     getSortKeyIgnoringUnderscore replaceAll text collector).
Local Abbreviation modifyDeclarationSpan' :=
  (modifyDeclarationSpan isAstDeclaration matchAncestor declarations followAliases
     getSortKeyIgnoringUnderscore replaceAll text collector).

Lemma prepareChild_unsorted m child d d' m' cm :
  prepareChild' false m child d = Ok (d', m', cm) -> m' = m.
Proof.
  unfold prepareChild. destruct (isAstDeclaration (kind (node child))).
  - destruct (getChildAstDeclarationByNode collector (node child) d); [|discriminate].
    by intros [= _ <- _].
  - by intros [= _ <- _].
Qed.

(** While [sortChildren] is false the loop over the children leaves the
    modification of the span alone. *)
Lemma modifyEach_unsorted modify d span rest :
  forall done m span',
    modifyEach' modify false d span rest done m = Ok span' ->
    modification span' = m.
Proof.
  induction rest as [|child rest IH]; intros done m span'; cbn [modifyEach].
  - by intros [= <-].
  - destruct (prepareChild' false m child d) as [[[d' m'] cm]|] eqn:E; [|discriminate].
    apply prepareChild_unsorted in E as ->.
    destruct (modify child cm d'); [|discriminate]. apply IH.
Qed.

Lemma _modifySpan_unfold parentKind span m d :
  _modifySpan' parentKind span m d
  = match modifyByKind' parentKind span m with
    | Error e => Error e
    | Ok (m, recurseChildren, sortChildren) =>
        if recurseChildren then
          modifyEach' (_modifySpan' (Some (kind (node span)))) sortChildren d
            span (Span.children span) [] m
        else Ok (set_modification m span)
    end.
Proof. by destruct span. Qed.

Lemma set_modification_same span : set_modification (modification span) span = span.
Proof. by destruct span. Qed.

(** C6.  For a [VariableDeclaration] span without parent, inside a
    declaration list, [_modifySpan] sets the prefix to [declare ], then
    the text from the start of the list to the start of its first
    declaration, then the prefix the span had; and the suffix to [;].
    This is the modification after the [switch], before any child is
    visited, and that of the span [_modifySpan] returns, whatever the
    source text is. *)
Theorem top_level_variable_declaration
    (span : Span) (astDeclaration : AstDeclaration)
    (declarationList first : Node) (others : list Node) :
  kind (node span) = VariableDeclaration ->
  matchAncestor (node span) [VariableDeclarationList; VariableDeclaration]
  = Some declarationList ->
  declarations declarationList = first :: others ->
  let listPrefix := substring text (getStart declarationList) (getStart first) in
  let m := set_suffix (lit ";")
             (set_prefix (lit "declare " ++ listPrefix ++ modification_prefix text span)
                (modification span)) in
  modifyByKind' None span (modification span) = Ok (m, true, false)
  /\ forall span',
       modifyDeclarationSpan' span astDeclaration = Ok span' ->
       modification span' = m
       /\ modification_prefix text span'
          = lit "declare " ++ listPrefix ++ modification_prefix text span
       /\ modification_suffix text span' = lit ";".
Proof.
  intros Hkind Hlist Hdecl listPrefix m.
  assert (Hswitch : modifyByKind' None span (modification span) = Ok (m, true, false)).
  { unfold modifyByKind. rewrite Hkind, Hlist, Hdecl, set_modification_same. done. }
  split; [exact Hswitch|]. intros span' Hrun.
  unfold modifyDeclarationSpan in Hrun.
  assert (Hm : modification span' = m).
  { rewrite _modifySpan_unfold, Hswitch in Hrun.
    by apply modifyEach_unsorted in Hrun. }
  split; [exact Hm|].
  unfold modification_prefix at 1, modification_suffix. by rewrite Hm.
Qed.

End TopLevelVariable.

(** The declaration [x: number] of [declare const x: number;]. *)
Definition declared_constant_text : jsstring := lit "declare const x: number;".

Definition declared_constant : Span.Node :=
  Span.mkNode Span.VariableDeclaration 14 23
    [Span.mkNode Span.Identifier 14 15 [];
     Span.mkNode (Span.OtherKind 56) 15 16 [];
     Span.mkNode (Span.OtherKind 134) 17 23 []].

Definition declared_constant_list : Span.Node :=
  Span.mkNode Span.VariableDeclarationList 8 23
    [Span.mkNode (Span.OtherKind 76) 8 13 [];
     Span.mkNode Span.SyntaxList 14 23 [declared_constant]].

Definition declared_constant_span : Span.Span :=
  match Span.new declared_constant with
  | Ok span => span
  | Error _ => Span.mkSpan declared_constant 0 0 [] Span.reset 0 0
  end.

Definition no_entities : ReviewFileGenerator.Collector :=
  ReviewFileGenerator.mkCollector
    (fun _ => ReviewFileGenerator.mkDeclarationMetadata None false false false false false)
    (fun _ => ReviewFileGenerator.mkSymbolMetadata ReviewFileGenerator.Public false)
    (fun _ => None) (fun _ => None) (fun _ d => Ok d) (fun _ => []).

Lemma top_level_variable_declaration_witness :
  exists span',
    ReviewFileGenerator.modifyDeclarationSpan
      (fun _ => false) (fun _ _ => Some declared_constant_list)
      (fun _ => [declared_constant]) id id (fun t _ _ => t)
      declared_constant_text no_entities declared_constant_span root1 = Ok span'
    /\ Span.modification_prefix declared_constant_text span' = lit "declare const "
    /\ Span.getModifiedText declared_constant_text span' = declared_constant_text.
Proof.
  eexists. split; [vm_compute; reflexivity|]. split; [|vm_compute; reflexivity].
  refine (proj1 (proj2 (proj2 (top_level_variable_declaration
                   (fun _ => false) (fun _ _ => Some declared_constant_list)
                   (fun _ => [declared_constant]) id id (fun t _ _ => t)
                   declared_constant_text no_entities declared_constant_span root1
                   declared_constant_list declared_constant [] eq_refl eq_refl eq_refl)
                 _ _))).
  vm_compute. reflexivity.
Defined.

(* ===================================================================== *)
(** * Part III. Further properties of the sources                         *)
(* ===================================================================== *)

(** ** Spans without modification *)

Section UnmodifiedSpans.
Import Span.

Variable text : jsstring.

(** A modification that changes nothing in the text written: as [reset]
    leaves it, whatever its [sortKey]. *)
Definition plain (m : SpanModification) : bool :=
  negb (omitChildren m) && negb (omitSeparatorAfter m) && negb (sortChildren m)
  && bool_decide (_prefix m = None) && bool_decide (_suffix m = None).

(** No span of the tree carries a modification. *)
Fixpoint unmodified (sp : Span) : bool :=
  plain (modification sp) && forallb unmodified (children sp).

Lemma plain_fields m :
  plain m = true ->
  omitChildren m = false /\ omitSeparatorAfter m = false /\ sortChildren m = false
  /\ _prefix m = None /\ _suffix m = None.
Proof.
  unfold plain. rewrite !andb_true_iff, !negb_true_iff, !bool_decide_eq_true. tauto.
Qed.

Lemma unmodified_unfold sp :
  unmodified sp = plain (modification sp) && forallb unmodified (children sp).
Proof. by destruct sp. Qed.

Lemma _writeModifiedText_plain sp separatorOverride :
  plain (modification sp) = true ->
  truthy_opt separatorOverride = false ->
  _writeModifiedText text sp separatorOverride
  = prefix text sp
    ++ concat (List.map (fun c => _writeModifiedText text c separatorOverride) (children sp))
    ++ suffix text sp ++ separator text sp.
Proof.
  intros (Ho & Hs & Hc & Hp & Hx)%plain_fields Hov.
  rewrite _writeModifiedText_unfold. unfold trailingSeparator, modification_prefix,
    modification_suffix. by rewrite Ho, Hs, Hc, Hp, Hx, Hov.
Qed.

Lemma writeModifiedText_unmodified sp :
  unmodified sp = true ->
  forall separatorOverride,
    truthy_opt separatorOverride = false ->
    _writeModifiedText text sp separatorOverride = getText text sp.
Proof.
  induction sp as [n st en ch m ss se IH] using Span_nested_ind.
  rewrite unmodified_unfold. cbn [modification children].
  intros [Hplain Hch]%andb_true_iff ov Hov.
  rewrite _writeModifiedText_plain, getText_unfold by done. cbn [children].
  do 3 f_equal. apply map_ext_in. intros c Hc.
  rewrite Forall_forall in IH. rewrite forallb_forall in Hch.
  apply IH; [by apply list_elem_of_In|by apply Hch|done].
Qed.

Lemma assignSeparator_unmodified s e sp :
  unmodified sp = true -> unmodified (assignSeparator s e sp) = true.
Proof.
  induction sp as [n st en ch m ss se IH] using Span_nested_ind.
  rewrite unmodified_unfold. cbn [modification children assignSeparator endIndex].
  intros [Hplain Hch]%andb_true_iff.
  destruct (snoc_view ch) as [->|(ch0 & lc & ->)];
    [by rewrite unmodified_unfold; cbn; rewrite Hplain|].
  rewrite replaceLast_snoc. case_bool_decide.
  - rewrite unmodified_unfold. cbn. by rewrite Hplain, Hch.
  - cbn [fmap option_fmap option_map]. rewrite unmodified_unfold.
    cbn [set_children modification children]. rewrite Hplain. cbn [andb].
    rewrite forallb_app in *. apply andb_true_iff in Hch as [Hch0 Hlc].
    rewrite Hch0. cbn [forallb andb] in *. rewrite andb_true_r in *.
    apply Forall_app in IH as [_ IHlc]. apply Forall_inv in IHlc. by rewrite IHlc.
Qed.

Lemma attachEach_unmodified (cs : list Node) :
  Forall (fun c => forall sp, new c = Ok sp -> unmodified sp = true) cs ->
  forall this sp,
    unmodified this = true ->
    attachEach new cs this = Ok sp ->
    unmodified sp = true.
Proof.
  induction 1 as [|c cs Hc _ IH]; intros this sp Hthis; cbn [attachEach].
  - by intros [= <-].
  - destruct (new c) as [csp|] eqn:Ec; [|discriminate]. specialize (Hc _ eq_refl).
    destruct (attachChild_cases this csp)
      as [[_ E]|(_ & this' & E & _ & _ & _ & Hm & _ & _ & Hch)]; rewrite E; [discriminate|].
    apply IH. rewrite (unmodified_unfold this) in Hthis.
    rewrite (unmodified_unfold this'), Hm.
    apply andb_true_iff in Hthis as [Hplain Hold]. rewrite Hplain. cbn [andb].
    rewrite Hch. destruct (snoc_view (children this)) as [E0|(ch0 & previous & E0)];
      rewrite E0 in *; [by cbn; rewrite Hc|].
    rewrite last_snoc, removelast_last.
    rewrite forallb_app in Hold. apply andb_true_iff in Hold as [Hch0 Hprev].
    cbn [forallb] in Hprev. rewrite andb_true_r in Hprev.
    destruct (endIndex previous <? startIndex csp); rewrite !forallb_app; cbn [forallb].
    + by rewrite Hch0, assignSeparator_unmodified, Hc.
    + by rewrite Hch0, Hprev, Hc.
Qed.

Lemma new_unmodified n : forall sp, new n = Ok sp -> unmodified sp = true.
Proof.
  induction n as [k s e ch IH] using Node_nested_ind. intros sp.
  rewrite new_unfold. by apply attachEach_unmodified.
Qed.

(** X1.  The modified text of a span just constructed is its text: nothing is
    rewritten until a modification is made. *)
Theorem getModifiedText_of_new (n : Node) (root : Span) :
  new n = Ok root ->
  getModifiedText text root = getText text root.
Proof.
  intros Hnew. unfold getModifiedText.
  apply writeModifiedText_unmodified; [by eapply new_unmodified|done].
Qed.

End UnmodifiedSpans.

Lemma getModifiedText_of_new_witness :
  exists root,
    Span.new two_statements = Ok root
    /\ Span.getModifiedText (lit "a  b  c") root = Span.getText (lit "a  b  c") root.
Proof.
  eexists. split; [reflexivity|].
  apply (getModifiedText_of_new (lit "a  b  c") two_statements). reflexivity.
Defined.

(** ** The separator override and [skipAll] *)

Section SeparatorOverride.
Import Span.

Variable text : jsstring.

Lemma truthy_false (s : jsstring) : truthy s = false -> s = [].
Proof. by destruct s. Qed.

Lemma imap_prefix_const {A B} (f : nat -> A -> B) (g : A -> B) (l : list A) :
  (forall i x, l !! i = Some x -> f i x = g x) -> imap f l = List.map g l.
Proof.
  revert f. induction l as [|x l IH]; intros f H; [done|]. simpl.
  rewrite (H 0 x eq_refl). f_equal. apply IH. intros i y Hy. by apply (H (S i)).
Qed.

(** X2.  An active override takes the place of the last inner separator of a
    span without modifications: the text written is the text of the span
    with that separator replaced, and with the override inserted after
    the innermost last leaf when there is no such separator. *)
Theorem override_replaces_last_inner_separator (sp : Span) (override : jsstring) :
  unmodified sp = true ->
  truthy override = true ->
  exists before after,
    getText text sp = before ++ getLastInnerSeparator text sp ++ after
    /\ _writeModifiedText text sp (Some override) = before ++ override ++ after.
Proof.
  intros Hun Hov. induction sp as [n st en ch m ss se IH] using Span_nested_ind.
  rewrite unmodified_unfold in Hun. cbn [modification children] in Hun.
  apply andb_true_iff in Hun as [Hplain Hch].
  destruct (plain_fields _ Hplain) as (Ho & Hs & Hc & Hp & Hx).
  set (sp := mkSpan n st en ch m ss se) in *.
  assert (Ech : children sp = ch) by done.
  assert (Em : modification sp = m) by done.
  clearbody sp. rewrite <- Em in Ho, Hc, Hp, Hx. clear Em.
  assert (Hsiblings : forall l, forallb unmodified l = true ->
             List.map (fun c => _writeModifiedText text c None) l = List.map (getText text) l).
  { intros l Hl. apply map_ext_in. intros c Hin. apply writeModifiedText_unmodified; [|done].
    rewrite forallb_forall in Hl. by apply Hl. }
  rewrite _writeModifiedText_unfold, getLastInnerSeparator_unfold, getText_unfold.
  unfold trailingSeparator, modification_prefix, modification_suffix.
  cbn [truthy_opt default].
  rewrite Ho, Hc, Hp, Hx, Hov, Ech. cbn [andb].
  destruct (truthy (separator text sp)) eqn:Hsep.
  - exists (prefix text sp ++ concat (List.map (getText text) ch) ++ suffix text sp), [].
    rewrite !app_nil_r, <- !app_assoc. split; [done|]. do 2 f_equal.
    f_equal. rewrite <- (Hsiblings ch Hch). apply imap_prefix_const.
    intros i c _. by rewrite orb_true_r.
  - apply truthy_false in Hsep. rewrite Hsep.
    destruct (snoc_view ch) as [->|(ch0 & lc & ->)].
    + exists (prefix text sp), []. unfold suffix. rewrite Ech. cbn. by rewrite !app_nil_r.
    + rewrite forallb_app in Hch. apply andb_true_iff in Hch as [Hch0 Hlc].
      cbn [forallb] in Hlc. rewrite andb_true_r in Hlc.
      apply Forall_app in IH as [_ IHlc]. apply Forall_inv in IHlc.
      destruct (IHlc Hlc) as (before & after & Htext & Hwrite).
      exists (prefix text sp ++ concat (List.map (getText text) ch0) ++ before),
             (after ++ suffix text sp).
      rewrite last_snoc. cbn [from_option]. rewrite concat_map_snoc, Htext.
      split; [by rewrite !app_nil_r, <- !app_assoc|].
      rewrite imap_app, concat_app. cbn [imap concat].
      rewrite length_app, Nat.add_0_r. cbn [length].
      replace (length ch0 + 1 - 1) with (length ch0) by lia.
      rewrite Nat.ltb_irrefl. cbn [orb]. rewrite Hwrite.
      rewrite (imap_prefix_const _ (fun c => _writeModifiedText text c None)).
      * rewrite (Hsiblings ch0 Hch0).
        replace (length ch0 + 1 =? 0) with false by (symmetry; apply Nat.eqb_neq; lia).
        by rewrite !app_nil_r, <- !app_assoc.
      * intros i c Hi. apply lookup_lt_Some in Hi.
        destruct (Nat.ltb_spec i (length ch0)); [done|lia].
Qed.

(** X3.  [skipAll] on one child of a span takes the text of that child, its
    separator included, out of the text written, and nothing else, when
    the span and the other children carry no modification. *)
Theorem skipAll_removes_child (sp child : Span) (before after : list Span) :
  children sp = before ++ child :: after ->
  plain (modification sp) = true ->
  forallb unmodified (before ++ after) = true ->
  let skipped := set_modification (skipAll (modification child)) child in
  getText text sp
  = prefix text sp ++ concat (List.map (getText text) before) ++ getText text child
    ++ concat (List.map (getText text) after) ++ suffix text sp ++ separator text sp
  /\ getModifiedText text (set_children (before ++ skipped :: after) sp)
     = prefix text sp ++ concat (List.map (getText text) before)
       ++ concat (List.map (getText text) after) ++ suffix text sp ++ separator text sp.
Proof.
  intros Hch Hplain Hsiblings skipped. split.
  - rewrite getText_unfold, Hch, map_app, concat_app. cbn [List.map concat].
    by rewrite <- !app_assoc.
  - unfold getModifiedText.
    rewrite forallb_app in Hsiblings. apply andb_true_iff in Hsiblings as [Hb Ha].
    assert (Hwrite : forall l, forallb unmodified l = true ->
               List.map (fun c => _writeModifiedText text c None) l
               = List.map (getText text) l).
    { intros l Hl. apply map_ext_in. intros c Hin.
      apply writeModifiedText_unmodified; [|done].
      rewrite forallb_forall in Hl. by apply Hl. }
    assert (Hskipped : _writeModifiedText text skipped None = []).
    { rewrite _writeModifiedText_unfold. unfold skipped, trailingSeparator,
        modification_prefix, modification_suffix. by destruct child. }
    rewrite _writeModifiedText_plain by (by destruct sp).
    assert (Hprefix : prefix text (set_children (before ++ skipped :: after) sp)
                      = prefix text sp).
    { apply prefix_set_children; rewrite Hch.
      - unfold skipped. destruct before, child; done.
      - by rewrite !length_app. }
    assert (Hsuffix : suffix text (set_children (before ++ skipped :: after) sp)
                      = suffix text sp).
    { unfold suffix. destruct sp as [n st en ch m ss se]. cbn [children set_children endIndex] in *.
      rewrite Hch. destruct (snoc_view after) as [->|(a0 & lastAfter & ->)].
      - rewrite !last_snoc. unfold skipped. by destruct child.
      - by rewrite !app_comm_cons, !app_assoc, !last_snoc. }
    rewrite Hprefix, Hsuffix.
    assert (Hseparator : separator text (set_children (before ++ skipped :: after) sp)
                         = separator text sp) by (by destruct sp).
    rewrite Hseparator. f_equal.
    replace (children (set_children (before ++ skipped :: after) sp))
      with (before ++ skipped :: after) by (by destruct sp).
    rewrite map_app, concat_app. cbn [List.map concat].
    rewrite Hskipped, (Hwrite _ Hb), (Hwrite _ Ha). by rewrite <- !app_assoc.
Qed.

End SeparatorOverride.

Definition two_statements_span : Span.Span :=
  match Span.new two_statements with
  | Ok span => span
  | Error _ => Span.mkSpan two_statements 0 0 [] Span.reset 0 0
  end.

Lemma override_replaces_last_inner_separator_witness :
  exists before after,
    Span.getText (lit "a  b  c") two_statements_span
    = before ++ Span.getLastInnerSeparator (lit "a  b  c") two_statements_span ++ after
    /\ Span._writeModifiedText (lit "a  b  c") two_statements_span (Some (lit "; "))
       = before ++ lit "; " ++ after.
Proof.
  exact (override_replaces_last_inner_separator (lit "a  b  c") two_statements_span
           (lit "; ") eq_refl eq_refl).
Defined.

Lemma skipAll_removes_child_witness :
  Span.getText (lit "a  b  c") two_statements_span = lit "a  b  c"
  /\ Span.getModifiedText (lit "a  b  c")
       (Span.set_children
          (Span.set_modification (Span.skipAll Span.reset)
             (hd two_statements_span (Span.children two_statements_span))
           :: tl (Span.children two_statements_span))
          two_statements_span)
     = lit "b  c".
Proof.
  destruct (skipAll_removes_child (lit "a  b  c") two_statements_span
              (hd two_statements_span (Span.children two_statements_span))
              [] (tl (Span.children two_statements_span))
              eq_refl eq_refl eq_refl) as [Htext Hwritten].
  split; [rewrite Htext; reflexivity|].
  etransitivity; [exact Hwritten|reflexivity].
Defined.

(** ** Sorted emission *)

Section SortedEmission.
Import Span.

Variable text : jsstring.








End SortedEmission.

(** A member [x;] of a list: an identifier and a semicolon. *)
Definition member (start : nat) : Span.Node :=
  Span.mkNode (Span.OtherKind 1) start (start + 2)
    [Span.mkNode Span.Identifier start (start + 1) [];
     Span.mkNode (Span.OtherKind 2) (start + 1) (start + 2) []].






(** ** Indentation *)

Section Indentation.
Import Span.

Variable text : jsstring.

Definition isBlank (c : N) : bool := (c =? 32)%N || (c =? 9)%N.

Lemma indentStart_le i : indentStart text i <= i.
Proof.
  induction i as [|i IH]; [done|]. cbn [indentStart].
  destruct (text !! i) as [c|]; [|done].
  destruct (negb (c =? 32)%N && negb (c =? 9)%N); lia.
Qed.

Lemma indentStart_blank i :
  forall j c, indentStart text i <= j -> j < i -> text !! j = Some c -> isBlank c = true.
Proof.
  induction i as [|i IH]; intros j c Hlo Hhi Hj; [lia|]. cbn [indentStart] in Hlo.
  destruct (text !! i) as [ci|] eqn:Ei; [|lia].
  destruct (negb (ci =? 32)%N && negb (ci =? 9)%N) eqn:Eb; [lia|].
  destruct (decide (j = i)) as [->|Hne].
  - rewrite Ei in Hj. injection Hj as <-. unfold isBlank.
    apply andb_false_iff in Eb as [Eb|Eb]; apply negb_false_iff in Eb; rewrite Eb;
      [done|apply orb_true_r].
  - apply (IH j c); [done|lia|done].
Qed.

Lemma indentStart_stop i :
  indentStart text i = 0
  \/ text !! (indentStart text i - 1) = None
  \/ exists c, text !! (indentStart text i - 1) = Some c /\ isBlank c = false.
Proof.
  induction i as [|i IH]; [by left|]. cbn [indentStart].
  destruct (text !! i) as [ci|] eqn:Ei.
  - destruct (negb (ci =? 32)%N && negb (ci =? 9)%N) eqn:Eb; [|exact IH].
    right. right. exists ci. cbn. rewrite Nat.sub_0_r. split; [done|].
    apply andb_true_iff in Eb as [E1 E2]. apply negb_true_iff in E1, E2.
    unfold isBlank. by rewrite E1, E2.
  - right. left. cbn. by rewrite Nat.sub_0_r.
Qed.

Lemma indentStart_outside i : length text < i -> indentStart text i = i.
Proof.
  intros Hi. destruct i as [|j]; [done|]. cbn [indentStart].
  assert (Hnone : text !! j = None) by (apply lookup_ge_None_2; lia).
  by rewrite Hnone.
Qed.

(** X4.  [getIndent] returns the run of spaces and tabs that ends where the
    span starts: it is made of spaces and tabs only, it is the text that
    immediately precedes the span, and it is not preceded by a further
    space or tab. *)
Theorem getIndent_is_leading_blank_run (sp : Span) :
  let indent := getIndent text sp in
  Forall (fun c => isBlank c = true) indent
  /\ indent = substring text (startIndex sp - length indent) (startIndex sp)
  /\ length indent <= startIndex sp
  /\ (startIndex sp - length indent = 0
      \/ text !! (startIndex sp - length indent - 1) = None
      \/ exists c, text !! (startIndex sp - length indent - 1) = Some c
                   /\ isBlank c = false).
Proof.
  intros indent. subst indent. unfold getIndent.
  pose proof (indentStart_le (startIndex sp)) as Hle.
  set (i := indentStart text (startIndex sp)) in *.
  assert (Hsub : substring text i (startIndex sp) = take (startIndex sp - i) (drop i text)).
  { unfold substring. by rewrite Nat.min_l, Nat.max_r by lia. }
  assert (Hblank : Forall (fun c => isBlank c = true) (substring text i (startIndex sp))).
  { rewrite Hsub. apply Forall_lookup_2. intros k c Hk.
    apply lookup_take_Some in Hk as [Hk Hlt]. rewrite lookup_drop in Hk.
    apply (indentStart_blank (startIndex sp) (i + k) c); [fold i; lia|lia|done]. }
  split; [exact Hblank|].
  destruct (decide (startIndex sp <= length text)) as [Hin|Hout].
  - assert (Hlen : length (substring text i (startIndex sp)) = startIndex sp - i).
    { rewrite Hsub, length_take, length_drop. lia. }
    rewrite Hlen. replace (startIndex sp - (startIndex sp - i)) with i by lia.
    split; [done|]. split; [lia|]. apply indentStart_stop.
  - assert (Hi : i = startIndex sp).
    { subst i. apply indentStart_outside. lia. }
    rewrite Hi, substring_same. cbn [length]. rewrite Nat.sub_0_r.
    split; [by rewrite substring_same|]. split; [lia|].
    rewrite <- Hi. apply indentStart_stop.
Qed.

End Indentation.

(** ** Span.getDump *)

Module SpanDump.
Import Span.

(** [s.replace(/[cls]/g, rep)]: every character of the class replaced. *)
Definition replaceClass (cls : N -> bool) (rep : jsstring) (s : jsstring) : jsstring :=
  flat_map (fun c => if cls c then rep else [c]) s.

Definition isLineBreak (c : N) : bool := (c =? 13)%N || (c =? 10)%N.

(** [_getTrimmed]; the replacement text is a backslash followed by [n]. *)
Definition _getTrimmed (text : jsstring) : jsstring :=
  let trimmed := replaceClass isLineBreak [92%N; 110%N] text in
  if 100 <? length trimmed then take 97 trimmed ++ lit "..." else trimmed.

Section WithSourceFile.

(** The name of a syntax kind, [ts.SyntaxKind[kind]]. *)
Variable kindName : SyntaxKind -> jsstring.

Variable text : jsstring.

(** The first line of [getDump]. *)
Definition dumpLine (sp : Span) (indent : jsstring) : jsstring :=
  let result := indent ++ kindName (kind (node sp)) ++ lit ": " in
  let result :=
    if truthy (prefix text sp)
    then result ++ lit " pre=[" ++ _getTrimmed (prefix text sp) ++ lit "]" else result in
  let result :=
    if truthy (suffix text sp)
    then result ++ lit " suf=[" ++ _getTrimmed (suffix text sp) ++ lit "]" else result in
  let result :=
    if truthy (separator text sp)
    then result ++ lit " sep=[" ++ _getTrimmed (separator text sp) ++ lit "]" else result in
  result ++ [10%N].

Fixpoint getDump (sp : Span) (indent : jsstring) : jsstring :=
  dumpLine sp indent
  ++ concat (List.map (fun child => getDump child (indent ++ lit "  ")) (children sp)).

End WithSourceFile.

End SpanDump.

Section DumpProperties.
Import Span SpanDump.

Lemma replaceClass_no_line_break s :
  Forall (fun c => isLineBreak c = false) (replaceClass isLineBreak [92%N; 110%N] s).
Proof.
  unfold replaceClass. induction s as [|c s IH]; [constructor|]. cbn [flat_map].
  destruct (isLineBreak c) eqn:E; [|by constructor]. by repeat constructor.
Qed.

Lemma replaceClass_id s :
  Forall (fun c => isLineBreak c = false) s -> replaceClass isLineBreak [92%N; 110%N] s = s.
Proof.
  unfold replaceClass. induction 1 as [|c s Hc _ IH]; [done|]. cbn [flat_map].
  by rewrite Hc, IH.
Qed.

(** X5.  The text [_getTrimmed] puts into a dump is at most 100 characters
    long and holds no line break; a text of at most 100 characters
    without line break is left as it is, and a longer one is cut to 97
    characters followed by three dots. *)
Theorem _getTrimmed_fits_one_line (s : jsstring) :
  length (_getTrimmed s) <= 100
  /\ Forall (fun c => isLineBreak c = false) (_getTrimmed s)
  /\ (Forall (fun c => isLineBreak c = false) s ->
      _getTrimmed s = if 100 <? length s then take 97 s ++ lit "..." else s).
Proof.
  unfold _getTrimmed. split; [|split].
  - destruct (Nat.ltb_spec 100 (length (replaceClass isLineBreak [92%N; 110%N] s)));
      [|lia]. rewrite length_app, length_take. change (length (lit "...")) with 3. lia.
  - pose proof (replaceClass_no_line_break s) as H.
    destruct (100 <? _); [|done]. apply Forall_app. split.
    + by apply Forall_take.
    + by repeat constructor.
  - intros Hs. by rewrite (replaceClass_id s Hs).
Qed.

Lemma _getTrimmed_fits_one_line_witness :
  _getTrimmed (lit "a b") = lit "a b".
Proof.
  rewrite (proj2 (proj2 (_getTrimmed_fits_one_line (lit "a b")))); [reflexivity|].
  by repeat constructor.
Defined.

Section OneLinePerSpan.

Variable kindName : SyntaxKind -> jsstring.
Variable text : jsstring.

(** The number of line feeds of a text. *)
Definition lineFeeds (s : jsstring) : nat := length (List.filter (fun c => (c =? 10)%N) s).

(** The number of spans of a tree. *)
Fixpoint spanCount (sp : Span) : nat :=
  S (list_sum (List.map spanCount (children sp))).

Lemma lineFeeds_app a b : lineFeeds (a ++ b) = lineFeeds a + lineFeeds b.
Proof. unfold lineFeeds. by rewrite List.filter_app, length_app. Qed.

Lemma lineFeeds_none s : Forall (fun c => isLineBreak c = false) s -> lineFeeds s = 0.
Proof.
  unfold lineFeeds. induction 1 as [|c s Hc _ IH]; [done|]. cbn [List.filter].
  unfold isLineBreak in Hc. apply orb_false_iff in Hc as [_ Hc]. by rewrite Hc.
Qed.

Lemma lineFeeds_trimmed s : lineFeeds (_getTrimmed s) = 0.
Proof. apply lineFeeds_none, _getTrimmed_fits_one_line. Qed.

Lemma lineFeeds_dumpLine sp indent :
  (forall k, lineFeeds (kindName k) = 0) ->
  lineFeeds indent = 0 ->
  lineFeeds (dumpLine kindName text sp indent) = 1.
Proof.
  intros Hk Hi. unfold dumpLine.
  destruct (truthy (prefix text sp)), (truthy (suffix text sp)),
    (truthy (separator text sp));
    rewrite !lineFeeds_app, ?lineFeeds_trimmed, Hk, Hi; reflexivity.
Qed.

(** X6.  The dump of a tree has one line for each span, when no name of a
    syntax kind and the indentation given hold a line feed: the text of
    a span never breaks its line. *)
Theorem getDump_one_line_per_span (sp : Span) (indent : jsstring) :
  (forall k, lineFeeds (kindName k) = 0) ->
  lineFeeds indent = 0 ->
  lineFeeds (getDump kindName text sp indent) = spanCount sp.
Proof.
  intros Hk. revert indent.
  induction sp as [n st en ch m ss se IH] using Span_nested_ind. intros indent Hi.
  cbn [getDump spanCount children]. rewrite lineFeeds_app, lineFeeds_dumpLine by done.
  cbn [Nat.add]. f_equal.
  induction IH as [|c cs Hc _ IHcs]; [done|]. cbn [List.map concat list_sum].
  rewrite lineFeeds_app, IHcs, Hc; [done|].
  by rewrite lineFeeds_app, Hi.
Qed.

End OneLinePerSpan.

End DumpProperties.

Lemma getDump_one_line_per_span_witness :
  lineFeeds (SpanDump.getDump (fun _ => lit "Node") (lit "a  b  c") two_statements_span [])
  = 5.
Proof.
  rewrite (getDump_one_line_per_span (fun _ => lit "Node") (lit "a  b  c")
             two_statements_span [] (fun _ => eq_refl) eq_refl).
  reflexivity.
Defined.

(** ** Equivalent review files *)

Section EquivalentFiles.
Import ReviewFileGenerator.

(** The replacement of [[\s]+] by a space, read as a scan that remembers
    whether it is inside a run of whitespace. *)
Fixpoint scan (inRun : bool) (s : jsstring) : jsstring :=
  match s with
  | [] => []
  | c :: s' =>
      if isWhiteSpace c then (if inRun then scan true s' else 32%N :: scan true s')
      else c :: scan false s'
  end.

Lemma scan_true_skip s : scan true s = scan false (skipClass isWhiteSpace s).
Proof.
  induction s as [|c s IH]; [done|]. cbn [scan skipClass].
  destruct (isWhiteSpace c) eqn:E; [exact IH|]. cbn [scan]. by rewrite E.
Qed.

Lemma replaceClassPlus_scan s : replaceClassPlus isWhiteSpace (lit " ") s = scan false s.
Proof.
  funelim (replaceClassPlus isWhiteSpace (lit " ") s); simp replaceClassPlus.
  - reflexivity.
  - cbn [scan]. rewrite Heq, H, <- scan_true_skip. reflexivity.
  - cbn [scan]. by rewrite Heq, H.
Qed.

Lemma areEquivalent_scan s s' :
  areEquivalentApiFileContents s s' = true <-> scan false s = scan false s'.
Proof.
  unfold areEquivalentApiFileContents, streq. rewrite !replaceClassPlus_scan.
  apply bool_decide_eq_true.
Qed.

Lemma scan_idempotent s :
  scan false (scan false s) = scan false s /\ scan true (scan true s) = scan true s.
Proof.
  induction s as [|c s [IHf IHt]]; [done|]. cbn [scan].
  destruct (isWhiteSpace c) eqn:E.
  - split; [|exact IHt]. cbn [scan]. change (isWhiteSpace 32) with true. cbn iota.
    by rewrite IHt.
  - cbn [scan]. by rewrite E, IHf.
Qed.

(** X7.  [areEquivalentApiFileContents] is an equivalence relation, and a file
    is equivalent to what the replacement of its whitespace runs by
    single spaces makes of it. *)
Theorem areEquivalentApiFileContents_equivalence :
  (forall s, areEquivalentApiFileContents s s = true)
  /\ (forall s s', areEquivalentApiFileContents s s' = areEquivalentApiFileContents s' s)
  /\ (forall s1 s2 s3,
         areEquivalentApiFileContents s1 s2 = true ->
         areEquivalentApiFileContents s2 s3 = true ->
         areEquivalentApiFileContents s1 s3 = true)
  /\ (forall s,
         areEquivalentApiFileContents s (replaceClassPlus isWhiteSpace (lit " ") s) = true).
Proof.
  split; [|split; [|split]].
  - intros s. by apply areEquivalent_scan.
  - intros s s'. unfold areEquivalentApiFileContents, streq.
    apply bool_decide_ext. split; congruence.
  - intros s1 s2 s3. rewrite !areEquivalent_scan. congruence.
  - intros s. apply areEquivalent_scan. rewrite replaceClassPlus_scan.
    symmetry. apply scan_idempotent.
Qed.

Lemma areEquivalentApiFileContents_equivalence_witness :
  areEquivalentApiFileContents (lit "a  b") (lit "a   b") = true.
Proof.
  apply (proj1 (proj2 (proj2 areEquivalentApiFileContents_equivalence))
           (lit "a  b") (lit "a b") (lit "a   b")); reflexivity.
Defined.

(** Every line feed preceded by a carriage return. *)
Definition lfToCrLf (s : jsstring) : jsstring :=
  flat_map (fun c => if (c =? 10)%N then [13%N; 10%N] else [c]) s.

Lemma scan_run inRun run w rest :
  Forall (fun c => isWhiteSpace c = true) run ->
  isWhiteSpace w = true ->
  scan inRun (run ++ w :: rest) = scan inRun (w :: rest)
  /\ scan inRun (w :: run ++ rest) = scan inRun (w :: rest).
Proof.
  intros Hrun Hw. split.
  - revert inRun. induction Hrun as [|c run Hc _ IH]; intros inRun; [done|].
    cbn [app scan]. rewrite Hc, IH. cbn [scan]. rewrite Hw. by destruct inRun.
  - cbn [scan]. rewrite Hw.
    assert (H : scan true (run ++ rest) = scan true rest).
    { induction Hrun as [|c run Hc _ IH]; [done|]. cbn [app scan]. by rewrite Hc. }
    by rewrite H.
Qed.

Lemma scan_congruence_tail inRun a b b' :
  (forall st, scan st b = scan st b') -> scan inRun (a ++ b) = scan inRun (a ++ b').
Proof.
  intros H. revert inRun. induction a as [|c a IH]; intros inRun; [apply H|].
  cbn [app scan]. by rewrite !IH.
Qed.

Lemma scan_lfToCrLf inRun s : scan inRun (lfToCrLf s) = scan inRun s.
Proof.
  revert inRun. induction s as [|c s IH]; intros inRun; [done|].
  unfold lfToCrLf in *. cbn [flat_map]. destruct (N.eqb_spec c 10) as [->|Hne].
  - cbn [app scan]. change (isWhiteSpace 13) with true. change (isWhiteSpace 10) with true.
    cbn iota. rewrite IH. by destruct inRun.
  - change ([c] ++ ?l) with (c :: l). cbn [scan]. by rewrite !IH.
Qed.

(** X8.  Changes inside whitespace are ignored: a run of whitespace may grow or
    shrink, before or after one of its characters, as long as it stays;
    so a file with every line feed turned into carriage return and line
    feed is equivalent to the original, and so is one whose blanks at the
    end of a line are stripped. *)
Theorem areEquivalentApiFileContents_ignores_run_length
    (before after run : jsstring) (w : N) :
  Forall (fun c => isWhiteSpace c = true) run ->
  isWhiteSpace w = true ->
  areEquivalentApiFileContents (before ++ run ++ w :: after) (before ++ w :: after) = true
  /\ areEquivalentApiFileContents (before ++ w :: run ++ after) (before ++ w :: after) = true
  /\ areEquivalentApiFileContents (lfToCrLf before) before = true.
Proof.
  intros Hrun Hw. rewrite !areEquivalent_scan. split; [|split].
  - apply scan_congruence_tail. intros st. by apply scan_run.
  - apply scan_congruence_tail. intros st. by apply scan_run.
  - apply scan_lfToCrLf.
Qed.

Lemma areEquivalentApiFileContents_ignores_run_length_witness :
  areEquivalentApiFileContents (lit "a;" ++ lit "  " ++ 10%N :: lit "b")
                               (lit "a;" ++ 10%N :: lit "b") = true.
Proof.
  apply (areEquivalentApiFileContents_ignores_run_length (lit "a;") (lit "b") (lit "  ") 10%N).
  - by repeat constructor.
  - reflexivity.
Defined.

(** The string does not end with whitespace. *)
Definition endsOutsideRun (s : jsstring) : Prop :=
  match last s with Some c => isWhiteSpace c = false | None => True end.

(** The string does not start with whitespace. *)
Definition startsOutsideRun (s : jsstring) : Prop :=
  match s with c :: _ => isWhiteSpace c = false | [] => True end.

Lemma scan_app_outside inRun a b :
  endsOutsideRun a -> a <> [] -> scan inRun (a ++ b) = scan inRun a ++ scan false b.
Proof.
  revert inRun. induction a as [|c a IH]; intros inRun Hend Hne; [done|].
  cbn [app scan]. destruct a as [|c' a'].
  - unfold endsOutsideRun in Hend. cbn in Hend. rewrite Hend. by cbn.
  - assert (Hend' : endsOutsideRun (c' :: a')) by exact Hend.
    rewrite !(IH _ Hend') by done. by destruct (isWhiteSpace c), inRun.
Qed.

Lemma scan_start_outside inRun b : startsOutsideRun b -> scan inRun b = scan false b.
Proof. destruct b as [|c b]; [done|]. cbn. by intros ->. Qed.

(** X9.  Whitespace itself is not ignored: a whitespace character between two
    parts that neither end nor start with whitespace, or at the start or
    the end of the file, makes a file that is not equivalent to the one
    without it. *)
Theorem areEquivalentApiFileContents_keeps_separation (before after : jsstring) (w : N) :
  isWhiteSpace w = true ->
  endsOutsideRun before ->
  startsOutsideRun after ->
  areEquivalentApiFileContents (before ++ w :: after) (before ++ after) = false.
Proof.
  intros Hw Hend Hstart. apply not_true_iff_false. rewrite areEquivalent_scan.
  assert (Hlen : length (scan false (before ++ w :: after))
                 = S (length (scan false (before ++ after)))).
  { destruct (decide (before = [])) as [->|Hne].
    - cbn [app scan]. rewrite Hw. cbn [length]. by rewrite (scan_start_outside true).
    - rewrite !scan_app_outside by done. cbn [scan]. rewrite Hw.
      rewrite !length_app. cbn [length]. rewrite (scan_start_outside true) by done. lia. }
  intros Heq. rewrite Heq in Hlen. lia.
Qed.

Lemma areEquivalentApiFileContents_keeps_separation_witness :
  areEquivalentApiFileContents (lit "a" ++ 32%N :: lit "b") (lit "a" ++ lit "b") = false.
Proof.
  by apply (areEquivalentApiFileContents_keeps_separation (lit "a") (lit "b") 32%N).
Defined.

End EquivalentFiles.

(** ** What [_modifySpan] changes and what it keeps *)

Section ModifiedSpans.
Import AstDeclaration Span ReviewFileGenerator.

Variable isAstDeclaration : SyntaxKind -> bool.
Variable matchAncestor : Node -> list SyntaxKind -> option Node.
Variable declarations : Node -> list Node.
Variable followAliases : positive -> positive.
Variable getSortKeyIgnoringUnderscore : jsstring -> jsstring.
Variable replaceAll : jsstring -> jsstring -> jsstring -> jsstring.
Variable text : jsstring.
Variable collector : Collector.

Local Abbreviation modifyByKind' :=
  (modifyByKind isAstDeclaration matchAncestor declarations followAliases text collector).
Local Abbreviation modifyEach' :=
  (modifyEach isAstDeclaration getSortKeyIgnoringUnderscore replaceAll text collector).
Local Abbreviation _modifySpan' :=
  (_modifySpan isAstDeclaration matchAncestor declarations followAliases
     getSortKeyIgnoringUnderscore replaceAll text collector).
Local Abbreviation _modifySpan_unfold' :=
  (_modifySpan_unfold isAstDeclaration matchAncestor declarations followAliases
     getSortKeyIgnoringUnderscore replaceAll text collector).

(** The span tree with every modification reverted. *)
Fixpoint withoutModifications (sp : Span) : Span :=
  mkSpan (node sp) (startIndex sp) (endIndex sp)
    (List.map withoutModifications (children sp)) reset
    (_separatorStartIndex sp) (_separatorEndIndex sp).

Lemma withoutModifications_unfold sp :
  withoutModifications sp
  = mkSpan (node sp) (startIndex sp) (endIndex sp)
      (List.map withoutModifications (children sp)) reset
      (_separatorStartIndex sp) (_separatorEndIndex sp).
Proof. by destruct sp. Qed.

Lemma getText_withoutModifications sp :
  getText text (withoutModifications sp) = getText text sp.
Proof.
  induction sp as [n st en ch m ss se IH] using Span_nested_ind.
  rewrite withoutModifications_unfold, !getText_unfold.
  cbn [node startIndex endIndex children _separatorStartIndex _separatorEndIndex].
  f_equal; [|f_equal; [|f_equal]].
  - unfold prefix. cbn [children startIndex endIndex]. by destruct ch as [|[] ?].
  - rewrite map_map. f_equal. apply map_ext_in. intros c Hc.
    rewrite Forall_forall in IH. by apply IH, list_elem_of_In.
  - unfold suffix. cbn [children endIndex].
    destruct (snoc_view ch) as [->|(ch0 & lc & ->)]; [done|].
    rewrite map_app. cbn [List.map]. rewrite !last_snoc. by destruct lc.
Qed.

Lemma modifyEach_shape modify sortChildren d span rest :
  Forall (fun c => forall cm d' c',
              modify c cm d' = Ok c' -> withoutModifications c' = withoutModifications c)
         rest ->
  forall done m span',
    modifyEach' modify sortChildren d span rest done m = Ok span' ->
    withoutModifications span'
    = mkSpan (node span) (startIndex span) (endIndex span)
        (List.map withoutModifications done ++ List.map withoutModifications rest) reset
        (_separatorStartIndex span) (_separatorEndIndex span).
Proof.
  induction 1 as [|child rest Hc _ IH]; intros done m span'; cbn [modifyEach].
  - intros [= <-]. rewrite withoutModifications_unfold. destruct span.
    cbn. by rewrite app_nil_r.
  - destruct (prepareChild _ _ _ _ _ sortChildren m child d) as [[[d' m'] cm]|];
      [|discriminate].
    destruct (modify child cm d') as [child'|] eqn:E; [|discriminate].
    intros Hrun. apply IH in Hrun. rewrite Hrun, map_app. cbn [List.map].
    by rewrite (Hc _ _ _ E), <- app_assoc.
Qed.

(** X10.  [_modifySpan] changes modifications only: the tree it returns has the
    nodes, bounds, separators and children of the tree it was given, and
    so the same original text. *)
Theorem _modifySpan_keeps_source (span : Span) :
  forall parentKind m astDeclaration span',
    _modifySpan' parentKind span m astDeclaration = Ok span' ->
    withoutModifications span' = withoutModifications span
    /\ getText text span' = getText text span.
Proof.
  assert (Hshape : forall span parentKind m astDeclaration span',
             _modifySpan' parentKind span m astDeclaration = Ok span' ->
             withoutModifications span' = withoutModifications span).
  { clear span. intros span.
    induction span as [n st en ch m0 ss se IH] using Span_nested_ind.
    intros parentKind m d span'. rewrite _modifySpan_unfold'.
    destruct (modifyByKind' parentKind _ m) as [[[m1 recurse] sortCh]|]; [|discriminate].
    destruct recurse.
    - intros Hrun. eapply modifyEach_shape in Hrun.
      + rewrite Hrun. by rewrite withoutModifications_unfold.
      + cbn [children]. eapply Forall_impl; [exact IH|]. intros c Hc cm d' c'. apply Hc.
    - intros [= <-]. by rewrite !withoutModifications_unfold. }
  intros parentKind m d span' Hrun. apply Hshape in Hrun. split; [exact Hrun|].
  by rewrite <- (getText_withoutModifications span'), Hrun, getText_withoutModifications.
Qed.

Lemma _writeModifiedText_skipped sp m separatorOverride :
  modification sp = skipAll m ->
  truthy_opt separatorOverride = false ->
  _writeModifiedText text sp separatorOverride = [].
Proof.
  intros Hm Hov. rewrite _writeModifiedText_unfold.
  unfold trailingSeparator, modification_prefix, modification_suffix.
  by rewrite Hm, Hov.
Qed.

(** X11.  A JSDoc comment, an [export] keyword and a [default] keyword leave no
    text: the span [_modifySpan] returns for them writes nothing, its
    separator included, unless a separator override is active.  For a
    JSDoc comment [_modifySpan] does not visit the children and never
    throws. *)
Theorem _modifySpan_deletes_keywords (span : Span) (parentKind : option SyntaxKind)
    (m : SpanModification) (astDeclaration : AstDeclaration) :
  (kind (node span) = JSDocComment ->
   _modifySpan' parentKind span m astDeclaration = Ok (set_modification (skipAll m) span))
  /\ (kind (node span) = JSDocComment \/ kind (node span) = ExportKeyword
      \/ kind (node span) = DefaultKeyword ->
      forall span' separatorOverride,
        _modifySpan' parentKind span m astDeclaration = Ok span' ->
        truthy_opt separatorOverride = false ->
        _writeModifiedText text span' separatorOverride = []).
Proof.
  split.
  - intros Hk. rewrite _modifySpan_unfold'. unfold modifyByKind. by rewrite Hk.
  - intros Hk span' ov Hrun Hov. apply (_writeModifiedText_skipped span' m); [|done].
    rewrite _modifySpan_unfold' in Hrun. unfold modifyByKind in Hrun.
    destruct Hk as [Hk|[Hk|Hk]]; rewrite Hk in Hrun.
    + by injection Hrun as <-; destruct span.
    + by apply modifyEach_unsorted in Hrun.
    + by apply modifyEach_unsorted in Hrun.
Qed.

(** X12.  An identifier that resolves, through its aliases, to an entity of the
    collector is written as the [nameForEmit] of the entity, followed by
    its own separator; [_modifySpan] throws when that name is missing or
    empty, and leaves an identifier without symbol or entity as it is. *)
Theorem _modifySpan_renames_identifier (span : Span) (parentKind : option SyntaxKind)
    (m : SpanModification) (astDeclaration : AstDeclaration) :
  kind (node span) = Identifier ->
  children span = [] ->
  (forall symbol entity,
      getSymbolAtLocation collector (node span) = Some symbol ->
      tryGetEntityBySymbol collector (followAliases symbol) = Some entity ->
      if truthy_opt (nameForEmit entity) then
        _modifySpan' parentKind span m astDeclaration
        = Ok (set_modification (set_prefix (default [] (nameForEmit entity)) m) span)
        /\ (plain m = true ->
            getModifiedText text
              (set_modification (set_prefix (default [] (nameForEmit entity)) m) span)
            = default [] (nameForEmit entity) ++ separator text span)
      else
        _modifySpan' parentKind span m astDeclaration
        = Error (lit "referencedEntry.uniqueName is undefined"))
  /\ (match getSymbolAtLocation collector (node span) with
      | Some symbol => tryGetEntityBySymbol collector (followAliases symbol) = None
      | None => True
      end ->
      _modifySpan' parentKind span m astDeclaration = Ok (set_modification m span)).
Proof.
  intros Hk Hleaf.
  assert (Hset : forall m', set_children [] (set_modification m' span)
                            = set_modification m' span).
  { intros m'. destruct span. cbn in *. by subst. }
  split.
  - intros symbol entity Hsym Hent. rewrite _modifySpan_unfold'. unfold modifyByKind.
    rewrite Hk, Hsym, Hent. destruct (truthy_opt (nameForEmit entity)) eqn:Hname; [|done].
    cbn [negb]. rewrite Hleaf. cbn [modifyEach]. rewrite Hset. split; [done|].
    intros (Ho & Hs & Hc & Hp & Hx)%plain_fields. unfold getModifiedText.
    rewrite _writeModifiedText_unfold.
    unfold trailingSeparator, modification_prefix, modification_suffix, suffix.
    destruct span as [n st en ch m0 ss se]. cbn in *. subst ch.
    rewrite Ho, Hs, Hc, Hx. by cbn.
  - intros Hnone. rewrite _modifySpan_unfold'. unfold modifyByKind. rewrite Hk.
    destruct (getSymbolAtLocation collector (node span)) as [symbol|].
    + rewrite Hnone, Hleaf. cbn [modifyEach]. by rewrite Hset.
    + rewrite Hleaf. cbn [modifyEach]. by rewrite Hset.
Qed.

End ModifiedSpans.

Lemma _modifySpan_keeps_source_witness :
  exists span',
    ReviewFileGenerator._modifySpan
      (fun _ => false) (fun _ _ => Some declared_constant_list)
      (fun _ => [declared_constant]) id id (fun t _ _ => t)
      declared_constant_text no_entities None declared_constant_span
      (Span.modification declared_constant_span) root1 = Ok span'
    /\ Span.getText declared_constant_text span'
       = Span.getText declared_constant_text declared_constant_span.
Proof.
  eexists. split; [vm_compute; reflexivity|].
  refine (proj2 (_modifySpan_keeps_source
                   (fun _ => false) (fun _ _ => Some declared_constant_list)
                   (fun _ => [declared_constant]) id id (fun t _ _ => t)
                   declared_constant_text no_entities declared_constant_span None
                   (Span.modification declared_constant_span) root1 _ _)).
  vm_compute. reflexivity.
Defined.

Definition export_keyword : Span.Span :=
  Span.mkSpan (Span.mkNode Span.ExportKeyword 0 6 []) 0 6 [] Span.reset 6 7.

Lemma _modifySpan_deletes_keywords_witness :
  exists span',
    ReviewFileGenerator._modifySpan
      (fun _ => false) (fun _ _ => None) (fun _ => []) id id (fun t _ _ => t)
      (lit "export class A {}") no_entities (Some Span.SyntaxList) export_keyword
      Span.reset root1 = Ok span'
    /\ Span._writeModifiedText (lit "export class A {}") span' None = [].
Proof.
  eexists. split; [vm_compute; reflexivity|].
  refine (proj2 (_modifySpan_deletes_keywords
                   (fun _ => false) (fun _ _ => None) (fun _ => []) id id (fun t _ _ => t)
                   (lit "export class A {}") no_entities export_keyword
                   (Some Span.SyntaxList) Span.reset root1)
            (or_intror (or_introl eq_refl)) _ None _ eq_refl).
  vm_compute. reflexivity.
Defined.

Definition renamed_entity : ReviewFileGenerator.Collector :=
  ReviewFileGenerator.mkCollector
    (fun _ => ReviewFileGenerator.mkDeclarationMetadata None false false false false false)
    (fun _ => ReviewFileGenerator.mkSymbolMetadata ReviewFileGenerator.Public false)
    (fun _ => Some 1%positive)
    (fun _ => Some (ReviewFileGenerator.mkCollectorEntity (Some (lit "Foo_2")) false))
    (fun _ d => Ok d) (fun _ => []).

Definition reference_to_Foo : Span.Span :=
  Span.mkSpan (Span.mkNode Span.Identifier 3 6 []) 3 6 [] Span.reset 6 7.

Lemma _modifySpan_renames_identifier_witness :
  Span.getModifiedText (lit "x: Foo ;")
    (Span.set_modification (Span.set_prefix (lit "Foo_2") Span.reset) reference_to_Foo)
  = lit "Foo_2 ".
Proof.
  refine (eq_trans
            (proj2 (proj1 (_modifySpan_renames_identifier
                             (fun _ => false) (fun _ _ => None) (fun _ => []) id id
                             (fun t _ _ => t) (lit "x: Foo ;") renamed_entity
                             reference_to_Foo None Span.reset root1 eq_refl eq_refl)
                      1%positive
                      (ReviewFileGenerator.mkCollectorEntity (Some (lit "Foo_2")) false)
                      eq_refl eq_refl) eq_refl) _).
  reflexivity.
Defined.

(** ** Where the constructor puts the separators *)

Section SeparatorPlacement.
Import Span.

Variable text : jsstring.

(** The source text between two neighbouring spans. *)
Definition gap (x y : Span) : jsstring :=
  if endIndex x <? startIndex y then substring text (endIndex x) (startIndex y) else [].

(** A span and its sub-spans, the span first. *)
Fixpoint subspans (sp : Span) : list Span :=
  sp :: concat (List.map subspans (children sp)).

(** No span on the last-child chain of the span has a separator: what
    the constructor builds, until an enclosing constructor adds one. *)
Inductive quiet : Span -> Prop :=
| quiet_intro sp :
    unseparated sp ->
    (forall lastChild, last (children sp) = Some lastChild -> quiet lastChild) ->
    quiet sp.

(** [getLastInnerSeparator] of each child but the last is the gap to the
    next child. *)
Fixpoint gapsFound (ch : list Span) : Prop :=
  match ch with
  | [] => True
  | x :: rest =>
      match rest with
      | [] => True
      | y :: _ => getLastInnerSeparator text x = gap x y /\ gapsFound rest
      end
  end.

Inductive separated : Span -> Prop :=
| separated_intro sp :
    gapsFound (children sp) -> Forall separated (children sp) -> separated sp.

Lemma unseparated_separator sp : unseparated sp -> separator text sp = [].
Proof. intros [Hs He]. unfold separator. by rewrite Hs, He. Qed.

Lemma quiet_getLastInnerSeparator sp : quiet sp -> getLastInnerSeparator text sp = [].
Proof.
  induction 1 as [sp Hsep _ IH]. rewrite getLastInnerSeparator_unfold.
  rewrite (unseparated_separator _ Hsep). cbn [truthy].
  destruct (last (children sp)) as [lc|]; [by apply IH|done].
Qed.

Lemma truthy_or_empty (s : jsstring) : (if truthy s then s else []) = s.
Proof. by destruct s. Qed.

Lemma assignSeparator_getLastInnerSeparator s e sp :
  quiet sp ->
  getLastInnerSeparator text (assignSeparator s e sp) = _getSubstring text s e.
Proof.
  induction 1 as [sp Hsep Hlast IH].
  assert (Hset : getLastInnerSeparator text (set_separator s e sp) = _getSubstring text s e).
  { rewrite getLastInnerSeparator_unfold. unfold separator, set_separator.
    cbn [_separatorStartIndex _separatorEndIndex children].
    destruct (last (children sp)) as [lc|] eqn:El; cbn [from_option].
    - rewrite (quiet_getLastInnerSeparator lc (Hlast lc eq_refl)). apply truthy_or_empty.
    - apply truthy_or_empty. }
  destruct sp as [n st en ch m ss se]. cbn [children] in *.
  cbn [assignSeparator children endIndex].
  destruct (snoc_view ch) as [->|(ch0 & lc & ->)]; [exact Hset|].
  rewrite replaceLast_snoc. case_bool_decide as Hend; [exact Hset|].
  cbn [fmap option_fmap option_map].
  rewrite getLastInnerSeparator_unfold. unfold set_children.
  cbn [children]. rewrite last_snoc. cbn [from_option].
  replace (separator text _) with (@nil N).
  - cbn [truthy]. apply IH, last_snoc.
  - symmetry. by apply unseparated_separator.
Qed.

Lemma gapsFound_snoc ch x y :
  gapsFound (ch ++ [x]) -> getLastInnerSeparator text x = gap x y ->
  gapsFound (ch ++ [x; y]).
Proof.
  intros Hch Hx. induction ch as [|a ch IH]; [cbn; auto|].
  destruct ch as [|b ch]; cbn in *; [tauto|]. destruct Hch as [Ha Hch]. split; [exact Ha|].
  by apply IH.
Qed.

Lemma gapsFound_replace_last ch x x' :
  gapsFound (ch ++ [x]) -> startIndex x' = startIndex x -> gapsFound (ch ++ [x']).
Proof.
  intros Hch Hx. induction ch as [|a ch IH]; [cbn; auto|].
  destruct ch as [|b ch]; cbn in *.
  - unfold gap in *. rewrite Hx. tauto.
  - destruct Hch as [Ha Hch]. split; [exact Ha|]. by apply IH.
Qed.

Lemma assignSeparator_separated s e sp :
  separated sp -> separated (assignSeparator s e sp).
Proof.
  induction sp as [n st en ch m ss se IH] using Span_nested_ind.
  intros Hsp. inversion Hsp as [sp' Hgaps Hall]; subst sp'. cbn [children] in *.
  cbn [assignSeparator children endIndex].
  destruct (snoc_view ch) as [->|(ch0 & lc & ->)]; [by constructor|].
  rewrite replaceLast_snoc. case_bool_decide as Hend; [by constructor|].
  cbn [fmap option_fmap option_map]. constructor; cbn [set_children children].
  - apply (gapsFound_replace_last ch0 lc); [exact Hgaps|].
    apply assignSeparator_fields.
  - apply Forall_app in Hall as [Hall0 Hlc]. apply Forall_app in IH as [_ IHlc].
    apply Forall_app. split; [exact Hall0|]. constructor; [|constructor].
    apply (Forall_inv IHlc), (Forall_inv Hlc).
Qed.

(** What the loop of the constructor keeps true of the span under
    construction. *)
Definition placing (this : Span) : Prop :=
  unseparated this
  /\ gapsFound (children this)
  /\ Forall separated (children this)
  /\ (forall lastChild, last (children this) = Some lastChild -> quiet lastChild).

Lemma attachEach_placing (cs : list Node) :
  Forall (fun c => forall csp, new c = Ok csp -> quiet csp /\ separated csp) cs ->
  forall this sp, placing this -> attachEach new cs this = Ok sp -> placing sp.
Proof.
  induction 1 as [|c cs Hc _ IH]; intros this sp Hthis Hrun.
  - cbn in Hrun. by injection Hrun as <-.
  - cbn [attachEach] in Hrun. destruct (new c) as [csp|] eqn:Ec; [|discriminate].
    destruct (Hc csp eq_refl) as [Hquiet Hsepd].
    destruct (attachChild_cases this csp)
      as [[_ E]|(_ & this' & E & _ & _ & _ & _ & Hss & Hse & Hch)];
      rewrite E in Hrun; [discriminate|].
    apply (IH this' sp); [|exact Hrun].
    destruct Hthis as ([Hs0 He0] & Hgaps & Hall & Hlast).
    split; [split; congruence|]. rewrite Hch.
    destruct (snoc_view (children this)) as [E0|(ch0 & previous & E0)]; rewrite E0 in *.
    + cbn. split; [done|]. split; [by constructor|]. by intros lc [= <-].
    + rewrite last_snoc, removelast_last.
      specialize (Hlast previous (last_snoc _ _)).
      apply Forall_app in Hall as [Hall0 Hprev]. apply Forall_inv in Hprev.
      destruct (Nat.ltb_spec (endIndex previous) (startIndex csp)) as [Hgap|Hnogap].
      * destruct (assignSeparator_fields (endIndex previous) (startIndex csp) previous)
          as (_ & Hps & Hpe & _).
        split; [|split].
        -- apply gapsFound_snoc.
           ++ by apply (gapsFound_replace_last ch0 previous).
           ++ rewrite assignSeparator_getLastInnerSeparator by exact Hlast.
              unfold gap. rewrite Hpe. rewrite (proj2 (Nat.ltb_lt _ _) Hgap).
              apply _getSubstring_substring.
        -- apply Forall_app. split; [exact Hall0|].
           constructor; [by apply assignSeparator_separated|by constructor].
        -- rewrite last_snoc2. by intros lc [= <-].
      * split; [|split].
        -- rewrite <- app_assoc. apply gapsFound_snoc; [exact Hgaps|].
           rewrite (quiet_getLastInnerSeparator previous Hlast). unfold gap.
           by rewrite (proj2 (Nat.ltb_ge _ _) Hnogap).
        -- apply Forall_app. split; [|by constructor].
           apply Forall_app. split; [exact Hall0|by constructor].
        -- rewrite last_snoc. by intros lc [= <-].
Qed.

Lemma new_placing n : forall sp, new n = Ok sp -> quiet sp /\ separated sp.
Proof.
  induction n as [k s e ch IH] using Node_nested_ind. intros sp Hnew.
  rewrite new_unfold in Hnew. cbn [getChildren getStart end_] in Hnew.
  apply (attachEach_placing ch IH) in Hnew as (Hsep & Hgaps & Hall & Hlast).
  - split; by constructor.
  - split; [done|]. split; [exact I|]. split; [constructor|]. intros lc Hlc. discriminate Hlc.
Qed.

Lemma separated_subspans sp : separated sp -> Forall separated (subspans sp).
Proof.
  induction sp as [n st en ch m ss se IH] using Span_nested_ind.
  intros Hsp. cbn [subspans children]. constructor; [exact Hsp|].
  inversion Hsp as [sp' _ Hall]; subst sp'. cbn [children] in Hall.
  induction ch as [|c ch IHch]; [constructor|]. cbn [List.map concat].
  apply Forall_cons in IH as [IHc IH]. apply Forall_cons in Hall as [Hc Hall].
  apply Forall_app. split; [by apply IHc|]. apply IHch; [exact IH| |exact Hall].
  constructor; [|exact Hall]. inversion Hsp as [sp' Hgaps _]; subst sp'.
  cbn [children] in Hgaps. destruct ch as [|y ch]; [done|]. cbn in Hgaps. apply Hgaps.
Qed.

Lemma gapsFound_at ch0 x y ch1 :
  gapsFound (ch0 ++ x :: y :: ch1) -> getLastInnerSeparator text x = gap x y.
Proof.
  induction ch0 as [|a ch0 IH]; [by intros [H _]|].
  cbn [app]. intros H. apply IH. destruct ch0; cbn in H; apply H.
Qed.

(** X22.  In the tree the constructor builds, for every span and every two
    neighbouring children of it, [getLastInnerSeparator] of the earlier
    child is the source text that lies between the two (nothing when they
    touch); and [getLastInnerSeparator] of the root is empty. *)
Theorem new_places_separators (n : Node) (root : Span) :
  new n = Ok root ->
  getLastInnerSeparator text root = []
  /\ forall sp before x y after,
       sp ∈ subspans root ->
       children sp = before ++ x :: y :: after ->
       getLastInnerSeparator text x
       = if endIndex x <? startIndex y
         then substring text (endIndex x) (startIndex y) else [].
Proof.
  intros Hnew. destruct (new_placing n root Hnew) as [Hquiet Hsepd].
  split; [by apply quiet_getLastInnerSeparator|].
  intros sp before x y after Hin Hch.
  pose proof (separated_subspans root Hsepd) as Hall.
  rewrite Forall_forall in Hall. specialize (Hall sp Hin).
  inversion Hall as [sp' Hgaps _]; subst sp'. rewrite Hch in Hgaps.
  by apply gapsFound_at in Hgaps.
Qed.

End SeparatorPlacement.

Lemma new_places_separators_witness :
  Span.getLastInnerSeparator (lit "a  b  c")
    (hd two_statements_span (Span.children two_statements_span))
  = lit "  ".
Proof.
  rewrite (proj2 (new_places_separators (lit "a  b  c") two_statements two_statements_span
                    eq_refl)
             two_statements_span []
             (hd two_statements_span (Span.children two_statements_span))
             (hd two_statements_span (tl (Span.children two_statements_span))) []).
  - reflexivity.
  - vm_compute. left.
  - reflexivity.
Defined.

(** ** Containers: the lookup by name and the state over a run of calls *)

Module ApiItemContainerLookup.
Import ApiItemContainerMixin.

(** The loop of [findMembersByName] that builds the lookup: the members
    of each name, in the order of [_members]. *)
Definition buildMembersByName (members : list ApiItem) : gmap jsstring (list ApiItem) :=
  fold_left
    (fun map member =>
       <[name member := default [] (map !! name member) ++ [member]]> map)
    members ∅.

(** [findMembersByName]: the state, in which the lookup is cached, and the
    list returned. *)
Definition findMembersByName (this : ApiItem) (name : jsstring) (h : Heap)
  : Heap * list ApiItem :=
  let c := containerOf h this in
  match _membersByName c with
  | Some map => (h, default [] (map !! name))
  | None =>
      let map := buildMembersByName (_members c) in
      (mkHeap
         (<[itemKey this :=
              mkContainer (_members c) (_membersSorted c)
                (_membersByCanonicalReference c) (Some map)]> (containers h))
         (ApiItem_parent h),
       default [] (map !! name))
  end.

(** The [for] loop of the constructor over [options.members]: the first
    [addMember] that throws ends it. *)
Fixpoint addEach (this : ApiItem) (members : list ApiItem) (h : Heap)
  : Heap * Result unit :=
  match members with
  | [] => (h, Ok tt)
  | member :: rest =>
      match addMember this member h with
      | (h', Ok _) => addEach this rest h'
      | (h', Error e) => (h', Error e)
      end
  end.

(** The mixin's constructor, for the new object [this]; [members] is
    [options.members]. *)
Definition new (this : ApiItem) (members : option (list ApiItem)) (h : Heap)
  : Heap * Result unit :=
  let h := mkHeap (<[itemKey this := constructed]> (containers h)) (ApiItem_parent h) in
  match members with
  | Some members => addEach this members h
  | None => (h, Ok tt)
  end.

(** A call of one of the two methods that change the state of a
    container. *)
Inductive Call : Type :=
| AddMember (this member : ApiItem)
| FindMembersByName (this : ApiItem) (name : jsstring).

(** A sequence of calls; a call that throws leaves the state as it was and
    the sequence goes on. *)
Fixpoint run (calls : list Call) (h : Heap) : Heap :=
  match calls with
  | [] => h
  | AddMember this member :: rest => run rest (fst (addMember this member h))
  | FindMembersByName this name :: rest => run rest (fst (findMembersByName this name h))
  end.

End ApiItemContainerLookup.

(** ** ApiNamespace.ts *)

Module ApiNamespace.
Import ApiItemContainerMixin.

Definition getCanonicalReference (name : jsstring) : jsstring :=
  lit "(" ++ name ++ lit ":namespace)".

(** An [ApiNamespace] object: its [canonicalReference] accessor is
    computed from its name. *)
Definition apiNamespace (key : positive) (name : jsstring) : ApiItem :=
  mkApiItem key name (getCanonicalReference name).

End ApiNamespace.

Section ContainerRuns.
Import ApiItemContainerMixin ApiItemContainerLookup.

Lemma fold_membersByName (members : list ApiItem)
    (map : gmap jsstring (list ApiItem)) (n : jsstring) :
  default [] (fold_left
                (fun (map : gmap jsstring (list ApiItem)) member =>
                   <[name member := default [] (map !! name member) ++ [member]]> map)
                members map !! n)
  = default [] (map !! n) ++ List.filter (fun m => streq (name m) n) members.
Proof.
  revert map. induction members as [|a members IH]; intros map.
  - simpl. by rewrite app_nil_r.
  - cbn [fold_left List.filter]. rewrite IH. unfold streq.
    case_bool_decide as Hn.
    + rewrite Hn, lookup_insert_eq. cbn [from_option id]. by rewrite <- app_assoc.
    + by rewrite lookup_insert_ne.
Qed.

Lemma buildMembersByName_lookup members n :
  default [] (buildMembersByName members !! n)
  = List.filter (fun m => streq (name m) n) members.
Proof. unfold buildMembersByName. by rewrite fold_membersByName, lookup_empty. Qed.

(** The cached lookup of every container, when there is one, is the one
    that would be built from its members now. *)
Definition cacheFresh (h : Heap) : Prop :=
  forall this map,
    _membersByName (containerOf h this) = Some map ->
    map = buildMembersByName (_members (containerOf h this)).

Lemma containerOf_insert h this k c parents :
  containerOf (mkHeap (<[k := c]> (containers h)) parents) this
  = if decide (k = itemKey this) then c else containerOf h this.
Proof.
  unfold containerOf. cbn [containers]. destruct (decide (k = itemKey this)) as [->|Hne].
  - by rewrite lookup_insert_eq.
  - by rewrite lookup_insert_ne.
Qed.

Lemma cacheFresh_noItems : cacheFresh noItems.
Proof. intros this map. unfold containerOf, noItems. cbn. rewrite lookup_empty. discriminate. Qed.

Lemma cacheFresh_addMember this member h :
  cacheFresh h -> cacheFresh (fst (addMember this member h)).
Proof.
  intros Hc. destruct (addMember this member h) as [h' [[]|message]] eqn:E; cbn [fst].
  - apply addMember_ok in E as (_ & _ & ->). intros c map.
    rewrite containerOf_insert. destruct (decide _); [discriminate|apply Hc].
  - by apply addMember_error in E as ->.
Qed.

Lemma cacheFresh_findMembersByName this n h :
  cacheFresh h -> cacheFresh (fst (findMembersByName this n h)).
Proof.
  intros Hc. unfold findMembersByName.
  destruct (_membersByName (containerOf h this)) eqn:E; cbn [fst]; [done|].
  intros c map. rewrite containerOf_insert. destruct (decide _); [|apply Hc].
  cbn. by intros [= <-].
Qed.

Lemma cacheFresh_run calls h : cacheFresh h -> cacheFresh (run calls h).
Proof.
  revert h. induction calls as [|[this member|this n] calls IH]; intros h Hc; [done| |];
    cbn [run]; apply IH.
  - by apply cacheFresh_addMember.
  - by apply cacheFresh_findMembersByName.
Qed.

(** X13.  After any sequence of [addMember] and [findMembersByName] calls
    on containers that were empty at first, [findMembersByName] returns
    the members of the container that have the name asked for, in the
    order in which they were added: the cached lookup is never stale. *)
Theorem findMembersByName_lists_members (calls : list Call) (this : ApiItem)
    (n : jsstring) :
  snd (findMembersByName this n (run calls noItems))
  = List.filter (fun m => streq (name m) n)
      (_members (containerOf (run calls noItems) this)).
Proof.
  pose proof (cacheFresh_run calls noItems cacheFresh_noItems) as Hc.
  unfold findMembersByName.
  destruct (_membersByName (containerOf (run calls noItems) this)) as [map|] eqn:E;
    cbn [snd].
  - rewrite (Hc this map E). apply buildMembersByName_lookup.
  - apply buildMembersByName_lookup.
Qed.

(** The members of a container and its lookup by canonical reference hold
    the same items, and every member has the container as its parent. *)
Definition consistent (h : Heap) : Prop :=
  forall this,
    (forall reference m,
        tryGetMember this reference h = Some m
        <-> m ∈ _members (containerOf h this) /\ canonicalReference m = reference)
    /\ (forall m, m ∈ _members (containerOf h this) ->
          exists p, ApiItem_parent h !! itemKey m = Some p /\ itemKey p = itemKey this)
    /\ NoDup (itemKey <$> _members (containerOf h this)).

Lemma consistent_noItems : consistent noItems.
Proof.
  intros this. unfold tryGetMember, containerOf, noItems. cbn. rewrite lookup_empty. cbn.
  split; [|split].
  - intros reference m. rewrite lookup_empty. split; [discriminate|].
    intros [Hin _]. by apply elem_of_nil in Hin.
  - intros m Hin. by apply elem_of_nil in Hin.
  - constructor.
Qed.

Lemma consistent_addMember this member h :
  consistent h -> consistent (fst (addMember this member h)).
Proof.
  intros Hc. destruct (addMember this member h) as [h' [[]|message]] eqn:E; cbn [fst].
  2: { by apply addMember_error in E as ->. }
  apply addMember_ok in E as (Hnew & Hparent & ->). intros c.
  destruct (Hc c) as (Hlookup & Hp & Hnd).
  unfold tryGetMember in *. rewrite containerOf_insert.
  destruct (decide (itemKey this = itemKey c)) as [Hk|Hk].
  - assert (Hcc : containerOf h this = containerOf h c)
      by (unfold containerOf; by rewrite Hk).
    rewrite Hcc in *. cbn. split; [|split].
    + intros reference m. rewrite elem_of_app, list_elem_of_singleton.
      destruct (decide (canonicalReference member = reference)) as [<-|Hr].
      * rewrite lookup_insert_eq. split.
        -- intros [= <-]. auto.
        -- intros [[Hin| ->] Hr]; [|done].
           pose proof (proj2 (Hlookup _ _) (conj Hin Hr)). congruence.
      * rewrite lookup_insert_ne by done. rewrite (Hlookup reference m).
        split; [tauto|]. intros [[Hin| ->] Hr']; [tauto|done].
    + intros m. rewrite elem_of_app, list_elem_of_singleton. intros [Hin| ->].
      * destruct (Hp m Hin) as (p & Hpm & Hpk).
        destruct (decide (itemKey member = itemKey m)) as [Hm|Hm].
        -- rewrite Hm in Hparent. congruence.
        -- rewrite lookup_insert_ne by done. eauto.
      * rewrite lookup_insert_eq. eauto.
    + rewrite fmap_app. apply NoDup_app. split; [exact Hnd|]. split; [|apply NoDup_singleton].
      intros k Hin Hin'. apply list_elem_of_singleton in Hin'. subst k.
      apply list_elem_of_fmap in Hin as (m & Hm & Hin).
      destruct (Hp m Hin) as (p & Hpm & _). rewrite <- Hm in Hpm. congruence.
  - split; [exact Hlookup|]. split; [|exact Hnd].
    intros m Hin. destruct (Hp m Hin) as (p & Hpm & Hpk).
    destruct (decide (itemKey member = itemKey m)) as [Hm|Hm].
    + rewrite Hm in Hparent. congruence.
    + cbn. rewrite lookup_insert_ne by done. eauto.
Qed.

Lemma consistent_findMembersByName this n h :
  consistent h -> consistent (fst (findMembersByName this n h)).
Proof.
  intros Hc. unfold findMembersByName.
  destruct (_membersByName (containerOf h this)) eqn:E; cbn [fst]; [done|].
  intros c. destruct (Hc c) as (Hlookup & Hp & Hnd).
  unfold tryGetMember in *. rewrite containerOf_insert.
  destruct (decide (itemKey this = itemKey c)) as [Hk|Hk]; [|done].
  assert (Hcc : containerOf h this = containerOf h c)
    by (unfold containerOf; by rewrite Hk).
  rewrite Hcc in *. done.
Qed.

Lemma consistent_run calls h : consistent h -> consistent (run calls h).
Proof.
  revert h. induction calls as [|[this member|this n] calls IH]; intros h Hc; [done| |];
    cbn [run]; apply IH.
  - by apply consistent_addMember.
  - by apply consistent_findMembersByName.
Qed.

(** X14.  After any sequence of calls on containers that were empty at
    first, [tryGetMember] finds an item under a canonical reference
    exactly when the item is a member of the container and has that
    canonical reference. *)
Theorem tryGetMember_finds_the_members (calls : list Call) (this : ApiItem)
    (reference : jsstring) (m : ApiItem) :
  tryGetMember this reference (run calls noItems) = Some m
  <-> m ∈ _members (containerOf (run calls noItems) this)
      /\ canonicalReference m = reference.
Proof. apply (consistent_run calls noItems consistent_noItems this). Qed.

(** X15.  After any sequence of calls on containers that were empty at
    first, no item is a member of two containers and no item is listed
    twice in one: an item is a member of the container that is its
    parent, and the members of a container are distinct items with
    distinct canonical references. *)
Theorem member_of_one_container (calls : list Call) (this other : ApiItem)
    (m m' : ApiItem) :
  let h := run calls noItems in
  (m ∈ _members (containerOf h this) ->
   m' ∈ _members (containerOf h other) ->
   itemKey m = itemKey m' -> itemKey this = itemKey other)
  /\ NoDup (itemKey <$> _members (containerOf h this))
  /\ NoDup (canonicalReference <$> _members (containerOf h this)).
Proof.
  intros h. pose proof (consistent_run calls noItems consistent_noItems) as Hc.
  fold h in Hc. split; [|split].
  - intros Hin Hin' Hk.
    destruct (Hc this) as (_ & Hp & _). destruct (Hc other) as (_ & Hp' & _).
    destruct (Hp m Hin) as (p & Hpm & Hpk). destruct (Hp' m' Hin') as (p' & Hpm' & Hpk').
    rewrite Hk in Hpm. congruence.
  - apply (Hc this).
  - destruct (Hc this) as (Hlookup & _ & Hnd).
    revert Hnd Hlookup. generalize (_members (containerOf h this)) as l.
    generalize (tryGetMember this) as get. intros get l Hnd Hlookup.
    assert (Hinj : forall a b, a ∈ l -> b ∈ l ->
                     canonicalReference a = canonicalReference b -> a = b).
    { intros a b Ha Hb Hab.
      pose proof (proj2 (Hlookup (canonicalReference a) a) (conj Ha eq_refl)) as E1.
      pose proof (proj2 (Hlookup (canonicalReference a) b) (conj Hb (eq_sym Hab))) as E2.
      congruence. }
    clear Hlookup. induction l as [|a l IH]; [constructor|].
    cbn in Hnd. apply NoDup_cons in Hnd as [Hna Hnd]. cbn. apply NoDup_cons. split.
    + intros Hin. apply list_elem_of_fmap in Hin as (b & Hb & Hin).
      assert (a = b) as -> by (apply Hinj; [left|by right|done]).
      apply Hna. apply list_elem_of_fmap. eauto.
    + apply IH; [exact Hnd|]. intros x y Hx Hy. apply Hinj; by right.
Qed.

End ContainerRuns.

Section ContainerConstruction.
Import ApiItemContainerMixin ApiItemContainerLookup.

Lemma addMember_success_iff this member h :
  snd (addMember this member h) = Ok tt
  <-> tryGetMember this (canonicalReference member) h = None
      /\ ApiItem_parent h !! itemKey member = None.
Proof.
  split.
  - destruct (addMember this member h) as [h' r] eqn:E. cbn [snd]. intros ->.
    apply addMember_ok in E. tauto.
  - intros [Hr Hp]. unfold addMember, tryGetMember in *. rewrite Hr, Hp.
    by rewrite bool_decide_eq_false_2 by (by intros [? ?]).
Qed.

Lemma addMember_success_state this member h :
  snd (addMember this member h) = Ok tt ->
  let h' := fst (addMember this member h) in
  _members (containerOf h' this) = _members (containerOf h this) ++ [member]
  /\ (forall reference,
         tryGetMember this reference h'
         = if decide (canonicalReference member = reference) then Some member
           else tryGetMember this reference h)
  /\ (forall k,
         ApiItem_parent h' !! k
         = if decide (itemKey member = k) then Some this else ApiItem_parent h !! k).
Proof.
  destruct (addMember this member h) as [h' r] eqn:E. cbn [snd fst]. intros ->.
  apply addMember_ok in E as (_ & _ & ->). unfold tryGetMember.
  rewrite containerOf_insert. destruct (decide _); [|done]. cbn. split; [done|split].
  - intros reference. destruct (decide _) as [<-|Hne].
    + by rewrite lookup_insert_eq.
    + by rewrite lookup_insert_ne.
  - intros k. destruct (decide _) as [<-|Hne].
    + by rewrite lookup_insert_eq.
    + by rewrite lookup_insert_ne.
Qed.

Lemma addEach_cons this member rest h :
  addEach this (member :: rest) h
  = if isError (snd (addMember this member h)) then addMember this member h
    else addEach this rest (fst (addMember this member h)).
Proof.
  cbn [addEach]. by destruct (addMember this member h) as [h' [[]|message]].
Qed.

Lemma addEach_success_iff this members : forall h,
  snd (addEach this members h) = Ok tt
  <-> NoDup (canonicalReference <$> members)
      /\ NoDup (itemKey <$> members)
      /\ Forall (fun m => tryGetMember this (canonicalReference m) h = None) members
      /\ Forall (fun m => ApiItem_parent h !! itemKey m = None) members.
Proof.
  induction members as [|member rest IH]; intros h.
  - cbn. split; [intros _|done]. repeat split; constructor.
  - rewrite addEach_cons.
    destruct (snd (addMember this member h)) as [[]|message] eqn:E; cbn [isError].
    + destruct (addMember_success_state this member h E) as (_ & Hget & Hpar).
      apply addMember_success_iff in E as [Hr Hp].
      rewrite IH. cbn [fmap list_fmap]. rewrite !NoDup_cons, !Forall_cons.
      rewrite !Forall_forall. setoid_rewrite Hget. setoid_rewrite Hpar.
      split.
      * intros (Hn1 & Hn2 & Hf1 & Hf2). repeat split; try done.
        -- intros Hin. apply list_elem_of_fmap in Hin as (m & Hm & Hin).
           specialize (Hf1 m Hin). by destruct (decide _).
        -- intros Hin. apply list_elem_of_fmap in Hin as (m & Hm & Hin).
           specialize (Hf2 m Hin). by destruct (decide _).
        -- intros m Hin. specialize (Hf1 m Hin). by destruct (decide _).
        -- intros m Hin. specialize (Hf2 m Hin). by destruct (decide _).
      * intros ((Hn1 & Hnd1) & (Hn2 & Hnd2) & (_ & Hf1) & (_ & Hf2)).
        repeat split; try done.
        -- intros m Hin. destruct (decide _) as [Heq|_]; [|by apply Hf1].
           destruct Hn1. apply list_elem_of_fmap. eauto.
        -- intros m Hin. destruct (decide _) as [Heq|_]; [|by apply Hf2].
           destruct Hn2. apply list_elem_of_fmap. eauto.
    + split.
      * rewrite E. discriminate.
      * intros (_ & _ & Hf1 & Hf2). apply Forall_cons in Hf1 as [Hr _].
        apply Forall_cons in Hf2 as [Hp _].
        pose proof (proj2 (addMember_success_iff this member h) (conj Hr Hp)). congruence.
Qed.

Lemma addEach_success_state this members : forall h,
  snd (addEach this members h) = Ok tt ->
  let h' := fst (addEach this members h) in
  _members (containerOf h' this) = _members (containerOf h this) ++ members
  /\ (forall reference m, tryGetMember this reference h = Some m ->
                          tryGetMember this reference h' = Some m)
  /\ (forall k p, ApiItem_parent h !! k = Some p -> ApiItem_parent h' !! k = Some p)
  /\ Forall (fun m => tryGetMember this (canonicalReference m) h' = Some m
                      /\ ApiItem_parent h' !! itemKey m = Some this) members.
Proof.
  induction members as [|member rest IH]; intros h.
  - cbn. intros _. rewrite app_nil_r. repeat split; auto.
  - rewrite addEach_cons.
    destruct (snd (addMember this member h)) as [[]|message] eqn:E; cbn [isError].
    2: { rewrite E. discriminate. }
    intros Hrest. destruct (IH _ Hrest) as (Hm & Hkeep1 & Hkeep2 & Hall).
    destruct (addMember_success_state this member h E) as (Hm1 & Hget & Hpar).
    apply addMember_success_iff in E as [Hr Hp].
    cbv zeta. rewrite Hm, Hm1, <- app_assoc. split; [done|]. split; [|split].
    + intros reference m Hin. apply Hkeep1. rewrite Hget.
      destruct (decide _) as [<-|]; [congruence|done].
    + intros k p Hin. apply Hkeep2. rewrite Hpar.
      destruct (decide _) as [<-|]; [congruence|done].
    + apply Forall_cons. split; [|exact Hall]. split.
      * apply Hkeep1. rewrite Hget. by destruct (decide _).
      * apply Hkeep2. rewrite Hpar. by destruct (decide _).
Qed.

(** X16.  The constructor of a container given [options.members] succeeds
    exactly when the members have distinct canonical references, are
    distinct items and none has a parent yet; it then holds the members in
    the order given, each with the new container as its parent and found
    by [tryGetMember] under its canonical reference. *)
Theorem new_with_members (this : ApiItem) (members : list ApiItem) (h : Heap) :
  (snd (new this (Some members) h) = Ok tt
   <-> NoDup (canonicalReference <$> members)
       /\ NoDup (itemKey <$> members)
       /\ Forall (fun m => ApiItem_parent h !! itemKey m = None) members)
  /\ (snd (new this (Some members) h) = Ok tt ->
      let h' := fst (new this (Some members) h) in
      _members (containerOf h' this) = members
      /\ Forall (fun m => tryGetMember this (canonicalReference m) h' = Some m
                          /\ ApiItem_parent h' !! itemKey m = Some this) members).
Proof.
  unfold new. split.
  - rewrite addEach_success_iff. cbn [ApiItem_parent].
    assert (Hfresh : Forall (fun m =>
                tryGetMember this (canonicalReference m)
                  (mkHeap (<[itemKey this := constructed]> (containers h))
                     (ApiItem_parent h)) = None) members).
    { apply Forall_forall. intros m _. unfold tryGetMember.
      rewrite containerOf_insert. destruct (decide _); [|done]. apply lookup_empty. }
    tauto.
  - intros Hok. destruct (addEach_success_state _ _ _ Hok) as (Hm & _ & _ & Hall).
    cbv zeta. split; [|exact Hall]. rewrite Hm, containerOf_insert.
    by destruct (decide _).
Qed.

Lemma new_with_members_witness :
  snd (new namespace1 (Some [class3; namespace2]) noItems) = Ok tt
  /\ _members (containerOf (fst (new namespace1 (Some [class3; namespace2]) noItems))
                 namespace1) = [class3; namespace2]
  /\ isError (snd (new namespace1 (Some [class3; class4]) noItems)) = true.
Proof.
  assert (Hok : snd (new namespace1 (Some [class3; namespace2]) noItems) = Ok tt)
    by (vm_compute; reflexivity).
  split; [exact Hok|]. split.
  - exact (proj1 (proj2 (new_with_members namespace1 [class3; namespace2] noItems) Hok)).
  - destruct (snd (new namespace1 (Some [class3; class4]) noItems)) as [[]|message] eqn:E;
      [|reflexivity].
    apply (proj1 (new_with_members namespace1 [class3; class4] noItems)) in E
      as (Hnd & _). exfalso. revert Hnd. vm_compute. intros Hnd.
    apply NoDup_cons in Hnd as [Hn _]. apply Hn. left.
Defined.

End ContainerConstruction.

Section Namespaces.
Import ApiItemContainerMixin ApiItemContainerLookup ApiNamespace.

Lemma getCanonicalReference_inj n n' :
  getCanonicalReference n = getCanonicalReference n' -> n = n'.
Proof.
  unfold getCanonicalReference. intros H.
  apply app_inv_head in H. by apply app_inv_tail in H.
Qed.

(** X17.  Two namespaces have the same canonical reference exactly when
    they have the same name; so a container that has a namespace as a
    member rejects another namespace of that name, and does not reject a
    parentless namespace whose name none of its members' canonical
    references stands for. *)
Theorem namespace_names_unique (calls : list Call) (this : ApiItem)
    (key key' : positive) (n n' : jsstring) :
  let h := run calls noItems in
  (canonicalReference (apiNamespace key n) = canonicalReference (apiNamespace key' n')
   <-> n = n')
  /\ (apiNamespace key' n' ∈ _members (containerOf h this) ->
      n = n' ->
      addMember this (apiNamespace key n) h
      = (h, Error (lit "Another member has already been added with the same name and canonicalReference")))
  /\ (ApiItem_parent h !! key = None ->
      (forall m, m ∈ _members (containerOf h this) ->
                 canonicalReference m <> getCanonicalReference n) ->
      snd (addMember this (apiNamespace key n) h) = Ok tt).
Proof.
  intros h. split; [|split].
  - cbn. split; [apply getCanonicalReference_inj|by intros ->].
  - intros Hin ->.
    pose proof (proj2 (proj1 (consistent_run calls noItems consistent_noItems this)
                         (getCanonicalReference n') (apiNamespace key' n'))
                  (conj Hin eq_refl)) as Hget.
    fold h in Hget. unfold addMember, tryGetMember in *. cbn [canonicalReference apiNamespace].
    rewrite Hget. by rewrite bool_decide_eq_true_2 by eauto.
  - intros Hp Hfree. apply addMember_success_iff. split; [|exact Hp].
    destruct (tryGetMember this (canonicalReference (apiNamespace key n)) h) as [m|] eqn:E;
      [|done].
    apply (proj1 (consistent_run calls noItems consistent_noItems this)) in E as [Hin Hr].
    by destruct (Hfree m Hin).
Qed.

End Namespaces.

Section ContainerRunExamples.
Import ApiItemContainerMixin ApiItemContainerLookup ApiNamespace.

Definition shared_class : list Call :=
  [AddMember namespace1 class3; AddMember namespace2 class3].

Lemma member_of_one_container_witness :
  class3 ∈ _members (containerOf (run shared_class noItems) namespace1)
  /\ class3 ∉ _members (containerOf (run shared_class noItems) namespace2).
Proof.
  assert (Hin : class3 ∈ _members (containerOf (run shared_class noItems) namespace1))
    by (vm_compute; left).
  split; [exact Hin|]. intros Hin'.
  pose proof (proj1 (member_of_one_container shared_class namespace1 namespace2
                       class3 class3) Hin Hin' eq_refl) as Hk.
  discriminate Hk.
Defined.

Definition nested_namespace : list Call :=
  [AddMember namespace1 (apiNamespace 5%positive (lit "inner"))].

Lemma namespace_names_unique_witness :
  isError (snd (addMember namespace1 (apiNamespace 6%positive (lit "inner"))
                  (run nested_namespace noItems))) = true.
Proof.
  assert (Hin : apiNamespace 5%positive (lit "inner")
                ∈ _members (containerOf (run nested_namespace noItems) namespace1))
    by (vm_compute; left).
  rewrite (proj1 (proj2 (namespace_names_unique nested_namespace namespace1
                           6%positive 5%positive (lit "inner") (lit "inner")))
             Hin eq_refl).
  reflexivity.
Defined.

End ContainerRunExamples.

(** ** The Ast graph over a run of calls *)

Module AstCalls.
Import AstDeclaration.

(** A call of one of the two callbacks of a declaration, or the end of
    the analysis of a symbol. *)
Inductive Call : Type :=
| NotifyChildAttach (this child : AstDeclaration)
| NotifyReferencedAstSymbol (this : AstDeclaration) (referencedAstSymbol : AstSymbol)
| MarkAnalyzed (s : AstSymbol).

Definition step (call : Call) (h : Heap) : Heap :=
  match call with
  | NotifyChildAttach this child => fst (_notifyChildAttach this child h)
  | NotifyReferencedAstSymbol this s => fst (_notifyReferencedAstSymbol this s h)
  | MarkAnalyzed s => markAnalyzed s h
  end.

(** A sequence of calls; a call that throws leaves the state as it was and
    the sequence goes on. *)
Definition run (calls : list Call) (h : Heap) : Heap :=
  fold_left (fun h call => step call h) calls h.

End AstCalls.

Section AstRuns.
Import AstDeclaration AstCalls.

Lemma step_grows call h d :
  analyzedSymbols h ⊆ analyzedSymbols (step call h)
  /\ analyzedChildrenOf h d `prefix_of` analyzedChildrenOf (step call h) d
  /\ referencedSetOf h d `prefix_of` referencedSetOf (step call h) d
  /\ (analyzed h (astSymbol d) = true ->
      analyzedChildrenOf (step call h) d = analyzedChildrenOf h d
      /\ referencedSetOf (step call h) d = referencedSetOf h d).
Proof.
  destruct call as [this child|this s|s]; cbn [step].
  - unfold _notifyChildAttach. case_bool_decide; [by cbn|].
    destruct (analyzed h (astSymbol this)) eqn:Ha; [by cbn|]. cbn [fst].
    unfold analyzedChildrenOf, referencedSetOf. cbn.
    destruct (decide (this = d)) as [->|Hne].
    + rewrite lookup_insert_eq. cbn. repeat split; try done.
      * by apply prefix_app_r.
      * congruence.
    + by rewrite lookup_insert_ne.
  - unfold _notifyReferencedAstSymbol.
    destruct (analyzed h (astSymbol this)) eqn:Ha; [by cbn|].
    destruct (alreadyCovered h s this); [by cbn|]. cbn [fst].
    unfold analyzedChildrenOf, referencedSetOf. cbn.
    destruct (decide (this = d)) as [->|Hne].
    + rewrite lookup_insert_eq. cbn. repeat split; try done.
      * unfold setAdd. destruct (setHas _ _); [done|]. by apply prefix_app_r.
      * congruence.
    + by rewrite lookup_insert_ne.
  - unfold markAnalyzed, analyzedChildrenOf, referencedSetOf. cbn.
    repeat split; try done. set_solver.
Qed.

Lemma analyzed_mono h h' s :
  analyzedSymbols h ⊆ analyzedSymbols h' -> analyzed h s = true -> analyzed h' s = true.
Proof.
  unfold analyzed. intros Hsub Ha. apply bool_decide_eq_true in Ha.
  apply bool_decide_eq_true_2. set_solver.
Qed.

Lemma run_snoc calls call h : run (calls ++ [call]) h = step call (run calls h).
Proof. unfold run. by rewrite fold_left_app. Qed.

Lemma run_grows calls h d :
  analyzedSymbols h ⊆ analyzedSymbols (run calls h)
  /\ analyzedChildrenOf h d `prefix_of` analyzedChildrenOf (run calls h) d
  /\ referencedSetOf h d `prefix_of` referencedSetOf (run calls h) d
  /\ (analyzed h (astSymbol d) = true ->
      analyzedChildrenOf (run calls h) d = analyzedChildrenOf h d
      /\ referencedSetOf (run calls h) d = referencedSetOf h d).
Proof.
  induction calls as [|call calls IH] using rev_ind; [by cbn|].
  rewrite run_snoc. destruct IH as (IH1 & IH2 & IH3 & IH4).
  destruct (step_grows call (run calls h) d) as (S1 & S2 & S3 & S4).
  split; [by etrans|]. split; [by etrans|]. split; [by etrans|].
  intros Ha. destruct (IH4 Ha) as [E1 E2].
  destruct (S4 (analyzed_mono _ _ _ IH1 Ha)) as [E3 E4]. split; congruence.
Qed.

(** X18.  Whatever calls follow, the children list and the reference set of
    a declaration only grow at the end: what was recorded stays, in its
    order, and a symbol that is analyzed stays analyzed. *)
Theorem collections_only_grow (calls : list Call) (h : Heap) (d : AstDeclaration)
    (s : AstSymbol) :
  analyzedChildrenOf h d `prefix_of` analyzedChildrenOf (run calls h) d
  /\ referencedSetOf h d `prefix_of` referencedSetOf (run calls h) d
  /\ (analyzed h s = true -> analyzed (run calls h) s = true).
Proof.
  destruct (run_grows calls h d) as (H1 & H2 & H3 & _).
  split; [exact H2|]. split; [exact H3|]. by apply analyzed_mono.
Qed.

Lemma collections_only_grow_witness :
  [nested2] `prefix_of`
    analyzedChildrenOf
      (run [NotifyChildAttach root1 nested3; MarkAnalyzed 1%positive;
            NotifyChildAttach root1 nested2]
         (run [NotifyChildAttach root1 nested2] emptyHeap)) root1.
Proof.
  exact (proj1 (collections_only_grow
                  [NotifyChildAttach root1 nested3; MarkAnalyzed 1%positive;
                   NotifyChildAttach root1 nested2]
                  (run [NotifyChildAttach root1 nested2] emptyHeap) root1 1%positive)).
Defined.

(** X19.  Once the symbol of a declaration is analyzed, what [children] and
    [referencedAstSymbols] return for it never changes again, whatever
    calls follow, on this declaration or on any other. *)
Theorem accessors_stable_after_analysis (calls : list Call) (h : Heap)
    (d : AstDeclaration) :
  analyzed h (astSymbol d) = true ->
  children (run calls h) d = children h d
  /\ referencedAstSymbols (run calls h) d = referencedAstSymbols h d.
Proof.
  intros Ha. destruct (run_grows calls h d) as (H1 & _ & _ & H4).
  destruct (H4 Ha) as [E1 E2]. unfold children, referencedAstSymbols.
  by rewrite Ha, (analyzed_mono _ _ _ H1 Ha), E1, E2.
Qed.

Definition attached_then_analyzed : Heap :=
  run [NotifyChildAttach root1 nested2; NotifyReferencedAstSymbol root1 7%positive;
       MarkAnalyzed 1%positive] emptyHeap.

Lemma accessors_stable_after_analysis_witness :
  children (run [NotifyChildAttach root1 nested3;
                 NotifyReferencedAstSymbol root1 8%positive;
                 NotifyChildAttach nested2 (mkAstDeclaration 4%positive 4%positive (Some nested2))]
              attached_then_analyzed) root1 = [nested2]
  /\ referencedAstSymbols
       (run [NotifyChildAttach root1 nested3;
             NotifyReferencedAstSymbol root1 8%positive;
             NotifyChildAttach nested2 (mkAstDeclaration 4%positive 4%positive (Some nested2))]
          attached_then_analyzed) root1 = [7%positive].
Proof.
  refine (accessors_stable_after_analysis _ attached_then_analyzed root1 _).
  vm_compute. reflexivity.
Defined.

Lemma setHas_setAdd s set : setHas s (setAdd s set) = true.
Proof.
  unfold setAdd. destruct (setHas s set) eqn:E; [exact E|].
  apply bool_decide_eq_true_2, elem_of_app. right. left.
Qed.

(** X20.  Recording a reference a second time changes nothing: the second
    call returns as the first did and leaves the state the first call
    left. *)
Theorem _notifyReferencedAstSymbol_idempotent (this : AstDeclaration) (s : AstSymbol)
    (h : Heap) :
  _notifyReferencedAstSymbol this s (fst (_notifyReferencedAstSymbol this s h))
  = _notifyReferencedAstSymbol this s h.
Proof.
  unfold _notifyReferencedAstSymbol at 2 3.
  destruct (analyzed h (astSymbol this)) eqn:Ha.
  { cbn [fst]. unfold _notifyReferencedAstSymbol. by rewrite Ha. }
  destruct (alreadyCovered h s this) eqn:Hcov.
  { cbn [fst]. unfold _notifyReferencedAstSymbol. by rewrite Ha, Hcov. }
  cbn [fst]. unfold _notifyReferencedAstSymbol.
  change (analyzed (mkHeap (analyzedSymbols h) _ _) (astSymbol this))
    with (analyzed h (astSymbol this)). rewrite Ha.
  match goal with |- context [alreadyCovered ?h1 s this] =>
    assert (Hc1 : alreadyCovered h1 s this = true) end.
  { destruct this as [n sy p]. cbn [alreadyCovered].
    unfold referencedSetOf at 1. cbn. rewrite lookup_insert_eq. cbn.
    by rewrite setHas_setAdd. }
  by rewrite Hc1.
Qed.

(** Every declaration listed as a child of [this] has [this] as its
    parent. *)
Definition childrenHaveParent (h : Heap) : Prop :=
  forall this c, c ∈ analyzedChildrenOf h this -> parent c = Some this.

Lemma childrenHaveParent_step call h :
  childrenHaveParent h -> childrenHaveParent (step call h).
Proof.
  intros Hc. destruct call as [this child|this s|s]; cbn [step].
  - unfold _notifyChildAttach. case_bool_decide as Hp; [by cbn|].
    destruct (analyzed h (astSymbol this)); [by cbn|]. cbn [fst].
    intros d c. unfold analyzedChildrenOf. cbn.
    destruct (decide (this = d)) as [->|Hne].
    + rewrite lookup_insert_eq. cbn. rewrite elem_of_app, list_elem_of_singleton.
      intros [Hin| ->]; [by apply Hc|]. by destruct (decide (parent child = Some d)).
    + rewrite lookup_insert_ne by done. apply Hc.
  - unfold _notifyReferencedAstSymbol. by repeat case_match.
  - done.
Qed.

Lemma childrenHaveParent_run calls h :
  childrenHaveParent h -> childrenHaveParent (run calls h).
Proof.
  induction calls as [|call calls IH] using rev_ind; [done|].
  rewrite run_snoc. intros Hc. by apply childrenHaveParent_step, IH.
Qed.

Lemma childrenHaveParent_emptyHeap : childrenHaveParent emptyHeap.
Proof.
  intros d x. unfold analyzedChildrenOf, emptyHeap. cbn. rewrite lookup_empty.
  cbn. by intros ?%elem_of_nil.
Qed.

Lemma selfAndAncestors_length_parent d p :
  parent d = Some p -> length (selfAndAncestors d) = S (length (selfAndAncestors p)).
Proof. destruct d as [n s q]. cbn. by intros ->. Qed.

(** X21.  After any sequence of calls on a graph that was empty at first,
    every declaration that [children] returns for a declaration has that
    declaration as its parent; so no declaration is its own child. *)
Theorem children_have_this_parent (calls : list Call) (this c : AstDeclaration) :
  c ∈ children (run calls emptyHeap) this ->
  parent c = Some this /\ c <> this.
Proof.
  intros Hin.
  assert (Hp : parent c = Some this).
  { apply (childrenHaveParent_run calls emptyHeap childrenHaveParent_emptyHeap).
    unfold children in Hin. destruct (analyzed _ _); [done|by apply elem_of_nil in Hin]. }
  split; [exact Hp|]. intros ->.
  apply selfAndAncestors_length_parent in Hp. lia.
Qed.

Lemma children_have_this_parent_witness :
  parent nested2 = Some root1 /\ nested2 <> root1.
Proof.
  refine (children_have_this_parent
            [NotifyChildAttach root1 nested2; NotifyChildAttach nested2 root1;
             MarkAnalyzed 1%positive] root1 nested2 _).
  vm_compute. left.
Defined.

End AstRuns.

(** ** The traversal of the declarations *)

Module AstTraversal.
Import AstDeclaration.

(** [forEachDeclarationRecursive]: the declarations [action] is called
    with, in the order of the calls, over the graph as it is when the
    traversal starts; [None] when [fuel] nested calls do not reach the
    leaves. *)
Fixpoint forEachDeclarationRecursive (fuel : nat) (h : Heap) (this : AstDeclaration)
  : option (list AstDeclaration) :=
  match fuel with
  | 0 => None
  | S fuel =>
      visited ← mapM (forEachDeclarationRecursive fuel h) (children h this);
      Some (this :: concat visited)
  end.

End AstTraversal.

Section Traversal.
Import AstDeclaration AstCalls AstTraversal.

Definition depth (d : AstDeclaration) : nat := length (selfAndAncestors d).

Lemma forEach_more_fuel h fuel : forall this visited,
  forEachDeclarationRecursive fuel h this = Some visited ->
  forEachDeclarationRecursive (S fuel) h this = Some visited.
Proof.
  induction fuel as [|fuel IH]; intros this visited; [discriminate|].
  intros Hrun. cbn [forEachDeclarationRecursive] in Hrun.
  destruct (mapM (forEachDeclarationRecursive fuel h) (children h this)) as [vs|] eqn:E;
    [|discriminate].
  change (forEachDeclarationRecursive (S (S fuel)) h this)
    with (mapM (forEachDeclarationRecursive (S fuel) h) (children h this)
          ≫= fun vs => Some (this :: concat vs)).
  apply mapM_Some in E.
  assert (E' : mapM (forEachDeclarationRecursive (S fuel) h) (children h this) = Some vs).
  { apply mapM_Some. eapply Forall2_impl; [exact E|]. intros c v. apply IH. }
  by rewrite E'.
Qed.

Lemma forEach_fuel_le h fuel fuel' this visited :
  fuel <= fuel' ->
  forEachDeclarationRecursive fuel h this = Some visited ->
  forEachDeclarationRecursive fuel' h this = Some visited.
Proof. induction 1 as [|fuel' _ IH]; [done|]. intros H. by apply forEach_more_fuel, IH. Qed.

Lemma children_depth h this c :
  childrenHaveParent h -> c ∈ children h this -> depth c = S (depth this).
Proof.
  intros Hc Hin. apply selfAndAncestors_length_parent, Hc.
  unfold children in Hin. destruct (analyzed _ _); [done|by apply elem_of_nil in Hin].
Qed.

Lemma depth_bound h :
  exists bound, forall d c, c ∈ children h d -> depth d <= bound.
Proof.
  exists (max_list (depth <$> (map_to_list (_analyzedChildren h)).*1)).
  intros d c Hin. apply max_list_elem_of_le, list_elem_of_fmap. exists d. split; [done|].
  unfold children, analyzedChildrenOf in Hin.
  destruct (analyzed _ _); [|by apply elem_of_nil in Hin].
  destruct (_analyzedChildren h !! d) as [l|] eqn:E; [|by apply elem_of_nil in Hin].
  apply list_elem_of_fmap. exists (d, l). split; [done|]. by apply elem_of_map_to_list.
Qed.

Lemma forEach_terminates h bound :
  childrenHaveParent h ->
  (forall d c, c ∈ children h d -> depth d <= bound) ->
  forall k this, bound < depth this + k ->
                 is_Some (forEachDeclarationRecursive (S k) h this).
Proof.
  intros Hc Hbound. induction k as [|k IH]; intros this Hk.
  - cbn [forEachDeclarationRecursive].
    destruct (children h this) as [|c cs] eqn:E; [by eexists|].
    assert (depth this <= bound) by (apply (Hbound this c); rewrite E; left). lia.
  - change (forEachDeclarationRecursive (S (S k)) h this)
      with (mapM (forEachDeclarationRecursive (S k) h) (children h this)
            ≫= fun vs => Some (this :: concat vs)).
    destruct (mapM_is_Some_2 (forEachDeclarationRecursive (S k) h) (children h this))
      as [vs E].
    + apply Forall_forall. intros c Hin. apply IH.
      rewrite (children_depth h this c Hc Hin). lia.
    + rewrite E. by eexists.
Qed.

Lemma ancestors_of_child c this d :
  parent c = Some this -> d ∈ selfAndAncestors c -> d = c \/ d ∈ selfAndAncestors this.
Proof.
  destruct c as [n s p]. cbn. intros ->. rewrite elem_of_cons. tauto.
Qed.

Lemma ancestors_trans a b c :
  a ∈ selfAndAncestors b -> b ∈ ancestors c -> a ∈ ancestors c.
Proof.
  revert a b. induction c as [n s|n s p IH] using AstDeclaration_chain_ind; intros a b Ha Hb.
  - by apply elem_of_nil in Hb.
  - unfold ancestors in *. cbn [parent] in *. rewrite selfAndAncestors_unfold in Hb |- *.
    apply elem_of_cons in Hb as [->|Hb].
    + by rewrite <- selfAndAncestors_unfold.
    + right. by apply (IH a b).
Qed.

Lemma parent_in_ancestors c this : parent c = Some this -> this ∈ ancestors c.
Proof. unfold ancestors. intros ->. rewrite selfAndAncestors_unfold. left. Qed.

Lemma visits_of_children h this (f : AstDeclaration -> option (list AstDeclaration)) cs vs :
  (forall c v, f c = Some v ->
     exists visited,
       v = c :: visited
       /\ Forall (fun d => c ∈ ancestors d) visited
       /\ (forall d c', d ∈ c :: visited -> c' ∈ children h d -> c' ∈ visited)) ->
  Forall (fun c => parent c = Some this) cs ->
  Forall2 (fun c v => f c = Some v) cs vs ->
  Forall (fun d => this ∈ ancestors d) (concat vs)
  /\ (forall c, c ∈ cs -> c ∈ concat vs)
  /\ (forall d c', d ∈ concat vs -> c' ∈ children h d -> c' ∈ concat vs).
Proof.
  intros Hf Hp H2. induction H2 as [|c v cs vs Hcv _ IH].
  - split; [constructor|]. split; [intros c Hin|intros d c' Hin]; by apply elem_of_nil in Hin.
  - apply Forall_cons in Hp as [Hpc Hp]. destruct (IH Hp) as (I1 & I2 & I3).
    destruct (Hf c v Hcv) as (visited & -> & Hanc & Hclo). cbn [concat].
    split; [|split].
    + apply Forall_app. split; [|exact I1]. constructor; [by apply parent_in_ancestors|].
      eapply Forall_impl; [exact Hanc|]. intros d Hd.
      apply (ancestors_trans this c d); [|exact Hd].
      rewrite selfAndAncestors_unfold. right. by apply parent_in_ancestors.
    + intros c0 [->|Hin]%elem_of_cons; apply elem_of_app; [left; left|right; by apply I2].
    + intros d c' [Hd|Hd]%elem_of_app Hc'; apply elem_of_app.
      * left. right. by apply (Hclo d).
      * right. by apply (I3 d).
Qed.

Lemma forEach_visits h fuel :
  childrenHaveParent h ->
  forall this result,
    forEachDeclarationRecursive fuel h this = Some result ->
    exists visited,
      result = this :: visited
      /\ Forall (fun d => this ∈ ancestors d) visited
      /\ (forall d c, d ∈ this :: visited -> c ∈ children h d -> c ∈ visited).
Proof.
  intros Hc. induction fuel as [|fuel IH]; intros this result; [discriminate|].
  cbn [forEachDeclarationRecursive].
  destruct (mapM (forEachDeclarationRecursive fuel h) (children h this)) as [vs|] eqn:E;
    [|discriminate].
  cbn. intros [= <-]. exists (concat vs). split; [done|].
  apply mapM_Some in E.
  assert (Hparent : Forall (fun c => parent c = Some this) (children h this)).
  { apply Forall_forall. intros c Hin. apply Hc.
    unfold children in Hin. destruct (analyzed _ _); [done|by apply elem_of_nil in Hin]. }
  destruct (visits_of_children h this _ _ _ IH Hparent E) as (H1 & H2 & H3).
  split; [exact H1|]. intros d c [->|Hd]%elem_of_cons Hin; [by apply H2|by apply (H3 d)].
Qed.

(** X23.  Over a graph built by any sequence of calls from an empty one,
    [forEachDeclarationRecursive] ends; it calls the action on the
    declaration first, then only on declarations nested in it, and on
    every child of every declaration it calls the action on. *)
Theorem forEachDeclarationRecursive_visits (calls : list Call) (this : AstDeclaration) :
  let h := run calls emptyHeap in
  exists fuel visited,
    (forall fuel', fuel <= fuel' ->
                   forEachDeclarationRecursive fuel' h this = Some (this :: visited))
    /\ Forall (fun d => this ∈ ancestors d) visited
    /\ (forall d c, d ∈ this :: visited -> c ∈ children h d -> c ∈ visited).
Proof.
  intros h.
  pose proof (childrenHaveParent_run calls emptyHeap childrenHaveParent_emptyHeap) as Hc.
  fold h in Hc. destruct (depth_bound h) as [bound Hbound].
  destruct (forEach_terminates h bound Hc Hbound (S bound) this) as [result E]; [lia|].
  destruct (forEach_visits h _ Hc this result E) as (visited & -> & Hanc & Hclo).
  exists (S (S bound)), visited. split; [|by split].
  intros fuel' Hle. by apply (forEach_fuel_le h (S (S bound))).
Qed.

Lemma forEachDeclarationRecursive_visits_witness :
  exists fuel visited,
    forEachDeclarationRecursive fuel
      (run [NotifyChildAttach root1 nested2; NotifyChildAttach root1 nested3;
            MarkAnalyzed 1%positive] emptyHeap) root1
    = Some (root1 :: visited)
    /\ (nested3 ∈ visited).
Proof.
  destruct (forEachDeclarationRecursive_visits
              [NotifyChildAttach root1 nested2; NotifyChildAttach root1 nested3;
               MarkAnalyzed 1%positive] root1) as (fuel & visited & Hrun & _ & Hclosed).
  exists fuel, visited. split; [by apply Hrun|].
  apply (Hclosed root1); [left|]. vm_compute. right. left.
Defined.

End Traversal.
